(** * Harmony Viewer: shallow embedding of the viewer scripts and the Reveal plugin

    The repository ships several generations of the viewer script and of the
    Reveal.js plugin.  Each generation is embedded in a module of its own:

    - [Gated]     the drop-in viewer with activation gating
                  (harmony-activate / harmony-deactivate, [clampInt],
                  [pickMidiPort], pitch computation through the toolkit);
    - [Dom], [ChordSafe]  the chord-safe step extraction on the rendered SVG;
    - [Baseline]  the viewer with the HTML analysis overlay and the cached
                  global baseline;
    - [Deck]      the host-side Reveal plugin that activates the viewers of
                  the current slide.

    JavaScript numbers that the scripts use as integers (MIDI bytes, step
    indices, slide indices) are [Z]; pixel coordinates are rationals [Q];
    JavaScript strings are [string]s holding their UTF-8 encoding. *)

From Stdlib Require Import ZArith QArith Qminmax Qround String Ascii Bool Lia.
From stdpp Require Import base list sorting gmap.

Close Scope Q_scope.
Local Open Scope Z_scope.
Set Warnings "-register-all".

(** ** Shared vocabulary *)

(** A number after [Number(...)]: an integer, or a value for which
    [Number.isFinite] is false (NaN and the infinities). *)
Inductive num :=
| Int (z : Z)
| NonFinite.

(** A MIDI message is the byte array handed to [midiOut.send] or received in
    [ev.data]. *)
Definition MidiMsg := list Z.

Record Port := { portName : string; portId : nat }.

(** Screen rectangle, as returned by [getBoundingClientRect]. *)
Record Rect := { rLeft : Q; rRight : Q; rTop : Q; rBottom : Q }.

(** One entry of the analysis JSON; an absent label is the empty string
    (the scripts fall back to it when [a.stufe] or [a.function] is
    missing). *)
Record AnalysisEntry := { stufe : string; func : string }.

(** The HTML analysis overlay: its [hidden] flag, the two labels and the
    [style.left] / [style.top] pixel values. *)
Record Overlay := {
  ovHidden : bool;
  ovStufe : string;
  ovFunction : string;
  ovLeft : Q;
  ovTop : Q
}.

Definition hideOverlay (o : Overlay) : Overlay :=
  {| ovHidden := true; ovStufe := ovStufe o; ovFunction := ovFunction o;
     ovLeft := ovLeft o; ovTop := ovTop o |}.

Definition isNoteOn (m : MidiMsg) : bool :=
  match m with
  | status :: _ => Z.land status 0xf0 =? 0x90
  | [] => false
  end.

(** [steps[index - 1]] for a JavaScript number [index]: [undefined] (here
    [None]) when the position is negative or past the end. *)
Definition at1 {A} (l : list A) (index : Z) : option A :=
  if index <=? 0 then None else l !! Z.to_nat (index - 1).

(** ** The activation-gated viewer *)

Module Gated.

(** *** Utilities *)

(** [clampInt(n, lo, hi)]: a non-finite [n] gives [lo]; otherwise
    [Math.max(lo, Math.min(hi, Math.trunc(n)))].  [Math.trunc] is the
    identity on the integer values modelled here. *)
Definition clampInt (n : num) (lo hi : Z) : Z :=
  match n with
  | NonFinite => lo
  | Int z => Z.max lo (Z.min hi z)
  end.

(** What the browser currently lays out: the screen rectangle of the
    element with a given id ([None] when [querySelector] finds nothing),
    the rectangle of [#viewer] and its [offsetHeight]. *)
Record Layout := {
  rectOf : string -> option Rect;
  viewerRect : Rect;
  offsetHeight : Z
}.

(** Messages posted to the parent window. *)
Inductive ParentMsg :=
| ViewerHeight (height : Z).

(** The module-level variables of the script, together with the parts of
    the page it writes (highlight class, overlay) and the effects it
    performs (bytes sent to [midiOut], pending [setTimeout] callbacks,
    messages posted to the parent). *)
Record Viewer := {
  IS_EMBEDDED : bool;
  harmonicSteps : list (list string);
  stepPitches : list (list Z);
  analysis : option (list AnalysisEntry);
  globalAnalysisBaselineY : option Q;
  layout : Layout;
  midiOut : option Port;
  highlightedStep : Z;
  isActiveViewer : bool;
  currentSlideIndex : Z;
  highlighted : list string;      (* ids of the groups carrying hv-highlight *)
  overlay : Overlay;
  sent : list MidiMsg;            (* arguments of midiOut.send, oldest first *)
  timers : list Z;                (* channels of pending 80 ms all-notes-off timers *)
  posted : list ParentMsg         (* window.parent.postMessage, oldest first *)
}.

Definition set_highlightedStep (v : Z) (s : Viewer) : Viewer :=
  {| IS_EMBEDDED := IS_EMBEDDED s; harmonicSteps := harmonicSteps s;
     stepPitches := stepPitches s; analysis := analysis s;
     globalAnalysisBaselineY := globalAnalysisBaselineY s; layout := layout s;
     midiOut := midiOut s; highlightedStep := v;
     isActiveViewer := isActiveViewer s; currentSlideIndex := currentSlideIndex s;
     highlighted := highlighted s; overlay := overlay s; sent := sent s;
     timers := timers s; posted := posted s |}.

Definition set_isActiveViewer (v : bool) (s : Viewer) : Viewer :=
  {| IS_EMBEDDED := IS_EMBEDDED s; harmonicSteps := harmonicSteps s;
     stepPitches := stepPitches s; analysis := analysis s;
     globalAnalysisBaselineY := globalAnalysisBaselineY s; layout := layout s;
     midiOut := midiOut s; highlightedStep := highlightedStep s;
     isActiveViewer := v; currentSlideIndex := currentSlideIndex s;
     highlighted := highlighted s; overlay := overlay s; sent := sent s;
     timers := timers s; posted := posted s |}.

Definition set_currentSlideIndex (v : Z) (s : Viewer) : Viewer :=
  {| IS_EMBEDDED := IS_EMBEDDED s; harmonicSteps := harmonicSteps s;
     stepPitches := stepPitches s; analysis := analysis s;
     globalAnalysisBaselineY := globalAnalysisBaselineY s; layout := layout s;
     midiOut := midiOut s; highlightedStep := highlightedStep s;
     isActiveViewer := isActiveViewer s; currentSlideIndex := v;
     highlighted := highlighted s; overlay := overlay s; sent := sent s;
     timers := timers s; posted := posted s |}.

Definition set_highlighted (v : list string) (s : Viewer) : Viewer :=
  {| IS_EMBEDDED := IS_EMBEDDED s; harmonicSteps := harmonicSteps s;
     stepPitches := stepPitches s; analysis := analysis s;
     globalAnalysisBaselineY := globalAnalysisBaselineY s; layout := layout s;
     midiOut := midiOut s; highlightedStep := highlightedStep s;
     isActiveViewer := isActiveViewer s; currentSlideIndex := currentSlideIndex s;
     highlighted := v; overlay := overlay s; sent := sent s;
     timers := timers s; posted := posted s |}.

Definition set_overlay (v : Overlay) (s : Viewer) : Viewer :=
  {| IS_EMBEDDED := IS_EMBEDDED s; harmonicSteps := harmonicSteps s;
     stepPitches := stepPitches s; analysis := analysis s;
     globalAnalysisBaselineY := globalAnalysisBaselineY s; layout := layout s;
     midiOut := midiOut s; highlightedStep := highlightedStep s;
     isActiveViewer := isActiveViewer s; currentSlideIndex := currentSlideIndex s;
     highlighted := highlighted s; overlay := v; sent := sent s;
     timers := timers s; posted := posted s |}.

Definition set_sent (v : list MidiMsg) (s : Viewer) : Viewer :=
  {| IS_EMBEDDED := IS_EMBEDDED s; harmonicSteps := harmonicSteps s;
     stepPitches := stepPitches s; analysis := analysis s;
     globalAnalysisBaselineY := globalAnalysisBaselineY s; layout := layout s;
     midiOut := midiOut s; highlightedStep := highlightedStep s;
     isActiveViewer := isActiveViewer s; currentSlideIndex := currentSlideIndex s;
     highlighted := highlighted s; overlay := overlay s; sent := v;
     timers := timers s; posted := posted s |}.

Definition set_timers (v : list Z) (s : Viewer) : Viewer :=
  {| IS_EMBEDDED := IS_EMBEDDED s; harmonicSteps := harmonicSteps s;
     stepPitches := stepPitches s; analysis := analysis s;
     globalAnalysisBaselineY := globalAnalysisBaselineY s; layout := layout s;
     midiOut := midiOut s; highlightedStep := highlightedStep s;
     isActiveViewer := isActiveViewer s; currentSlideIndex := currentSlideIndex s;
     highlighted := highlighted s; overlay := overlay s; sent := sent s;
     timers := v; posted := posted s |}.

Definition set_posted (v : list ParentMsg) (s : Viewer) : Viewer :=
  {| IS_EMBEDDED := IS_EMBEDDED s; harmonicSteps := harmonicSteps s;
     stepPitches := stepPitches s; analysis := analysis s;
     globalAnalysisBaselineY := globalAnalysisBaselineY s; layout := layout s;
     midiOut := midiOut s; highlightedStep := highlightedStep s;
     isActiveViewer := isActiveViewer s; currentSlideIndex := currentSlideIndex s;
     highlighted := highlighted s; overlay := overlay s; sent := sent s;
     timers := timers s; posted := v |}.

(** [midiOut.send(bytes)] on a bound output. *)
Definition send (m : MidiMsg) (s : Viewer) : Viewer :=
  set_sent (sent s ++ [m]) s.

(** *** Height reporting *)

Definition notifyParentOfHeight (s : Viewer) : Viewer :=
  if negb (IS_EMBEDDED s) then s
  else set_posted (posted s ++ [ViewerHeight (offsetHeight (layout s))]) s.

(** *** Analysis overlay *)

(** The rectangles of the step's note groups that [querySelector] finds. *)
Definition stepRects (s : Viewer) (stepIndex : Z) : list Rect :=
  omap (rectOf (layout s)) (default [] (at1 (harmonicSteps s) stepIndex)).

(** [rects.reduce((s, r) => s + (r.left + r.right) / 2, 0) / rects.length] *)
Definition centerX (rects : list Rect) : Q :=
  (foldl (fun acc r => acc + (rLeft r + rRight r) / 2) 0 rects
   / inject_Z (Z.of_nat (length rects)))%Q.

(** [!globalAnalysisBaselineY]: [null] and the number zero are falsy. *)
Definition truthyBaseline (b : option Q) : option Q :=
  match b with
  | Some y => if Qeq_bool y 0 then None else Some y
  | None => None
  end.

Definition updateAnalysisOverlay (stepIndex : Z) (s : Viewer) : Viewer :=
  let hide s := set_overlay (hideOverlay (overlay s)) s in
  match analysis s with
  | None => hide s
  | Some steps =>
    if stepIndex <=? 0 then hide s
    else
      match at1 steps stepIndex with
      | None => hide s
      | Some step =>
        let o := overlay s in
        let s := set_overlay {| ovHidden := ovHidden o; ovStufe := stufe step;
                                ovFunction := func step;
                                ovLeft := ovLeft o; ovTop := ovTop o |} s in
        let rects := stepRects s stepIndex in
        if (length rects =? 0)%nat then hide s
        else
          let cx := centerX rects in
          match truthyBaseline (globalAnalysisBaselineY s) with
          | None => hide s
          | Some baselineY =>
            let vr := viewerRect (layout s) in
            set_overlay {| ovHidden := false; ovStufe := stufe step;
                           ovFunction := func step;
                           ovLeft := (cx - rLeft vr)%Q;
                           ovTop := (baselineY - rTop vr + 6)%Q |} s
          end
      end
  end.

(** *** SVG highlight *)

(** The [hv-highlight] class is removed everywhere and then added to the
    groups of the step that [querySelector] finds. *)
Definition applySvgHighlight (stepIndex : Z) (s : Viewer) : Viewer :=
  if stepIndex <=? 0 then set_highlighted [] s
  else
    let ids := default [] (at1 (harmonicSteps s) stepIndex) in
    set_highlighted (filter (fun id => is_Some (rectOf (layout s) id)) ids) s.

(** *** MIDI output *)

Definition sendCC (cc : Z) (value : num) (channel : Z) (s : Viewer) : Viewer :=
  match midiOut s with
  | None => s
  | Some _ =>
    let v := clampInt value 0 127 in
    let status := Z.lor 0xb0 (Z.land channel 0x0f) in
    send [status; Z.land cc 0x7f; v] s
  end.

Definition sendStepCountCc (s : Viewer) : Viewer :=
  if negb (isActiveViewer s) then s
  else sendCC 23 (Int (Z.of_nat (length (harmonicSteps s)))) 0 s.

Definition sendSlideIndexCc (index : Z) (s : Viewer) : Viewer :=
  if negb (isActiveViewer s) then s
  else sendCC 24 (Int index) 0 s.

Definition sendAllNotesOff (channel : Z) (s : Viewer) : Viewer :=
  match midiOut s with
  | None => s
  | Some _ => sendCC 123 (Int 0) channel s
  end.

Definition sendStepNotesAsMidi (stepIndex : Z) (s : Viewer) : Viewer :=
  match midiOut s with
  | None => s
  | Some _ =>
    let pitches := default [] (at1 (stepPitches s) stepIndex) in
    let vel := 100 in
    let ch := 0 in
    let s := foldl (fun s p => send [Z.lor 0x90 ch; clampInt (Int p) 0 127; vel] s)
                   s pitches in
    set_timers (timers s ++ [ch]) s
  end.

(** A pending 80 ms timer fires: [sendAllNotesOff(ch)]. *)
Definition fireTimer (s : Viewer) : Viewer :=
  match timers s with
  | [] => s
  | ch :: rest => sendAllNotesOff ch (set_timers rest s)
  end.

(** *** Step selection *)

Definition highlightStep (stepIndex : num) (s : Viewer) : Viewer :=
  let s := set_highlightedStep
             (clampInt stepIndex 0 (Z.of_nat (length (harmonicSteps s)))) s in
  let s := applySvgHighlight (highlightedStep s) s in
  let s := updateAnalysisOverlay (highlightedStep s) s in
  let s := if isActiveViewer s && (0 <? highlightedStep s)
           then sendStepNotesAsMidi (highlightedStep s) s
           else sendAllNotesOff 0 s in
  notifyParentOfHeight s.

(** *** MIDI input *)

(** [data[i] || 0] *)
Definition byteAt (data : MidiMsg) (i : nat) : Z := default 0 (data !! i).

Definition handleMidiMessage (data : MidiMsg) (s : Viewer) : Viewer :=
  if negb (isActiveViewer s) && IS_EMBEDDED s then s
  else
    let status := byteAt data 0 in
    let d1 := byteAt data 1 in
    let d2 := byteAt data 2 in
    let msgType := Z.land status 0xf0 in
    if msgType =? 0xb0 then
      let cc := Z.land d1 0x7f in
      let value := Z.land d2 0x7f in
      if cc =? 22 then
        let step := clampInt (Int value) 0 (Z.of_nat (length (harmonicSteps s))) in
        highlightStep (Int step) s
      else s
    else s.

(** *** Messages from the Reveal wrapper *)

(** The payloads the [message] listener tells apart.  [slideIndex] is
    [None] when the field is [undefined] or [null] (then [?? 0] applies).
    Anything else (non-objects, unknown [type]) is [OtherMessage]. *)
Inductive HostMsg :=
| HarmonyActivate (slideIndex : option num)
| HarmonyDeactivate
| HarmonyRequestStepCount
| OtherMessage.

Definition onMessage (msg : HostMsg) (s : Viewer) : Viewer :=
  match msg with
  | HarmonyActivate slideIndex =>
    let s := set_isActiveViewer true s in
    let s := set_currentSlideIndex (clampInt (default (Int 0) slideIndex) 0 127) s in
    let s := sendStepCountCc s in
    let s := sendSlideIndexCc (currentSlideIndex s) s in
    let s := highlightStep (Int (highlightedStep s)) s in
    notifyParentOfHeight s
  | HarmonyDeactivate =>
    let s := set_isActiveViewer false s in
    sendAllNotesOff 0 s
  | HarmonyRequestStepCount => sendStepCountCc s
  | OtherMessage => s
  end.

(** The debug button: advance, wrapping to 0 after the last step. *)
Definition onNextClick (s : Viewer) : Viewer :=
  let next := if Z.of_nat (length (harmonicSteps s)) <? highlightedStep s + 1
              then 0 else highlightedStep s + 1 in
  highlightStep (Int next) s.

(** The transport view of selecting a step and of deactivating. *)
Definition selectStep (n : Z) (s : Viewer) : Viewer := highlightStep (Int n) s.
Definition deactivate (s : Viewer) : Viewer := onMessage HarmonyDeactivate s.
Definition activate (slideIndex : Z) (s : Viewer) : Viewer :=
  onMessage (HarmonyActivate (Some (Int slideIndex))) s.

(** *** Port names *)

(** The UTF-8 bytes of a JavaScript string. *)
Definition bytes (s : string) : list N :=
  map N_of_ascii (list_ascii_of_string s).

(** [haystack.includes(needle)] *)
Fixpoint isPrefix (p l : list N) : bool :=
  match p, l with
  | [], _ => true
  | _ :: _, [] => false
  | a :: p', b :: l' => (a =? b)%N && isPrefix p' l'
  end.

Fixpoint includes (hay needle : list N) : bool :=
  isPrefix needle hay ||
  match hay with
  | [] => false
  | _ :: t => includes t needle
  end.

(** [toLowerCase()].  Only the characters that end in the class
    [a-z] matter, since [normalizePortName] finally deletes every character
    outside [a-z0-9<>-_.]: the ASCII capitals, the Kelvin sign U+212A (lowers
    to [k]) and U+0130 (lowers to [i] followed by U+0307).  Every other
    non-ASCII character lowers to a non-ASCII character and is left as it
    is. *)
Fixpoint toLowerCase (l : list N) : list N :=
  match l with
  | [] => []
  | a :: t1 =>
    let ascii := (if (65 <=? a) && (a <=? 90) then a + 32 else a)%N in
    match t1 with
    | b :: t2 =>
      if ((a =? 196) && (b =? 176))%N then 105%N :: 204%N :: 135%N :: toLowerCase t2
      else
        match t2 with
        | c :: r =>
          if ((a =? 226) && (b =? 132) && (c =? 170))%N then 107%N :: toLowerCase r
          else ascii :: toLowerCase t1
        | [] => ascii :: toLowerCase t1
        end
    | [] => [ascii]
    end
  end.

(** [.replace(/[→➔⇒]/g, "->")]: U+2192, U+2794, U+21D2. *)
Definition isArrow (a b c : N) : bool :=
  ((a =? 226) &&
   (((b =? 134) && (c =? 146)) || ((b =? 158) && (c =? 148)) || ((b =? 135) && (c =? 146))))%N.

Fixpoint replaceArrows (l : list N) : list N :=
  match l with
  | [] => []
  | a :: t1 =>
    match t1 with
    | b :: c :: r =>
      if isArrow a b c then 45%N :: 62%N :: replaceArrows r
      else a :: replaceArrows t1
    | _ => a :: replaceArrows t1
    end
  end.

(** [.replace(/[–—]/g, "-")]: U+2013, U+2014. *)
Definition isDash (a b c : N) : bool :=
  ((a =? 226) && (b =? 128) && ((c =? 147) || (c =? 148)))%N.

Fixpoint replaceDashes (l : list N) : list N :=
  match l with
  | [] => []
  | a :: t1 =>
    match t1 with
    | b :: c :: r =>
      if isDash a b c then 45%N :: replaceDashes r
      else a :: replaceDashes t1
    | _ => a :: replaceDashes t1
    end
  end.

(** The deletion of blanks ([/\s+/g]) on the ASCII blanks; the non-ASCII blanks are
    deleted by the last replacement in any case. *)
Definition isSpace (a : N) : bool :=
  ((a =? 32) || ((9 <=? a) && (a <=? 13)))%N.

(** The class [a-z0-9<>\-_.]; every character outside it is deleted last. *)
Definition isKept (a : N) : bool :=
  (((97 <=? a) && (a <=? 122)) || ((48 <=? a) && (a <=? 57)) ||
   (a =? 60) || (a =? 62) || (a =? 45) || (a =? 95) || (a =? 46))%N.

Definition normalizePortName (s : string) : list N :=
  filter (fun a => isKept a)
    (filter (fun a => negb (isSpace a))
      (replaceDashes (replaceArrows (toLowerCase (bytes s))))).

(** [ports.find(pred)] *)
Definition find {A} (pred : A -> bool) (l : list A) : option A :=
  head (filter (fun x => pred x) l).

Definition pickMidiPort (ports : list Port) (hint : string) : option Port :=
  match ports with
  | [] => None
  | first :: _ =>
    let hintNorm := normalizePortName hint in
    (* 1) direct normalized substring match *)
    match find (fun x => includes (normalizePortName (portName x)) hintNorm) ports with
    | Some p => Some p
    | None =>
      (* 2) arrow-insensitive heuristic: look for browser/max keywords *)
      let wantsBrowser := includes hintNorm (bytes "browser") in
      let wantsMax := includes hintNorm (bytes "max") in
      let byKeyword :=
        if wantsBrowser || wantsMax then
          find (fun x =>
                  let n := normalizePortName (portName x) in
                  (negb wantsBrowser || includes n (bytes "browser")) &&
                  (negb wantsMax || includes n (bytes "max"))) ports
        else None in
      match byKeyword with
      | Some p => Some p
      | None => Some first   (* 3) fallback: first available *)
      end
    end
  end.

(** [initMidi] once [requestMIDIAccess] has resolved with the given output
    ports. *)
Definition bindMidiOut (outputs : list Port) (OUT_PORT_HINT : string) (s : Viewer) : Viewer :=
  {| IS_EMBEDDED := IS_EMBEDDED s; harmonicSteps := harmonicSteps s;
     stepPitches := stepPitches s; analysis := analysis s;
     globalAnalysisBaselineY := globalAnalysisBaselineY s; layout := layout s;
     midiOut := pickMidiPort outputs OUT_PORT_HINT;
     highlightedStep := highlightedStep s;
     isActiveViewer := isActiveViewer s; currentSlideIndex := currentSlideIndex s;
     highlighted := highlighted s; overlay := overlay s; sent := sent s;
     timers := timers s; posted := posted s |}.

(** *** Pitch computation *)

(** What [vrvToolkit.getElementAttr(noteId)] gives back: it throws, or
    returns a falsy value, or an object whose [pname] / [oct] entries (and
    those of a nested [pitch] object) are strings or [undefined]. *)
Record NoteAttr := {
  pname : option string;
  oct : option string;
  pitch : option (option string * option string)
}.

Inductive AttrResult :=
| Throws
| NoAttr
| Attr (a : NoteAttr).

Definition Toolkit := string -> AttrResult.

(** Truthiness of an attribute value: [undefined] and the empty string are
    falsy. *)
Definition truthy (v : option string) : bool :=
  match v with
  | Some s => negb (String.eqb s "")
  | None => false
  end.

(** [a || b || c] *)
Definition orElse (a b c : option string) : option string :=
  if truthy a then a else if truthy b then b else c.

(** [String(v)] *)
Definition String_ (v : option string) : string := default "undefined"%string v.

Definition pnameToSemitone (pname : option string) : option Z :=
  let p := toLowerCase (bytes (String_ pname)) in
  if decide (p = bytes "c") then Some 0
  else if decide (p = bytes "d") then Some 2
  else if decide (p = bytes "e") then Some 4
  else if decide (p = bytes "f") then Some 5
  else if decide (p = bytes "g") then Some 7
  else if decide (p = bytes "a") then Some 9
  else if decide (p = bytes "b") then Some 11
  else None.

(** **** [Number(oct)] *)

(** [StrWhiteSpaceChar] in UTF-8: TAB, LF, VT, FF, CR and the space;
    U+00A0; U+1680; U+2000 to U+200A, U+2028, U+2029 and U+202F; U+205F;
    U+3000; U+FEFF. *)
Definition isWhite1 (a : N) : bool := ((a =? 32) || ((9 <=? a) && (a <=? 13)))%N.

Definition isWhite2 (a b : N) : bool := ((a =? 194) && (b =? 160))%N.

Definition isWhite3 (a b c : N) : bool :=
  (((a =? 225) && (b =? 154) && (c =? 128))
   || ((a =? 226) && (b =? 128)
       && (((128 <=? c) && (c <=? 138)) || (c =? 168) || (c =? 169) || (c =? 175)))
   || ((a =? 226) && (b =? 129) && (c =? 159))
   || ((a =? 227) && (b =? 128) && (c =? 128))
   || ((a =? 239) && (b =? 187) && (c =? 191)))%N.

Fixpoint skipWhiteSpace (l : list N) : list N :=
  match l with
  | [] => []
  | a :: t1 =>
    if isWhite1 a then skipWhiteSpace t1
    else
      match t1 with
      | b :: t2 =>
        if isWhite2 a b then skipWhiteSpace t2
        else
          match t2 with
          | c :: r => if isWhite3 a b c then skipWhiteSpace r else l
          | [] => l
          end
      | [] => l
      end
  end.

(** The value of a digit in the given radix ([0-9], [a-f], [A-F]). *)
Definition digitValue (radix : Z) (d : N) : option Z :=
  let v := if ((48 <=? d) && (d <=? 57))%N then Z.of_N d - 48
           else if ((97 <=? d) && (d <=? 102))%N then Z.of_N d - 87
           else if ((65 <=? d) && (d <=? 70))%N then Z.of_N d - 55
           else radix in
  if v <? radix then Some v else None.

(** The longest run of digits at the head of [l]: its value on top of
    [acc], the number of digits read, and what follows. *)
Fixpoint readDigits (radix acc : Z) (count : nat) (l : list N) : Z * nat * list N :=
  match l with
  | [] => (acc, count, [])
  | d :: r =>
    match digitValue radix d with
    | Some v => readDigits radix (radix * acc + v) (S count) r
    | None => (acc, count, l)
    end
  end.

(** The mathematical value of a [StringNumericLiteral]:
    [mantissa * 10 ^ scale], an infinity, or none (NaN). *)
Inductive StrValue :=
| Decimal (mantissa scale : Z)
| Infinite
| NoValue.

(** [ExponentPart], when one follows: [e] or [E], an optional sign, digits. *)
Definition readExponent (l : list N) : Z * list N :=
  match l with
  | e :: r =>
    if ((e =? 101) || (e =? 69))%N then
      let '(negative, r') := match r with
                             | 45%N :: r' => (true, r')
                             | 43%N :: r' => (false, r')
                             | _ => (false, r)
                             end in
      let '(v, count, rest) := readDigits 10 0 0 r' in
      match count with
      | O => (0, l)
      | S _ => (if negative then - v else v, rest)
      end
    else (0, l)
  | [] => (0, l)
  end.

(** [StrUnsignedDecimalLiteral] at the head of [l]: [Infinity], or digits
    with an optional fraction and exponent, at least one digit before the
    exponent. *)
Definition readUnsigned (l : list N) : option (StrValue * list N) :=
  if isPrefix (bytes "Infinity") l then Some (Infinite, drop 8 l)
  else
    let '(i, ci, r1) := readDigits 10 0 0 l in
    match r1 with
    | 46%N :: r2 =>
      let '(f, cf, r3) := readDigits 10 i 0 r2 in
      match (ci + cf)%nat with
      | O => None
      | S _ => let '(e, rest) := readExponent r3 in
               Some (Decimal f (e - Z.of_nat cf), rest)
      end
    | _ =>
      match ci with
      | O => None
      | S _ => let '(e, rest) := readExponent r1 in Some (Decimal i e, rest)
      end
    end.

(** [NonDecimalIntegerLiteral] at the head of [l]: [0x], [0o] or [0b] in
    either case, then digits of that radix. *)
Definition readNonDecimal (l : list N) : option (StrValue * list N) :=
  match l with
  | 48%N :: x :: r =>
    let radix := if ((x =? 120) || (x =? 88))%N then 16
                 else if ((x =? 111) || (x =? 79))%N then 8
                 else if ((x =? 98) || (x =? 66))%N then 2
                 else 0 in
    let '(v, count, rest) := readDigits radix 0 0 r in
    match count with
    | O => None
    | S _ => Some (Decimal v 0, rest)
    end
  | _ => None
  end.

Definition negate (v : StrValue) : StrValue :=
  match v with
  | Decimal m scale => Decimal (- m) scale
  | other => other
  end.

(** [StringToNumber]: white space is trimmed at both ends; an empty rest
    is 0; a signed decimal literal or an unsigned literal of another radix
    gives its value; anything else is NaN. *)
Definition StringToNumber (s : string) : StrValue :=
  let l := skipWhiteSpace (bytes s) in
  match l with
  | [] => Decimal 0 0
  | _ =>
    let literal :=
      match readNonDecimal l with
      | Some found => Some found
      | None =>
        match l with
        | 45%N :: r => option_map (fun '(v, rest) => (negate v, rest)) (readUnsigned r)
        | 43%N :: r => readUnsigned r
        | _ => readUnsigned l
        end
      end in
    match literal with
    | Some (v, rest) =>
      match skipWhiteSpace rest with
      | [] => v
      | _ => NoValue
      end
    | None => NoValue
    end
  end.

(** [Number(oct)].  [undefined], text that is no numeric literal and the
    infinities are not finite.  A literal whose value is an integer of
    magnitude at most 2^40 is that integer, a double that the arithmetic of
    [midiFromPnameOct] handles without rounding.  For every other literal (a
    fractional value, a larger magnitude) the result is [None]: the double is
    not computed here. *)
Definition Number_ (v : option string) : option num :=
  match v with
  | None => Some NonFinite
  | Some s =>
    match StringToNumber s with
    | NoValue | Infinite => Some NonFinite
    | Decimal m scale =>
      let whole := if 0 <=? scale then Some (m * 10 ^ scale)
                   else if m mod 10 ^ (- scale) =? 0 then Some (m / 10 ^ (- scale))
                   else None in
      match whole with
      | Some z => if Z.abs z <=? 2 ^ 40 then Some (Int z) else None
      | None => None
      end
    end
  end.

(** What the code finds for one note: a pitch code, nothing (the function
    returns [null], or the lookup throws, and the note is passed over), or a
    number that is not computed here (see [Number_]). *)
Inductive Resolved :=
| Pitch (midi : Z)
| Nothing
| Unmodelled.

Definition midiFromPnameOct (pname oct : option string) : Resolved :=
  match pnameToSemitone pname with
  | None => Nothing
  | Some semi =>
    match Number_ oct with
    | None => Unmodelled
    | Some NonFinite => Nothing
    | Some (Int o) => Pitch ((o + 1) * 12 + semi)
    end
  end.

(** [attr.pname || (attr.pitch && attr.pitch.pname) || attr["pname"]] *)
Definition attrPname (a : NoteAttr) : option string :=
  orElse (pname a) (from_option fst None (pitch a)) (pname a).

(** [attr.oct || (attr.pitch && attr.pitch.oct) || attr["oct"]] *)
Definition attrOct (a : NoteAttr) : option string :=
  orElse (oct a) (from_option snd None (pitch a)) (oct a).

(** The body of the [try] block for one note id.  A falsy [attr] stands for
    both attributes; its [String(...)] is no pitch name. *)
Definition noteMidi (tk : Toolkit) (noteId : string) : Resolved :=
  match tk noteId with
  | Throws => Nothing
  | NoAttr => midiFromPnameOct None None
  | Attr a => midiFromPnameOct (attrPname a) (attrOct a)
  end.

(** The [pitches] array after the loop: the codes in the order of the ids;
    [None] when one of them is not computed. *)
Fixpoint pushAll (found : list Resolved) : option (list Z) :=
  match found with
  | [] => Some []
  | r :: rest =>
    match r, pushAll rest with
    | Pitch p, Some pitches => Some (p :: pitches)
    | Nothing, Some pitches => Some pitches
    | _, _ => None
    end
  end.

(** [Array.from(new Set(pitches))]: first occurrences, in insertion order. *)
Fixpoint uniqFrom (seen l : list Z) : list Z :=
  match l with
  | [] => []
  | x :: r => if decide (x ∈ seen) then uniqFrom seen r else x :: uniqFrom (x :: seen) r
  end.

Definition uniq (l : list Z) : list Z := uniqFrom [] l.

(** [.sort((a, b) => a - b)] *)
Definition sortAscending (l : list Z) : list Z := merge_sort Z.le l.

(** One iteration of the [harmonicSteps.map] callback. *)
Definition resolvePitches (tk : Toolkit) (ids : list string) : option (list Z) :=
  option_map (fun pitches => sortAscending (uniq pitches))
             (pushAll (map (noteMidi tk) ids)).

Definition computeStepPitches (vrvToolkit : option Toolkit) (s : Viewer) : option Viewer :=
  match vrvToolkit with
  | None => Some s
  | Some tk =>
    option_map
      (fun pitches =>
         {| IS_EMBEDDED := IS_EMBEDDED s; harmonicSteps := harmonicSteps s;
            stepPitches := pitches;
            analysis := analysis s;
            globalAnalysisBaselineY := globalAnalysisBaselineY s; layout := layout s;
            midiOut := midiOut s; highlightedStep := highlightedStep s;
            isActiveViewer := isActiveViewer s; currentSlideIndex := currentSlideIndex s;
            highlighted := highlighted s; overlay := overlay s; sent := sent s;
            timers := timers s; posted := posted s |})
      (mapM (resolvePitches tk) (harmonicSteps s))
  end.

(** *** The handlers as one transition function *)

(** What can happen to a loaded viewer: a message from the host page, a
    MIDI message on the bound input, a click on the debug button, the oldest
    pending note timer firing. *)
Inductive Event :=
| Message (msg : HostMsg)
| Midi (data : MidiMsg)
| NextClick
| TimerFires.

Definition handle (e : Event) (s : Viewer) : Viewer :=
  match e with
  | Message msg => onMessage msg s
  | Midi data => handleMidiMessage data s
  | NextClick => onNextClick s
  | TimerFires => fireTimer s
  end.

Definition run (es : list Event) (s : Viewer) : Viewer :=
  foldl (fun s e => handle e s) s es.

(** *** Geometric step detection *)

(** [Math.round]: the nearest integer, halves rounded up. *)
Definition round (x : Q) : Z := Qfloor (x + (1 # 2))%Q.

(** [const BUCKET = 3] *)
Definition BUCKET : Q := 3.

(** [Math.round(e.x / BUCKET)] *)
Definition bucketOf (e : string * Q) : Z := round (snd e / BUCKET)%Q.

(** [entries.sort((a, b) => a.x - b.x)] *)
Definition sortEntries (entries : list (string * Q)) : list (string * Q) :=
  @merge_sort _ (fun a b => Qle_bool (snd a) (snd b) = true)
              (fun a b => decide (Qle_bool (snd a) (snd b) = true)) entries.

(** [if (!buckets.has(k)) buckets.set(k, []); buckets.get(k).push(id)] on
    the [Map], kept in insertion order. *)
Fixpoint bucketPush (k : Z) (id : string) (buckets : list (Z * list string))
  : list (Z * list string) :=
  match buckets with
  | [] => [(k, [id])]
  | (k', ids) :: rest =>
    if k =? k' then (k', ids ++ [id]) :: rest
    else (k', ids) :: bucketPush k id rest
  end.

Definition fillBuckets (entries : list (string * Q)) : list (Z * list string) :=
  foldl (fun buckets e => bucketPush (bucketOf e) (fst e) buckets) [] entries.

(** [Array.from(buckets.entries()).sort((a, b) => a[0] - b[0])] *)
Definition sortBuckets (buckets : list (Z * list string)) : list (Z * list string) :=
  @merge_sort _ (fun a b => fst a <= fst b)
              (fun a b => decide (fst a <= fst b)) buckets.

(** [buildHarmonicStepsFromSvg], from the point where [entries] holds, for
    every [g.note[id]] with a notehead, its id and the x of the notehead's
    [translate(x, y)]. *)
Definition buildHarmonicSteps (entries : list (string * Q)) : list (list string) :=
  map snd (sortBuckets (fillBuckets (sortEntries entries))).

(** *** The shared baseline *)

(** [computeGlobalAnalysisBaselineY] on the screen rectangles of the
    elements matching [.notehead, g.note] ([None] when there is no SVG).
    [maxBottom] starts at minus infinity, here [None]. *)
Definition computeGlobalAnalysisBaselineY (rects : option (list Rect)) : option Q :=
  match rects with
  | None => None
  | Some rs =>
    let maxBottom :=
      foldl (fun m r =>
               match m with
               | None => Some (rBottom r)
               | Some b => if Qlt_le_dec b (rBottom r) then Some (rBottom r) else Some b
               end) None rs in
    match maxBottom with
    | None => None
    | Some b => Some (b + 10)%Q
    end
  end.

End Gated.

(** ** The rendered SVG as a tree *)

Module Dom.

(** An element: tag name, class list, id attribute, children. *)
Inductive Node :=
| Element (tag : string) (classes : list string) (id : option string) (children : list Node).

Definition tag (n : Node) : string := match n with Element t _ _ _ => t end.
Definition classes (n : Node) : list string := match n with Element _ c _ _ => c end.
Definition children (n : Node) : list Node := match n with Element _ _ _ c => c end.

(** Tree order (the DOM's document order): a node, then the subtrees of its
    children from first to last.  Every node is listed with its chain of
    ancestors, nearest first. *)
Fixpoint walk (ancestors : list Node) (n : Node) : list (list Node * Node) :=
  match n with
  | Element _ _ _ cs => (ancestors, n) :: flat_map (walk (n :: ancestors)) cs
  end.

(** A document is the tree-order listing of its root.  An element handle is
    the element's position in that listing, so two handles are the same
    object exactly when they are equal, and one node precedes another in
    document order exactly when its handle is smaller. *)
Definition Document := list (list Node * Node).
Definition Handle := nat.

Definition treeOrder (root : Node) : Document := walk [] root.

(** The descendants of an element are the nodes listed right after it, as
    many as its subtree holds. *)
Definition descendants (doc : Document) (el : Handle) : list Handle :=
  match doc !! el with
  | Some (anc, n) => seq (S el) (length (walk anc n) - 1)
  | None => []
  end.

(** A selector, as a test on an element and its ancestors. *)
Definition Selector := list Node -> Node -> bool.

Definition hasClass (c : string) (n : Node) : bool := bool_decide (c ∈ classes n).

(** [g.chord], [g.note] *)
Definition gWithClass (c : string) : Selector :=
  fun _ n => String.eqb (tag n) "g" && hasClass c n.

(** [.notehead use]: a [use] element below an element of class
    [notehead].  The ancestor may lie anywhere in the document. *)
Definition noteheadUse : Selector :=
  fun anc n => String.eqb (tag n) "use" && existsb (hasClass "notehead") anc.

Definition matches (doc : Document) (sel : Selector) (el : Handle) : bool :=
  match doc !! el with
  | Some (anc, n) => sel anc n
  | None => false
  end.

(** [el.querySelectorAll(sel)]: the matching descendants, in tree order. *)
Definition querySelectorAll (doc : Document) (sel : Selector) (el : Handle) : list Handle :=
  filter (fun i => matches doc sel i) (descendants doc el).

(** [el.closest("g.<c>")] is not [null]: the element or one of its
    ancestors matches. *)
Definition hasClosest (doc : Document) (c : string) (el : Handle) : bool :=
  match doc !! el with
  | Some (anc, n) => existsb (fun a => gWithClass c [] a) (n :: anc)
  | None => false
  end.

(** [a.compareDocumentPosition(b) & Node.DOCUMENT_POSITION_FOLLOWING]
    is non-zero: [b] follows [a] in tree order. *)
Definition following (a b : Handle) : bool := (a <? b)%nat.

End Dom.

(** ** Chord-safe step extraction *)

Module ChordSafe.
Import Dom.

(** The comparator handed to [Array.prototype.sort]. *)
Definition compareSteps (a b : Handle) : Z :=
  if (a =? b)%nat then 0
  else if following a b then -1 else 1.

(** [array.sort(cmp)]: a merge sort that puts [a] before [b] when
    [cmp(a, b) <= 0]. *)
Definition sortWith (cmp : Handle -> Handle -> Z) (l : list Handle) : list Handle :=
  @merge_sort _ (fun a b => cmp a b <= 0) (fun a b => decide (cmp a b <= 0)) l.

(** A step is the list of its notehead [use] elements. *)
Definition Step := list Handle.

Definition noteheads (doc : Document) (el : Handle) : list Handle :=
  querySelectorAll doc noteheadUse el.

Definition extractStepsChordSafe (svg : option Node) : list Step :=
  match svg with
  | None => []
  | Some root =>
    let doc := treeOrder root in
    let chordGroups := querySelectorAll doc (gWithClass "chord") 0%nat in
    let standaloneNotes :=
      filter (fun note => negb (hasClosest doc "chord" note))
             (querySelectorAll doc (gWithClass "note") 0%nat) in
    let allSteps := sortWith compareSteps (chordGroups ++ standaloneNotes) in
    foldl (fun steps el =>
             let nh := noteheads doc el in
             if (0 <? length nh)%nat then steps ++ [nh] else steps)
          [] allSteps
  end.

(** The groupings the extraction is meant to return: the [g.chord] elements
    and the [g.note] elements outside every [g.chord]. *)
Definition isGrouping (doc : Document) (el : Handle) : bool :=
  matches doc (gWithClass "chord") el ||
  (matches doc (gWithClass "note") el && negb (hasClosest doc "chord" el)).

End ChordSafe.

(** ** The viewer with the analysis overlay and the global baseline *)

Module Baseline.
Import Dom.

(** The current layout: the screen rectangle of every notehead [use]
    element, the rectangle of [#viewer], and the height that
    [notifyParentOfHeight] measures on the SVG,
    [Math.ceil(bbox.y + bbox.height)]. *)
Record Layout := {
  rectOf : Handle -> Rect;
  viewerRect : Rect;
  measuredHeight : Z
}.

Inductive ParentMsg :=
| HarmonyResize (height : Z).

Record Viewer := {
  CC_SELECT : Z;
  CC_COUNT : Z;
  CC_SLIDE : Z;
  steps : list (list Handle);
  currentStep : Z;
  analysisData : option (list AnalysisEntry);
  midiOut : option Port;
  stepsReady : bool;
  midiReady : bool;
  globalBaselineY : option Q;
  layout : Layout;
  highlighted : list Handle;      (* the use elements carrying hv-highlight *)
  overlay : Overlay;
  sent : list MidiMsg;
  posted : list ParentMsg
}.

Definition set_currentStep (v : Z) (s : Viewer) : Viewer :=
  {| CC_SELECT := CC_SELECT s; CC_COUNT := CC_COUNT s; CC_SLIDE := CC_SLIDE s;
     steps := steps s; currentStep := v; analysisData := analysisData s;
     midiOut := midiOut s; stepsReady := stepsReady s; midiReady := midiReady s;
     globalBaselineY := globalBaselineY s; layout := layout s;
     highlighted := highlighted s; overlay := overlay s; sent := sent s;
     posted := posted s |}.

Definition set_globalBaselineY (v : option Q) (s : Viewer) : Viewer :=
  {| CC_SELECT := CC_SELECT s; CC_COUNT := CC_COUNT s; CC_SLIDE := CC_SLIDE s;
     steps := steps s; currentStep := currentStep s; analysisData := analysisData s;
     midiOut := midiOut s; stepsReady := stepsReady s; midiReady := midiReady s;
     globalBaselineY := v; layout := layout s;
     highlighted := highlighted s; overlay := overlay s; sent := sent s;
     posted := posted s |}.

Definition set_layout (v : Layout) (s : Viewer) : Viewer :=
  {| CC_SELECT := CC_SELECT s; CC_COUNT := CC_COUNT s; CC_SLIDE := CC_SLIDE s;
     steps := steps s; currentStep := currentStep s; analysisData := analysisData s;
     midiOut := midiOut s; stepsReady := stepsReady s; midiReady := midiReady s;
     globalBaselineY := globalBaselineY s; layout := v;
     highlighted := highlighted s; overlay := overlay s; sent := sent s;
     posted := posted s |}.

Definition set_highlighted (v : list Handle) (s : Viewer) : Viewer :=
  {| CC_SELECT := CC_SELECT s; CC_COUNT := CC_COUNT s; CC_SLIDE := CC_SLIDE s;
     steps := steps s; currentStep := currentStep s; analysisData := analysisData s;
     midiOut := midiOut s; stepsReady := stepsReady s; midiReady := midiReady s;
     globalBaselineY := globalBaselineY s; layout := layout s;
     highlighted := v; overlay := overlay s; sent := sent s;
     posted := posted s |}.

Definition set_overlay (v : Overlay) (s : Viewer) : Viewer :=
  {| CC_SELECT := CC_SELECT s; CC_COUNT := CC_COUNT s; CC_SLIDE := CC_SLIDE s;
     steps := steps s; currentStep := currentStep s; analysisData := analysisData s;
     midiOut := midiOut s; stepsReady := stepsReady s; midiReady := midiReady s;
     globalBaselineY := globalBaselineY s; layout := layout s;
     highlighted := highlighted s; overlay := v; sent := sent s;
     posted := posted s |}.

Definition set_sent (v : list MidiMsg) (s : Viewer) : Viewer :=
  {| CC_SELECT := CC_SELECT s; CC_COUNT := CC_COUNT s; CC_SLIDE := CC_SLIDE s;
     steps := steps s; currentStep := currentStep s; analysisData := analysisData s;
     midiOut := midiOut s; stepsReady := stepsReady s; midiReady := midiReady s;
     globalBaselineY := globalBaselineY s; layout := layout s;
     highlighted := highlighted s; overlay := overlay s; sent := v;
     posted := posted s |}.

Definition set_posted (v : list ParentMsg) (s : Viewer) : Viewer :=
  {| CC_SELECT := CC_SELECT s; CC_COUNT := CC_COUNT s; CC_SLIDE := CC_SLIDE s;
     steps := steps s; currentStep := currentStep s; analysisData := analysisData s;
     midiOut := midiOut s; stepsReady := stepsReady s; midiReady := midiReady s;
     globalBaselineY := globalBaselineY s; layout := layout s;
     highlighted := highlighted s; overlay := overlay s; sent := sent s;
     posted := v |}.

Definition notifyParentOfHeight (s : Viewer) : Viewer :=
  set_posted (posted s ++ [HarmonyResize (measuredHeight (layout s) + 60)]) s.

(** *** Overlay *)

Definition hide (s : Viewer) : Viewer := set_overlay (hideOverlay (overlay s)) s.

Record BBox := { minX : Q; maxX : Q; maxY : Q }.

(** The three accumulators start at the infinities, so after the first
    rectangle they hold its own bounds; every rectangle of a laid-out element
    is finite, so the result is [null] only for a missing or empty step. *)
Definition getStepScreenBBox (index : Z) (s : Viewer) : option BBox :=
  match at1 (steps s) index with
  | None | Some [] => None
  | Some (u :: rest) =>
    let r0 := rectOf (layout s) u in
    Some (foldl (fun b v =>
                   let r := rectOf (layout s) v in
                   {| minX := Qmin (minX b) (rLeft r);
                      maxX := Qmax (maxX b) (rRight r);
                      maxY := Qmax (maxY b) (rBottom r) |})
                {| minX := rLeft r0; maxX := rRight r0; maxY := rBottom r0 |}
                rest)
  end.

Definition positionOverlayAtStep (index : Z) (s : Viewer) : Viewer :=
  match getStepScreenBBox index s with
  | None => s
  | Some bbox =>
    let vr := viewerRect (layout s) in
    let centerX := ((minX bbox + maxX bbox) / 2)%Q in
    let xInViewer := (centerX - rLeft vr)%Q in
    let yInViewer := match globalBaselineY s with
                     | Some y => y
                     | None => (maxY bbox - rTop vr + 10)%Q
                     end in
    let o := overlay s in
    set_overlay {| ovHidden := ovHidden o; ovStufe := ovStufe o;
                   ovFunction := ovFunction o;
                   ovLeft := xInViewer; ovTop := yInViewer |} s
  end.

(** [analysisData?.steps?.[index - 1]] *)
Definition analysisEntry (index : Z) (s : Viewer) : option AnalysisEntry :=
  match analysisData s with
  | Some steps => at1 steps index
  | None => None
  end.

Definition updateOverlayForStep (index : Z) (s : Viewer) : Viewer :=
  match analysisEntry index s with
  | None => hide s
  | Some a =>
    let o := overlay s in
    let s := set_overlay {| ovHidden := false; ovStufe := stufe a;
                            ovFunction := func a;
                            ovLeft := ovLeft o; ovTop := ovTop o |} s in
    (* (re)compute global baseline once (first time we show overlay) *)
    let s := match globalBaselineY s with
             | Some _ => s
             | None =>
               match getStepScreenBBox index s with
               | Some bbox =>
                 set_globalBaselineY
                   (Some (maxY bbox - rTop (viewerRect (layout s)) + 10)%Q) s
               | None => s
               end
             end in
    positionOverlayAtStep index s
  end.

Definition repositionOverlayForCurrentStep (s : Viewer) : Viewer :=
  if 0 <? currentStep s then updateOverlayForStep (currentStep s) s else s.

(** *** Highlighting *)

Definition clearHighlight (s : Viewer) : Viewer := set_highlighted [] s.

Definition highlightStep (index : Z) (s : Viewer) : Viewer :=
  let s := clearHighlight s in
  if (index <=? 0) || (Z.of_nat (length (steps s)) <? index) then
    hide (set_currentStep 0 s)
  else
    let useEls := default [] (at1 (steps s) index) in
    let s := set_highlighted useEls s in
    let s := set_currentStep index s in
    updateOverlayForStep index s.

(** *** Resize *)

(** The [resize] listener.  [lay] is the layout in force once the browser
    has resized the viewport and [fitScoreToViewerWidth] has rescaled the
    SVG. *)
Definition onResize (lay : Layout) (s : Viewer) : Viewer :=
  let s := set_globalBaselineY None s in
  let s := set_layout lay s in
  let s := repositionOverlayForCurrentStep s in
  notifyParentOfHeight s.

(** *** MIDI *)

Definition sendStepCount (s : Viewer) : Viewer :=
  match midiOut s with
  | None => s
  | Some _ =>
    let value := Z.min 127 (Z.of_nat (length (steps s))) in
    set_sent (sent s ++ [[0xb0; CC_COUNT s; value]]) s
  end.

Definition maybeSendStepCount (s : Viewer) : Viewer :=
  if negb (stepsReady s) || negb (midiReady s) then s else sendStepCount s.

Definition sendSlideIndex (index : Z) (s : Viewer) : Viewer :=
  match midiOut s with
  | None => s
  | Some _ =>
    let value := Z.max 0 (Z.min 127 index) in
    set_sent (sent s ++ [[0xb0; CC_SLIDE s; value]]) s
  end.

(** [const [status, cc, value] = e.data].  A missing [status] is
    [undefined], and [undefined & 0xf0] is 0.  A Control Change without a
    value byte makes [highlightStep(undefined)] throw after
    [clearHighlight()], which ends the handler. *)
Definition handleMIDIIn (data : MidiMsg) (s : Viewer) : Viewer :=
  let status := default 0 (data !! 0%nat) in
  if negb (Z.land status 0xf0 =? 0xb0) then s
  else if bool_decide (data !! 1%nat = Some (CC_SELECT s)) then
    match data !! 2%nat with
    | Some value => highlightStep value s
    | None => clearHighlight s
    end
  else s.

(** The [reveal-slide-visible] message; [slideIndex] is [Some] when the
    field is a number.  The layout is the one after the animation frame in
    which the score is refitted. *)
Definition onRevealSlideVisible (slideIndex : option Z) (lay : Layout) (s : Viewer) : Viewer :=
  let s := match slideIndex with Some i => sendSlideIndex i s | None => s end in
  let s := maybeSendStepCount s in
  let s := highlightStep 0 s in
  let s := set_globalBaselineY None s in
  let s := set_layout lay s in
  notifyParentOfHeight s.

(** *** Debug button, MIDI start-up, the handlers together *)

(** The debug button: advance, wrapping from the last step to the first. *)
Definition onNextClick (s : Viewer) : Viewer :=
  let next := currentStep s + 1 in
  let next := if Z.of_nat (length (steps s)) <? next then 1 else next in
  highlightStep next s.

(** [midiOut = output; midiReady = true] *)
Definition bindOutput (output : Port) (s : Viewer) : Viewer :=
  {| CC_SELECT := CC_SELECT s; CC_COUNT := CC_COUNT s; CC_SLIDE := CC_SLIDE s;
     steps := steps s; currentStep := currentStep s; analysisData := analysisData s;
     midiOut := Some output; stepsReady := stepsReady s; midiReady := true;
     globalBaselineY := globalBaselineY s; layout := layout s;
     highlighted := highlighted s; overlay := overlay s; sent := sent s;
     posted := posted s |}.

(** [output.name.includes(MIDI_OUT_NAME)] *)
Definition nameIncludes (MIDI_OUT_NAME : string) (output : Port) : bool :=
  Gated.includes (Gated.bytes (portName output)) (Gated.bytes MIDI_OUT_NAME).

(** The output half of [initMIDI] once [requestMIDIAccess] has resolved
    with the given outputs: the loop over [access.outputs.values()], then the
    final [maybeSendStepCount()]. *)
Definition initMIDI (outputs : list Port) (MIDI_OUT_NAME : string) (s : Viewer) : Viewer :=
  let s := foldl (fun s output =>
                    if nameIncludes MIDI_OUT_NAME output
                    then maybeSendStepCount (bindOutput output s)
                    else s)
                 s outputs in
  maybeSendStepCount s.

(** What can happen to a loaded viewer of this generation. *)
Inductive Event :=
| Midi (data : MidiMsg)
| Resize (lay : Layout)
| RevealSlideVisible (slideIndex : option Z) (lay : Layout)
| NextClick.

Definition handle (e : Event) (s : Viewer) : Viewer :=
  match e with
  | Midi data => handleMIDIIn data s
  | Resize lay => onResize lay s
  | RevealSlideVisible slideIndex lay => onRevealSlideVisible slideIndex lay s
  | NextClick => onNextClick s
  end.

Definition run (es : list Event) (s : Viewer) : Viewer :=
  foldl (fun s e => handle e s) s es.

End Baseline.

(** ** The Reveal plugin on the host page *)

Module Deck.

(** An [iframe[data-harmony]] of the deck: the [section] elements around
    it, nearest first, and the viewer running in its [contentWindow]
    ([None] when the frame has no window yet). *)
Record Frame := {
  sections : list nat;
  contentWindow : option Gated.Viewer
}.

(** The host page: its harmony iframes in document order and the set of
    sections that carry the [data-harmony-slide] attribute. *)
Record Host := {
  frames : list Frame;
  harmonySlides : gset nat
}.

(** What Reveal reports when a lifecycle event fires: the event's
    [indexh] / [indexv] when they are numbers, [deck.getCurrentSlide()] and
    [deck.getIndices()]. *)
Record Navigation := {
  indexh : option Z;
  indexv : option Z;
  currentSlide : option nat;
  deckIndices : option Z * option Z
}.

Definition computeSlideIndex (ev : Navigation) : Z :=
  match indexh ev with
  | Some h => h * 100 + default 0 (indexv ev)
  | None =>
    let h := default 0 (fst (deckIndices ev)) in
    let v := default 0 (snd (deckIndices ev)) in
    h * 100 + v
  end.

(** [current && current.contains(iframe)] *)
Definition inCurrentSlide (ev : Navigation) (f : Frame) : bool :=
  match currentSlide ev with
  | Some current => bool_decide (current ∈ sections f)
  | None => false
  end.

(** One turn of the loop over the harmony iframes.  The message posted to
    the frame's window is handled by the viewer's [message] listener. *)
Definition notifyFrame (ev : Navigation) (slides : gset nat) (f : Frame)
  : gset nat * Frame :=
  match contentWindow f with
  | None => (slides, f)
  | Some viewer =>
    let isActive := inCurrentSlide ev f in
    let slideIndex := computeSlideIndex ev in
    let msg := if isActive then Gated.HarmonyActivate (Some (Int slideIndex))
               else Gated.HarmonyDeactivate in
    let f' := {| sections := sections f;
                 contentWindow := Some (Gated.onMessage msg viewer) |} in
    let slides' := match sections f with
                   | [] => slides
                   | section :: _ =>
                     if isActive then {[section]} ∪ slides
                     else slides ∖ {[section]}
                   end in
    (slides', f')
  end.

Definition activateCurrentIframe (ev : Navigation) (h : Host) : Host :=
  let '(slides, fs) :=
    foldl (fun '(slides, done) f =>
             let '(slides', f') := notifyFrame ev slides f in
             (slides', done ++ [f']))
          (harmonySlides h, []) (frames h) in
  {| frames := fs; harmonySlides := slides |}.

(** The deck fires [ready], [slidechanged], [fragmentshown] and
    [fragmenthidden]; each runs [activateCurrentIframe]. *)
Definition navigate (evs : list Navigation) (h : Host) : Host :=
  foldl (fun h ev => activateCurrentIframe ev h) h evs.

Definition isActiveFrame (f : Frame) : bool :=
  match contentWindow f with
  | Some v => Gated.isActiveViewer v
  | None => false
  end.

(** How many viewers of the deck have [isActiveViewer = true]. *)
Definition activeCount (h : Host) : nat :=
  length (filter (fun f => isActiveFrame f) (frames h)).

(** How many loaded viewers the current slide contains. *)
Definition viewersInCurrentSlide (ev : Navigation) (h : Host) : nat :=
  length (filter (fun f => is_Some (contentWindow f) ∧ inCurrentSlide ev f) (frames h)).

(** *** Height reports *)

(** A message object as it arrives at the host window: its [type] and
    [Number(msg.height)], [None] when that is NaN.  The viewers report integer
    heights. *)
Record WireMsg := { msgType : string; msgHeight : option Z }.

(** What the two viewer generations post to their parent. *)
Definition gatedReport (m : Gated.ParentMsg) : WireMsg :=
  match m with
  | Gated.ViewerHeight height => {| msgType := "viewer-height"; msgHeight := Some height |}
  end.

Definition overlayReport (m : Baseline.ParentMsg) : WireMsg :=
  match m with
  | Baseline.HarmonyResize height =>
    {| msgType := "harmony-resize"; msgHeight := Some height |}
  end.

(** The inline styles the listener writes: the pixel height of each iframe
    (by position among the harmony iframes) and of each section, and the
    number of [deck.layout()] calls. *)
Record Sizes := {
  frameHeight : gmap nat Z;
  sectionHeight : gmap nat Z;
  layouts : nat
}.

(** The [message] listener of the host page.  [source] is the position of
    the harmony iframe whose window sent the message, [None] for any other
    sender. *)
Definition onHeightMessage (msg : WireMsg) (source : option nat) (h : Host) (z : Sizes)
  : Sizes :=
  if negb (String.eqb (msgType msg) "harmony-resize") then z
  else
    match source with
    | None => z
    | Some i =>
      match frames h !! i with
      | None => z
      | Some f =>
        if negb (bool_decide (is_Some (contentWindow f))) then z
        else
          match msgHeight msg with
          | None => z
          | Some height =>
            if height <=? 0 then z
            else
              {| frameHeight := <[i := height]> (frameHeight z);
                 sectionHeight := match sections f with
                                  | [] => sectionHeight z
                                  | section :: _ => <[section := height]> (sectionHeight z)
                                  end;
                 layouts := S (layouts z) |}
          end
      end
    end.

End Deck.

(** * Properties *)

(** ** The activation-gated viewer *)

Section GatedProperties.
Import Gated.

(** The messages a handler run sent: what [sent] gained. *)
Definition emitted (before after : Viewer) : list MidiMsg :=
  drop (length (sent before)) (sent after).

(** Control Change 123 with value 0 on channel 0. *)
Definition allNotesOff : MidiMsg := [0xb0; 123; 0].

(** What one call of [sendAllNotesOff()] puts on the wire. *)
Definition allNotesOffBurst (s : Viewer) : list MidiMsg :=
  match midiOut s with
  | Some _ => [allNotesOff]
  | None => []
  end.

Definition stepCount (s : Viewer) : Z := Z.of_nat (length (harmonicSteps s)).

(** Only the overlay is written by [updateAnalysisOverlay]. *)
Lemma updateAnalysisOverlay_frame k s :
  updateAnalysisOverlay k s = set_overlay (overlay (updateAnalysisOverlay k s)) s.
Proof.
  unfold updateAnalysisOverlay.
  repeat case_match; destruct s; reflexivity.
Qed.

Lemma applySvgHighlight_frame k s :
  applySvgHighlight k s = set_highlighted (highlighted (applySvgHighlight k s)) s.
Proof. unfold applySvgHighlight. case_match; destruct s; reflexivity. Qed.

Lemma sendAllNotesOff_sent ch s :
  sendAllNotesOff ch s =
  match midiOut s with
  | None => s
  | Some _ => set_sent (sent s ++ [[Z.lor 0xb0 (Z.land ch 0x0f); 123; 0]]) s
  end.
Proof. unfold sendAllNotesOff, sendCC. destruct (midiOut s); reflexivity. Qed.

(** The highlight and overlay a step selection leaves behind. *)
Definition highlightOf (c : Z) (s : Viewer) : list string :=
  highlighted (applySvgHighlight c s).

Definition overlayOf (c : Z) (s : Viewer) : Overlay :=
  overlay (updateAnalysisOverlay c s).

(** The shape of a step selection: the clamped index is stored, highlight
    and overlay are rewritten, then notes or an all-notes-off go out and the
    height is reported. *)
Lemma highlightStep_shape n s :
  let c := clampInt n 0 (stepCount s) in
  let s3 := set_overlay (overlayOf c s)
              (set_highlighted (highlightOf c s) (set_highlightedStep c s)) in
  highlightStep n s =
    notifyParentOfHeight
      (if isActiveViewer s && (0 <? c)
       then sendStepNotesAsMidi c s3 else sendAllNotesOff 0 s3).
Proof.
  cbn zeta. unfold highlightStep, stepCount, highlightOf, overlayOf.
  set (c := clampInt n 0 _).
  change (highlightedStep (set_highlightedStep c s)) with c.
  rewrite (applySvgHighlight_frame c (set_highlightedStep c s)).
  set (h := highlighted (applySvgHighlight c (set_highlightedStep c s))).
  change (highlightedStep (set_highlighted h (set_highlightedStep c s))) with c.
  rewrite (updateAnalysisOverlay_frame c (set_highlighted h (set_highlightedStep c s))).
  set (o := overlay (updateAnalysisOverlay c _)).
  assert (Hh : h = highlighted (applySvgHighlight c s)).
  { subst h. unfold applySvgHighlight. destruct s; cbn. case_match; reflexivity. }
  assert (Ho : o = overlay (updateAnalysisOverlay c s)).
  { subst o. rewrite Hh. unfold updateAnalysisOverlay, stepRects.
    destruct s; cbn. repeat case_match; try reflexivity; congruence. }
  rewrite <- Hh, <- Ho. reflexivity.
Qed.

Lemma foldl_send (f : Z -> MidiMsg) ps s :
  foldl (fun s p => send (f p) s) s ps = set_sent (sent s ++ map f ps) s.
Proof.
  revert s. induction ps as [|p ps IH]; intros s; cbn.
  - rewrite app_nil_r. destruct s; reflexivity.
  - rewrite IH. unfold send. cbn. rewrite <- app_assoc. reflexivity.
Qed.

Definition noteOn (p : Z) : MidiMsg := [0x90; clampInt (Int p) 0 127; 100].

Lemma sendStepNotesAsMidi_sent k s :
  sendStepNotesAsMidi k s =
  match midiOut s with
  | None => s
  | Some _ =>
    set_timers (timers s ++ [0])
      (set_sent (sent s ++ map noteOn (default [] (at1 (stepPitches s) k))) s)
  end.
Proof.
  unfold sendStepNotesAsMidi. destruct (midiOut s); [|reflexivity].
  cbn zeta. rewrite (foldl_send noteOn). reflexivity.
Qed.

(** Every way out of [highlightStep], spelled out. *)
Ltac unfold_selection :=
  unfold selectStep; rewrite highlightStep_shape; cbn zeta;
  unfold notifyParentOfHeight;
  rewrite ?sendStepNotesAsMidi_sent, ?sendAllNotesOff_sent.

Lemma clampInt_cases n lo hi :
  lo <= hi ->
  clampInt (Int n) lo hi = (if n <? lo then lo else if hi <? n then hi else n).
Proof. intros. unfold clampInt. repeat case_match; lia. Qed.

(** C5. Step-index clamping: for every integer [n], [selectStep n] stores
    [n] clamped into [0, stepCount]: 0 when [n < 0], [stepCount] when
    [n > stepCount], [n] itself otherwise; the step count is not touched. *)
Theorem selectStep_clamps (n : Z) (s : Viewer) :
  highlightedStep (selectStep n s) =
    (if n <? 0 then 0 else if stepCount s <? n then stepCount s else n)
  /\ stepCount (selectStep n s) = stepCount s.
Proof.
  rewrite <- clampInt_cases by (unfold stepCount; lia).
  unfold_selection. unfold stepCount.
  destruct (isActiveViewer s && _), (IS_EMBEDDED _) eqn:E;
    cbn in *; destruct (midiOut s); cbn in *; rewrite ?E; cbn; split; reflexivity.
Qed.

(** *** Example viewers *)

Definition demoLayout : Layout :=
  {| rectOf := fun id =>
       if String.eqb id "n1" then
         Some {| rLeft := 10; rRight := 20; rTop := 40; rBottom := 50 |}
       else if String.eqb id "n2" then
         Some {| rLeft := 30; rRight := 40; rTop := 30; rBottom := 40 |}
       else if String.eqb id "n3" then
         Some {| rLeft := 30; rRight := 40; rTop := 50; rBottom := 60 |}
       else None;
     viewerRect := {| rLeft := 0; rRight := 800; rTop := 0; rBottom := 300 |};
     offsetHeight := 300 |}.

Definition demoPort : Port := {| portName := "IAC Browser->Max"; portId := 1 |}.

(** A viewer with two steps, [n1] alone and the chord [n2], [n3], nothing
    highlighted and nothing sent yet. *)
Definition demoViewer (embedded active : bool) (out : option Port) : Viewer :=
  {| IS_EMBEDDED := embedded;
     harmonicSteps := [["n1"%string]; ["n2"%string; "n3"%string]];
     stepPitches := [[60]; [62; 65]];
     analysis := Some [ {| stufe := "I"; func := "T" |}; {| stufe := "V"; func := "D" |} ];
     globalAnalysisBaselineY := Some 70%Q;
     layout := demoLayout;
     midiOut := out;
     highlightedStep := 0;
     isActiveViewer := active;
     currentSlideIndex := 0;
     highlighted := [];
     overlay := {| ovHidden := true; ovStufe := ""; ovFunction := "";
                   ovLeft := 0%Q; ovTop := 0%Q |};
     sent := [];
     timers := [];
     posted := [] |}.

(** *** Note-output gating *)

Lemma emitted_app s s' l : sent s' = sent s ++ l -> emitted s s' = l.
Proof. intros E. unfold emitted. rewrite E. apply drop_app_length. Qed.

Lemma emitted_refl s : emitted s s = [].
Proof. apply emitted_app. symmetry. apply app_nil_r. Qed.

Lemma allNotesOffBurst_no_note_on s :
  Forall (fun m => isNoteOn m = false) (allNotesOffBurst s).
Proof. unfold allNotesOffBurst. destruct (midiOut s); repeat constructor. Qed.

(** While [isActiveViewer] is false a step selection sends exactly what
    [sendAllNotesOff()] sends, and arms no timer. *)
Lemma inactive_highlightStep_sent n s :
  isActiveViewer s = false ->
  sent (highlightStep n s) = sent s ++ allNotesOffBurst s
  /\ timers (highlightStep n s) = timers s.
Proof.
  intros Hin. rewrite highlightStep_shape. cbn zeta. rewrite Hin. cbn [andb].
  unfold notifyParentOfHeight, allNotesOffBurst. rewrite sendAllNotesOff_sent.
  destruct (IS_EMBEDDED _) eqn:E; cbn in *; destruct (midiOut s); cbn in *;
    rewrite ?E, ?app_nil_r; split; reflexivity.
Qed.

(** C2. Note-output gating: with [isActiveViewer = false], [selectStep k]
    for [k > 0] sends no Note-On; what it sends is the all-notes-off of
    [sendAllNotesOff()] (Control Change 123, value 0, when an output is
    bound) and no note timer is armed.  The same holds for any raw
    controller message handled while inactive, and for every index. *)
Theorem inactive_selectStep_sends_all_notes_off (k : Z) (s : Viewer) :
  0 < k ->
  isActiveViewer s = false ->
  emitted s (selectStep k s) = allNotesOffBurst s
  /\ Forall (fun m => isNoteOn m = false) (emitted s (selectStep k s))
  /\ timers (selectStep k s) = timers s
  /\ (forall data,
        Forall (fun m => isNoteOn m = false) (emitted s (handleMidiMessage data s)))
  /\ (forall n, Forall (fun m => isNoteOn m = false) (emitted s (selectStep n s))).
Proof.
  intros _ Hin.
  assert (Hany : forall n, emitted s (highlightStep n s) = allNotesOffBurst s).
  { intros n. apply emitted_app, inactive_highlightStep_sent, Hin. }
  unfold selectStep. repeat split.
  - apply Hany.
  - rewrite Hany. apply allNotesOffBurst_no_note_on.
  - apply inactive_highlightStep_sent, Hin.
  - intros data. unfold handleMidiMessage. rewrite Hin. cbn [negb andb].
    destruct (IS_EMBEDDED s); [rewrite emitted_refl; constructor|].
    repeat case_match; rewrite ?emitted_refl, ?Hany;
      auto using allNotesOffBurst_no_note_on.
  - intros n. rewrite Hany. apply allNotesOffBurst_no_note_on.
Qed.

Lemma inactive_selectStep_sends_all_notes_off_witness :
  0 < 1 /\ isActiveViewer (demoViewer true false (Some demoPort)) = false
  /\ emitted (demoViewer true false (Some demoPort))
             (selectStep 1 (demoViewer true false (Some demoPort))) = [allNotesOff].
Proof.
  split; [lia|]. split; [reflexivity|].
  exact (proj1 (inactive_selectStep_sends_all_notes_off
                  1 (demoViewer true false (Some demoPort)) eq_refl eq_refl)).
Defined.

(** *** Deactivation *)

(** C7, as the code has it.  Deactivating twice leaves every variable of
    the viewer as one deactivation leaves it ([isActiveViewer] false, all
    else untouched), but the handler does not look at the previous state:
    each call runs [sendAllNotesOff()], so with a bound output the second
    call sends a second Control Change 123. *)
Theorem deactivate_twice (s : Viewer) :
  isActiveViewer (deactivate s) = false
  /\ sent (deactivate s) = sent s ++ allNotesOffBurst s
  /\ deactivate (deactivate s) =
       set_sent (sent s ++ allNotesOffBurst s ++ allNotesOffBurst s) (deactivate s).
Proof.
  unfold deactivate, onMessage, allNotesOffBurst. rewrite !sendAllNotesOff_sent.
  destruct s as [? ? ? ? ? ? [p|] ? ? ? ? ? ? ? ?]; cbn;
    rewrite <- ?app_assoc, ?app_nil_r; repeat split; reflexivity.
Qed.

(** C7 as stated fails: an active viewer with a bound output sends two
    all-notes-off messages over two deactivations, and the second call is
    not a no-op. *)
Lemma deactivate_twice_sends_twice :
  emitted (demoViewer true true (Some demoPort))
          (deactivate (deactivate (demoViewer true true (Some demoPort))))
    = [allNotesOff; allNotesOff]
  /\ deactivate (deactivate (demoViewer true true (Some demoPort)))
     <> deactivate (demoViewer true true (Some demoPort)).
Proof.
  split; [reflexivity|].
  intros E. apply (f_equal (fun v => length (sent v))) in E. cbv in E. discriminate.
Qed.

(** *** Controller input while inactive *)

(** C9, as the code has it.  An embedded viewer that is not active returns
    from [handleMidiMessage] at once: whatever the message, nothing of the
    viewer changes.  A step selected directly while inactive is highlighted
    and annotated locally, with no Note-On. *)
Theorem inactive_embedded_ignores_midi (data : MidiMsg) (s : Viewer) :
  IS_EMBEDDED s = true ->
  isActiveViewer s = false ->
  handleMidiMessage data s = s
  /\ (forall k,
        let c := clampInt (Int k) 0 (stepCount s) in
        highlightedStep (selectStep k s) = c
        /\ highlighted (selectStep k s) = highlightOf c s
        /\ overlay (selectStep k s) = overlayOf c s
        /\ Forall (fun m => isNoteOn m = false) (emitted s (selectStep k s))).
Proof.
  intros Hemb Hin. split.
  - unfold handleMidiMessage. rewrite Hemb, Hin. reflexivity.
  - intros k c. subst c.
    split; [|split; [|split]].
    4: { unfold selectStep.
         rewrite (emitted_app _ _ _ (proj1 (inactive_highlightStep_sent _ _ Hin))).
         apply allNotesOffBurst_no_note_on. }
    all: unfold_selection; rewrite Hin; cbn [andb];
      destruct s as [? ? ? ? ? ? [p|] ? ? ? ? ? ? ? ?]; cbn in Hemb; subst;
      reflexivity.
Qed.

Lemma inactive_embedded_ignores_midi_witness :
  IS_EMBEDDED (demoViewer true false (Some demoPort)) = true
  /\ isActiveViewer (demoViewer true false (Some demoPort)) = false
  /\ handleMidiMessage [0xb0; 22; 2] (demoViewer true false (Some demoPort))
     = demoViewer true false (Some demoPort).
Proof.
  split; [reflexivity|]. split; [reflexivity|].
  exact (proj1 (inactive_embedded_ignores_midi
                  [0xb0; 22; 2] (demoViewer true false (Some demoPort)) eq_refl eq_refl)).
Defined.

(** C9 as stated fails: an embedded, inactive viewer that receives
    Control Change 22 with value 1 keeps step 0, an empty highlight and a
    hidden overlay, where selecting step 1 would highlight [n1] and show the
    overlay. *)
Lemma inactive_embedded_step_select_ignored :
  let s := demoViewer true false (Some demoPort) in
  let s' := handleMidiMessage [0xb0; 22; 1] s in
  highlightedStep s' = 0 /\ highlighted s' = [] /\ ovHidden (overlay s') = true
  /\ highlightedStep (selectStep 1 s) = 1
  /\ highlighted (selectStep 1 s) = ["n1"%string]
  /\ ovHidden (overlay (selectStep 1 s)) = false.
Proof. cbv zeta. repeat split; reflexivity. Qed.

(** A step selection, a step-count or slide-index emission and a height
    report never touch the activation flag. *)
Lemma highlightStep_isActiveViewer n s :
  isActiveViewer (highlightStep n s) = isActiveViewer s.
Proof.
  rewrite highlightStep_shape. cbn zeta. unfold notifyParentOfHeight.
  rewrite sendStepNotesAsMidi_sent, sendAllNotesOff_sent.
  destruct s as [? ? ? ? ? ? [p|] ? ? ? ? ? ? ? ?];
    cbn [midiOut set_overlay set_highlighted set_highlightedStep];
    repeat case_match; reflexivity.
Qed.

Lemma onMessage_isActiveViewer msg s :
  isActiveViewer (onMessage msg s) =
  match msg with
  | HarmonyActivate _ => true
  | HarmonyDeactivate => false
  | _ => isActiveViewer s
  end.
Proof.
  destruct msg as [slideIndex| | |]; cbn [onMessage].
  - unfold notifyParentOfHeight. case_match; cbn [isActiveViewer set_posted];
      rewrite highlightStep_isActiveViewer;
      unfold sendSlideIndexCc, sendStepCountCc, sendCC;
      repeat case_match; reflexivity.
  - rewrite sendAllNotesOff_sent. repeat case_match; reflexivity.
  - unfold sendStepCountCc, sendCC. repeat case_match; reflexivity.
  - reflexivity.
Qed.

(** *** MIDI ports *)

Lemma find_elem_of {A} (pred : A -> bool) (l : list A) (x : A) :
  find pred l = Some x -> x ∈ l.
Proof.
  unfold find. intros E. apply head_Some_elem_of in E.
  apply list_elem_of_filter in E. tauto.
Qed.

Lemma pickMidiPort_None ports hint : pickMidiPort ports hint = None <-> ports = [].
Proof.
  unfold pickMidiPort. destruct ports as [|p ports]; [tauto|].
  split; [|discriminate].
  repeat case_match; discriminate.
Qed.

Lemma pickMidiPort_elem_of ports hint p : pickMidiPort ports hint = Some p -> p ∈ ports.
Proof.
  unfold pickMidiPort. destruct ports as [|q ports]; [discriminate|].
  cbn zeta. intros E.
  destruct (find _ (q :: ports)) eqn:H1 in E.
  { simplify_eq. eauto using find_elem_of. }
  destruct (if _ || _ then _ else _) eqn:H2 in E.
  - simplify_eq. destruct (_ || _) in H2; [eauto using find_elem_of|discriminate].
  - simplify_eq. apply list_elem_of_here.
Qed.

(** The name test of the first rule of [pickMidiPort]. *)
Definition nameMatches (hint : string) (p : Port) : bool :=
  includes (normalizePortName (portName p)) (normalizePortName hint).

(** The test of the second rule of [pickMidiPort]: the hint names
    "browser" or "max", and the port's name holds every keyword the hint
    names. *)
Definition keywordMatches (hint : string) (p : Port) : bool :=
  let hintNorm := normalizePortName hint in
  let wantsBrowser := includes hintNorm (bytes "browser") in
  let wantsMax := includes hintNorm (bytes "max") in
  (wantsBrowser || wantsMax)
  && (negb wantsBrowser || includes (normalizePortName (portName p)) (bytes "browser"))
  && (negb wantsMax || includes (normalizePortName (portName p)) (bytes "max")).

(** [p] is the first element of [l] that passes [test]. *)
Definition firstWith {A} (test : A -> bool) (l : list A) (p : A) : Prop :=
  exists before after,
    l = before ++ p :: after /\ test p = true /\ Forall (fun q => test q = false) before.

Lemma find_firstWith {A} (test : A -> bool) (l : list A) :
  match find test l with
  | Some p => firstWith test l p
  | None => Forall (fun q => test q = false) l
  end.
Proof.
  unfold find. induction l as [|a l IH]; [constructor|].
  rewrite filter_cons. cbn beta. destruct (test a) eqn:Ha.
  - rewrite decide_True by exact I. cbn [head].
    exists [], l. split; [reflexivity|]. split; [exact Ha|constructor].
  - rewrite decide_False by exact id.
    destruct (head (filter (fun x => test x) l)) as [p|].
    + destruct IH as (before & after & -> & Hp & Hb).
      exists (a :: before), after. split; [reflexivity|]. split; [exact Hp|].
      constructor; assumption.
    + constructor; assumption.
Qed.

Lemma firstWith_unique {A} (test : A -> bool) (l : list A) (p q : A) :
  firstWith test l p -> firstWith test l q -> p = q.
Proof.
  intros (b1 & a1 & E1 & Hp & H1) (b2 & a2 & E2 & Hq & H2). subst l.
  revert b2 E2 H2. induction b1 as [|x b1 IH]; intros [|y b2] E2 H2; cbn in E2.
  - congruence.
  - injection E2 as -> _. apply Forall_cons in H2 as [H2 _]. congruence.
  - injection E2 as <- _. apply Forall_cons in H1 as [H1 _]. congruence.
  - injection E2 as _ E2. apply Forall_cons in H1 as [_ H1].
    apply Forall_cons in H2 as [_ H2]. exact (IH H1 _ E2 H2).
Qed.

Lemma keywordMatches_find hint ports :
  (if includes (normalizePortName hint) (bytes "browser")
      || includes (normalizePortName hint) (bytes "max")
   then find (fun x =>
                (negb (includes (normalizePortName hint) (bytes "browser"))
                 || includes (normalizePortName (portName x)) (bytes "browser"))
                && (negb (includes (normalizePortName hint) (bytes "max"))
                    || includes (normalizePortName (portName x)) (bytes "max"))) ports
   else None)
  = find (keywordMatches hint) ports.
Proof.
  unfold keywordMatches, find. cbn zeta.
  destruct (includes (normalizePortName hint) (bytes "browser")
            || includes (normalizePortName hint) (bytes "max")).
  - reflexivity.
  - induction ports as [|a ports IH]; [reflexivity|].
    rewrite filter_cons. rewrite decide_False by (cbn; exact id). exact IH.
Qed.

(** How [pickMidiPort] chooses, rule by rule. *)
Lemma pickMidiPort_rules ports hint :
  pickMidiPort ports hint =
  match find (nameMatches hint) ports with
  | Some p => Some p
  | None =>
    match find (keywordMatches hint) ports with
    | Some p => Some p
    | None => head ports
    end
  end.
Proof.
  unfold pickMidiPort. destruct ports as [|first ports]; [reflexivity|].
  cbn zeta. fold (nameMatches hint).
  change (fun x => includes (normalizePortName (portName x)) (normalizePortName hint))
    with (nameMatches hint).
  destruct (find (nameMatches hint) (first :: ports)); [reflexivity|].
  rewrite keywordMatches_find.
  destruct (find (keywordMatches hint) (first :: ports)); reflexivity.
Qed.

(** C8, as the code has it.  [pickMidiPort] binds the first port whose
    normalized name contains the normalized hint; failing that, when the hint
    names "browser" or "max", the first port whose name holds the keywords of
    the hint; failing that, the first available port.  The binding stays
    unbound only when there is no port at all.  With an unbound output every
    emission ([sendCC], step count, slide index, all-notes-off, step notes)
    returns without any effect, and a step selection stores the index,
    highlights and annotates as usual while sending nothing. *)
Theorem unbound_output_is_silent (s : Viewer) :
  midiOut s = None ->
  (forall ports hint, pickMidiPort ports hint = None <-> ports = [])
  /\ (forall ports hint p, pickMidiPort ports hint = Some p -> p ∈ ports)
  /\ (forall ports hint p,
        firstWith (nameMatches hint) ports p -> pickMidiPort ports hint = Some p)
  /\ (forall ports hint p,
        Forall (fun q => nameMatches hint q = false) ports ->
        firstWith (keywordMatches hint) ports p -> pickMidiPort ports hint = Some p)
  /\ (forall ports hint,
        Forall (fun q => nameMatches hint q = false) ports ->
        Forall (fun q => keywordMatches hint q = false) ports ->
        pickMidiPort ports hint = head ports)
  /\ (forall cc v ch, sendCC cc v ch s = s)
  /\ sendStepCountCc s = s
  /\ (forall i, sendSlideIndexCc i s = s)
  /\ (forall ch, sendAllNotesOff ch s = s)
  /\ (forall k, sendStepNotesAsMidi k s = s)
  /\ (forall n,
        let c := clampInt (Int n) 0 (stepCount s) in
        sent (selectStep n s) = sent s
        /\ timers (selectStep n s) = timers s
        /\ highlightedStep (selectStep n s) = c
        /\ highlighted (selectStep n s) = highlightOf c s
        /\ overlay (selectStep n s) = overlayOf c s)
  /\ (forall b, Baseline.midiOut b = None ->
        Baseline.sendStepCount b = b /\ forall i, Baseline.sendSlideIndex i b = b).
Proof.
  intros Hout.
  assert (Hcc : forall cc v ch, sendCC cc v ch s = s).
  { intros. unfold sendCC. rewrite Hout. reflexivity. }
  assert (Hnone : forall {A} (test : A -> bool) l p,
             Forall (fun q => test q = false) l -> firstWith test l p -> False).
  { intros A test l p Hall (before & after & -> & Hp & _).
    apply Forall_app in Hall as [_ Hall]. apply Forall_cons in Hall as [Hq _]. congruence. }
  split; [apply pickMidiPort_None|].
  split; [apply pickMidiPort_elem_of|].
  split.
  { intros ports hint p Hp. rewrite pickMidiPort_rules.
    pose proof (find_firstWith (nameMatches hint) ports) as H.
    destruct (find (nameMatches hint) ports) as [q|].
    - f_equal. exact (firstWith_unique _ _ _ _ H Hp).
    - exfalso. exact (Hnone _ _ _ _ H Hp). }
  split.
  { intros ports hint p Hno Hp. rewrite pickMidiPort_rules.
    pose proof (find_firstWith (nameMatches hint) ports) as H1.
    destruct (find (nameMatches hint) ports) as [q|].
    { exfalso. exact (Hnone _ _ _ _ Hno H1). }
    pose proof (find_firstWith (keywordMatches hint) ports) as H2.
    destruct (find (keywordMatches hint) ports) as [q|].
    - f_equal. exact (firstWith_unique _ _ _ _ H2 Hp).
    - exfalso. exact (Hnone _ _ _ _ H2 Hp). }
  split.
  { intros ports hint Hno1 Hno2. rewrite pickMidiPort_rules.
    pose proof (find_firstWith (nameMatches hint) ports) as H1.
    destruct (find (nameMatches hint) ports) as [q|].
    { exfalso. exact (Hnone _ _ _ _ Hno1 H1). }
    pose proof (find_firstWith (keywordMatches hint) ports) as H2.
    destruct (find (keywordMatches hint) ports) as [q|]; [|reflexivity].
    exfalso. exact (Hnone _ _ _ _ Hno2 H2). }
  split; [exact Hcc|].
  split; [unfold sendStepCountCc; rewrite Hcc; destruct (negb _); reflexivity|].
  split; [intros; unfold sendSlideIndexCc; rewrite Hcc; destruct (negb _); reflexivity|].
  split; [intros; unfold sendAllNotesOff; rewrite Hout; reflexivity|].
  split; [intros; unfold sendStepNotesAsMidi; rewrite Hout; reflexivity|].
  split.
  - intros n c. subst c. unfold_selection.
    destruct s as [? ? ? ? ? ? [p|] ? ? ? ? ? ? ? ?]; cbn in Hout; [discriminate|].
    cbn [midiOut set_overlay set_highlighted set_highlightedStep].
    repeat case_match; repeat split; reflexivity.
  - intros b Hb. unfold Baseline.sendStepCount, Baseline.sendSlideIndex.
    rewrite Hb. split; reflexivity.
Qed.

Lemma unbound_output_is_silent_witness :
  midiOut (demoViewer true true None) = None
  /\ sendAllNotesOff 0 (demoViewer true true None) = demoViewer true true None
  /\ sent (selectStep 2 (demoViewer true true None)) = []
  /\ highlighted (selectStep 2 (demoViewer true true None)) = ["n2"%string; "n3"%string]
  /\ pickMidiPort [ {| portName := "USB Keyboard"; portId := 1 |};
                    {| portName := "IAC Driver Bus 1"; portId := 2 |} ] "Browser->Max"
     = Some {| portName := "USB Keyboard"; portId := 1 |}.
Proof.
  split; [reflexivity|].
  pose proof (unbound_output_is_silent (demoViewer true true None) eq_refl) as H.
  destruct H as (_ & _ & _ & _ & Hfirst & _ & _ & _ & Hoff & _ & Hsel & _).
  split; [apply Hoff|]. split; [apply (Hsel 2)|]. split; [apply (Hsel 2)|].
  apply Hfirst; repeat constructor.
Defined.

(** C8 as stated fails: the only available port is named
    "IAC Driver Bus 1", its normalized name does not contain the normalized
    hint "browser->max", and [pickMidiPort] binds it all the same. *)
Lemma pickMidiPort_binds_unmatched_port :
  let port := {| portName := "IAC Driver Bus 1"; portId := 7 |} in
  nameMatches "browser->max" port = false
  /\ includes (normalizePortName (portName port)) (bytes "browser") = false
  /\ includes (normalizePortName (portName port)) (bytes "max") = false
  /\ pickMidiPort [port] "browser->max" = Some port
  /\ midiOut (bindMidiOut [port] "browser->max" (demoViewer true false None)) <> None.
Proof. cbv zeta. do 4 (split; [reflexivity|]). discriminate. Qed.

(** *** Pitch resolution *)

Lemma uniqFrom_spec seen l :
  NoDup (uniqFrom seen l)
  /\ forall x, x ∈ uniqFrom seen l <-> x ∈ l /\ x ∉ seen.
Proof.
  revert seen. induction l as [|a l IH]; intros seen; cbn.
  - split; [constructor|]. intros x. rewrite elem_of_nil. tauto.
  - destruct (decide (a ∈ seen)) as [Hin|Hout].
    + destruct (IH seen) as [Hnd Hmem]. split; [exact Hnd|].
      intros x. rewrite Hmem, elem_of_cons. split; [tauto|].
      intros [[->|Hx] Hs]; tauto.
    + destruct (IH (a :: seen)) as [Hnd Hmem]. split.
      * constructor; [|exact Hnd]. rewrite Hmem, elem_of_cons. tauto.
      * intros x. rewrite !elem_of_cons, Hmem, elem_of_cons.
        destruct (decide (x = a)) as [->|Hne]; tauto.
Qed.

Lemma uniq_spec l : NoDup (uniq l) /\ forall x, x ∈ uniq l <-> x ∈ l.
Proof.
  destruct (uniqFrom_spec [] l) as [Hnd Hmem]. split; [exact Hnd|].
  intros x. unfold uniq. rewrite Hmem, elem_of_nil. tauto.
Qed.

Lemma ascending_nodup_strict (l : list Z) :
  StronglySorted Z.le l -> NoDup l -> StronglySorted Z.lt l.
Proof.
  induction 1 as [|x l Hs IH Hall]; intros Hnd; [constructor|].
  apply NoDup_cons in Hnd as [Hx Hnd]. constructor; [auto|].
  rewrite Forall_forall in *. intros y Hy.
  assert (x <> y) by (intros ->; auto). specialize (Hall y Hy). lia.
Qed.

Lemma sortAscending_spec l :
  NoDup l ->
  StronglySorted Z.lt (sortAscending l) /\ forall x, x ∈ sortAscending l <-> x ∈ l.
Proof.
  intros Hnd. unfold sortAscending. split.
  - apply ascending_nodup_strict.
    + apply StronglySorted_merge_sort; apply _.
    + rewrite merge_sort_Permutation. exact Hnd.
  - intros x. rewrite merge_sort_Permutation. reflexivity.
Qed.

(** The fixed pitch-class table. *)
Definition pitchClassTable : list (string * Z) :=
  [("C", 0); ("D", 2); ("E", 4); ("F", 5); ("G", 7); ("A", 9); ("B", 11)]%string.

(** A letter as [pnameToSemitone] compares it. *)
Definition lowered (v : option string) : list N := toLowerCase (bytes (String_ v)).

Lemma pnameToSemitone_table pname pc :
  pnameToSemitone pname = Some pc <->
  exists letter, (letter, pc) ∈ pitchClassTable /\ lowered pname = lowered (Some letter).
Proof.
  unfold pnameToSemitone. fold (lowered pname). split.
  - intros E. repeat case_decide; simplify_eq;
      [exists "C"%string|exists "D"%string|exists "E"%string|exists "F"%string
      |exists "G"%string|exists "A"%string|exists "B"%string];
      (split; [unfold pitchClassTable; set_solver|assumption]).
  - intros (letter & Hin & E). rewrite E.
    unfold pitchClassTable in Hin.
    repeat (apply elem_of_cons in Hin as [Hin|Hin]; [simplify_eq; reflexivity|]).
    apply elem_of_nil in Hin. contradiction.
Qed.

(** [pname] names the table's letter with pitch class [pc], in either
    case. *)
Definition inTable (pname : option string) (pc : Z) : Prop :=
  exists letter, (letter, pc) ∈ pitchClassTable /\ lowered pname = lowered (Some letter).

(** The octaves 0 to 9 as MEI writes them: one decimal digit. *)
Definition octaveText (o : Z) : string :=
  String (ascii_of_N (48 + Z.to_N o)) EmptyString.

(** A toolkit that knows one note, with the given attributes. *)
Definition oneNote (pname oct : option string) : Toolkit :=
  fun noteId =>
    if String.eqb noteId "n1"
    then Attr {| pname := pname; oct := oct; pitch := None |}
    else Throws.

(** Octave attributes in spellings that [Number] reads, next to what it
    makes of them. *)
Definition octaveSpellings : list (string * option num) :=
  [ ("4", Some (Int 4)); (" 4", Some (Int 4)); ("4.0", Some (Int 4));
    ("1e1", Some (Int 10)); ("0x4", Some (Int 4)); ("+4", Some (Int 4));
    ("-1", Some (Int (-1))); ("04", Some (Int 4)); ("", Some (Int 0));
    ("four", Some NonFinite); ("4th", Some NonFinite); ("4 5", Some NonFinite);
    ("Infinity", Some NonFinite); ("-", Some NonFinite); ("0x", Some NonFinite);
    ("4.5", None); ("1e-1", None); ("1e400", None) ]%string.

(** Which of [attr.pname], [attr.pitch.pname] (and likewise for the
    octave) is read: the top-level attribute when it is a non-empty string,
    else the one of the nested [pitch] object.  Each record stands next to
    the pitches it resolves to. *)
Definition attributeChoices : list (NoteAttr * list Z) :=
  [ ({| pname := Some "c"; oct := Some "4"; pitch := Some (Some "d", Some "5") |}, [60]);
    ({| pname := None; oct := None; pitch := Some (Some "d", Some "5") |}, [74]);
    ({| pname := Some ""; oct := Some "4"; pitch := Some (Some "e", None) |}, [64]);
    ({| pname := Some "c"; oct := Some ""; pitch := Some (None, Some "5") |}, [72]);
    ({| pname := Some "c"; oct := None; pitch := Some (None, None) |}, []);
    ({| pname := None; oct := Some "4"; pitch := None |}, []);
    ({| pname := Some "h"; oct := Some "4"; pitch := None |}, []) ]%string.

Lemma pushAll_spec found :
  match pushAll found with
  | Some pitches => (forall p, p ∈ pitches <-> Pitch p ∈ found) /\ Unmodelled ∉ found
  | None => Unmodelled ∈ found
  end.
Proof.
  induction found as [|r found IH]; cbn [pushAll].
  - split; [|apply not_elem_of_nil]. intros p. rewrite !elem_of_nil. tauto.
  - destruct r as [q| |], (pushAll found) as [pitches|];
      try (right; exact IH); try left.
    + destruct IH as [Hm Hu]. split.
      * intros p. rewrite !elem_of_cons, Hm. split; [intros [->|H]; auto|].
        intros [E|H]; [left; congruence|auto].
      * rewrite elem_of_cons. intros [E|H]; [discriminate|auto].
    + destruct IH as [Hm Hu]. split.
      * intros p. rewrite elem_of_cons, Hm. split; [auto|]. intros [E|H]; [discriminate|auto].
      * rewrite elem_of_cons. intros [E|H]; [discriminate|auto].
Qed.

(** The pitches of a step, read off the notes one by one. *)
Lemma resolvePitches_spec tk ids :
  match resolvePitches tk ids with
  | Some pitches =>
    StronglySorted Z.lt pitches
    /\ (forall p, p ∈ pitches <->
                  exists noteId, noteId ∈ ids /\ noteMidi tk noteId = Pitch p)
    /\ (forall noteId, noteId ∈ ids -> noteMidi tk noteId <> Unmodelled)
  | None => exists noteId, noteId ∈ ids /\ noteMidi tk noteId = Unmodelled
  end.
Proof.
  unfold resolvePitches. pose proof (pushAll_spec (map (noteMidi tk) ids)) as H.
  destruct (pushAll (map (noteMidi tk) ids)) as [pitches|]; cbn [option_map].
  - destruct H as [Hm Hu].
    destruct (uniq_spec pitches) as [Hnd Hmem].
    destruct (sortAscending_spec _ Hnd) as [Hsorted Hsame].
    split; [exact Hsorted|]. split.
    + intros p. rewrite Hsame, Hmem, Hm, list_elem_of_fmap.
      split; intros (noteId & H1 & H2); exists noteId; auto.
    + intros noteId Hin E. apply Hu. rewrite <- E.
      apply list_elem_of_fmap. exists noteId. auto.
  - apply list_elem_of_fmap in H as (noteId & E & Hin). eauto.
Qed.

Lemma midiFromPnameOct_cases pname oct :
  midiFromPnameOct pname oct =
  match pnameToSemitone pname, Number_ oct with
  | None, _ => Nothing
  | Some _, None => Unmodelled
  | Some _, Some NonFinite => Nothing
  | Some pc, Some (Int o) => Pitch ((o + 1) * 12 + pc)
  end.
Proof.
  unfold midiFromPnameOct.
  destruct (pnameToSemitone pname); [|reflexivity].
  destruct (Number_ oct) as [[o|]|]; reflexivity.
Qed.

Lemma inTable_semitone pname pc : inTable pname pc <-> pnameToSemitone pname = Some pc.
Proof. symmetry. apply pnameToSemitone_table. Qed.

Lemma noteMidi_Pitch tk noteId p :
  noteMidi tk noteId = Pitch p <->
  exists a pc o, tk noteId = Attr a /\ inTable (attrPname a) pc
                 /\ Number_ (attrOct a) = Some (Int o) /\ p = (o + 1) * 12 + pc.
Proof.
  unfold noteMidi. destruct (tk noteId) as [| |a].
  - split; [discriminate|]. intros (? & ? & ? & ? & _). discriminate.
  - split; [discriminate|]. intros (? & ? & ? & ? & _). discriminate.
  - rewrite midiFromPnameOct_cases. split.
    + destruct (pnameToSemitone (attrPname a)) as [pc|] eqn:Hpc; [|discriminate].
      destruct (Number_ (attrOct a)) as [[o|]|] eqn:Ho; try discriminate.
      intros [= <-]. exists a, pc, o. rewrite inTable_semitone. auto.
    + intros (a' & pc & o & [= <-] & Hpc & Ho & ->).
      apply inTable_semitone in Hpc. rewrite Hpc, Ho. reflexivity.
Qed.

(** C4, as the code has it.  The pitches of a step are strictly ascending
    (sorted, no duplicates) and are exactly the codes
    (octave + 1) * 12 + pitch class of its resolving notes, the pitch class
    from the table C:0 D:2 E:4 F:5 G:7 A:9 B:11 (letter in either case) and
    the octave what [Number] makes of the octave attribute; so C4 is 60 and
    B3 is 59.  A note is passed over exactly when the lookup throws or gives
    nothing, the pitch name is not in the table, or the octave is not a
    finite number.  Nothing else is checked: every finite octave counts, the
    empty octave attribute as octave 0.  A step may resolve to no pitch at
    all.  The result is not computed only when the octave attribute of some
    note with a pitch name from the table is a numeric literal whose value is
    not an integer of magnitude at most 2^40. *)
Theorem resolvePitches_sorted_unique (tk : Toolkit) (ids : list string) :
  match resolvePitches tk ids with
  | Some pitches =>
    StronglySorted Z.lt pitches
    /\ (forall p, p ∈ pitches <->
          exists noteId a pc o,
            noteId ∈ ids /\ tk noteId = Attr a
            /\ inTable (attrPname a) pc
            /\ Number_ (attrOct a) = Some (Int o)
            /\ p = (o + 1) * 12 + pc)
  | None =>
    exists noteId a pc,
      noteId ∈ ids /\ tk noteId = Attr a /\ inTable (attrPname a) pc
      /\ Number_ (attrOct a) = None
  end
  /\ (forall noteId,
        noteMidi tk noteId = Nothing <->
        tk noteId = Throws \/ tk noteId = NoAttr
        \/ exists a, tk noteId = Attr a
                     /\ ((forall pc, ~ inTable (attrPname a) pc)
                         \/ Number_ (attrOct a) = Some NonFinite))
  /\ (forall letter pc o,
        (letter, pc) ∈ pitchClassTable -> 0 <= o <= 9 ->
        resolvePitches (oneNote (Some letter) (Some (octaveText o))) ["n1"%string]
        = Some [(o + 1) * 12 + pc])
  /\ resolvePitches (oneNote (Some "c"%string) (Some "4"%string)) ["n1"%string] = Some [60]
  /\ resolvePitches (oneNote (Some "B"%string) (Some "3"%string)) ["n1"%string] = Some [59]
  /\ Number_ None = Some NonFinite
  /\ Forall (fun spelling => Number_ (Some (fst spelling)) = snd spelling) octaveSpellings
  /\ Forall (fun choice => resolvePitches (fun _ => Attr (fst choice)) ["n1"%string]
                           = Some (snd choice)) attributeChoices
  /\ resolvePitches (fun _ => Throws) ids = Some [].
Proof.
  split.
  { pose proof (resolvePitches_spec tk ids) as H.
    destruct (resolvePitches tk ids) as [pitches|].
    - destruct H as (Hs & Hm & _). split; [exact Hs|].
      intros p. rewrite Hm. split.
      + intros (noteId & Hin & E). apply noteMidi_Pitch in E as (a & pc & o & E).
        exists noteId, a, pc, o. tauto.
      + intros (noteId & a & pc & o & Hin & E). exists noteId. split; [exact Hin|].
        apply noteMidi_Pitch. exists a, pc, o. exact E.
    - destruct H as (noteId & Hin & E). unfold noteMidi in E.
      destruct (tk noteId) as [| |a] eqn:Ha; [discriminate|discriminate|].
      rewrite midiFromPnameOct_cases in E.
      destruct (pnameToSemitone (attrPname a)) as [pc|] eqn:Hpc; [|discriminate].
      destruct (Number_ (attrOct a)) as [[o|]|] eqn:Ho; try discriminate.
      exists noteId, a, pc. rewrite inTable_semitone. auto. }
  split.
  { intros noteId. unfold noteMidi. destruct (tk noteId) as [| |a].
    - split; auto.
    - split; [auto|]. intros _. reflexivity.
    - rewrite midiFromPnameOct_cases. split.
      + intros E. right. right. exists a. split; [reflexivity|].
        destruct (pnameToSemitone (attrPname a)) as [pc|] eqn:Hpc.
        * right. destruct (Number_ (attrOct a)) as [[o|]|]; [discriminate|reflexivity|discriminate].
        * left. intros pc Hin. apply inTable_semitone in Hin. congruence.
      + intros [E|[E|(a' & [= <-] & [Hno|Hoct])]]; [discriminate|discriminate| |].
        * destruct (pnameToSemitone (attrPname a)) as [pc|] eqn:Hpc; [|reflexivity].
          exfalso. apply (Hno pc). apply inTable_semitone, Hpc.
        * rewrite Hoct. destruct (pnameToSemitone (attrPname a)); reflexivity. }
  split.
  { intros letter pc o Hin Ho.
    assert (Hcases : o = 0 \/ o = 1 \/ o = 2 \/ o = 3 \/ o = 4 \/ o = 5 \/ o = 6
                     \/ o = 7 \/ o = 8 \/ o = 9) by lia.
    unfold pitchClassTable in Hin.
    repeat (apply elem_of_cons in Hin as [Hin|Hin];
            [injection Hin as -> ->;
             repeat (destruct Hcases as [->|Hcases]; [vm_compute; reflexivity|]);
             subst o; vm_compute; reflexivity|]).
    apply elem_of_nil in Hin. contradiction. }
  split; [vm_compute; reflexivity|]. split; [vm_compute; reflexivity|].
  split; [reflexivity|].
  split; [unfold octaveSpellings; repeat constructor|].
  split; [unfold attributeChoices; repeat constructor|].
  unfold resolvePitches. replace (pushAll _) with (Some (@nil Z)); [reflexivity|].
  clear. induction ids as [|a ids IH]; [reflexivity|]. cbn [map pushAll noteMidi].
  rewrite <- IH. reflexivity.
Qed.

(** C4 as stated fails: a note named c whose octave attribute is empty is
    not passed over, it resolves as octave 0 to the code 12; and no range is
    checked, so the octaves -3 and 12 give the codes -24 and 156. *)
Lemma empty_octave_is_resolved :
  attrOct {| pname := Some "c"%string; oct := Some ""%string; pitch := None |}
  = Some ""%string
  /\ resolvePitches (oneNote (Some "c"%string) (Some ""%string)) ["n1"%string] = Some [12]
  /\ resolvePitches (oneNote (Some "c"%string) (Some "-3"%string)) ["n1"%string] = Some [-24]
  /\ resolvePitches (oneNote (Some "c"%string) (Some "12"%string)) ["n1"%string] = Some [156].
Proof. repeat split; vm_compute; reflexivity. Qed.

(** *** MIDI input *)

Lemma handleMidiMessage_frame data s :
  Z.land (byteAt data 0) 0xf0 <> 0xb0 \/ Z.land (byteAt data 1) 0x7f <> 22 ->
  handleMidiMessage data s = s.
Proof.
  intros H. unfold handleMidiMessage.
  destruct (negb _ && _); [reflexivity|]. cbn zeta.
  destruct (Z.eqb_spec (Z.land (byteAt data 0) 0xf0) 0xb0); [|reflexivity].
  destruct (Z.eqb_spec (Z.land (byteAt data 1) 0x7f) 22); [|reflexivity].
  tauto.
Qed.

End GatedProperties.

(** ** Tree order *)

Section DomProperties.
Import Dom.

(** Induction on a node with the hypothesis for every child. *)
Lemma Node_children_ind (P : Node -> Prop) :
  (forall t c i cs, Forall P cs -> P (Element t c i cs)) ->
  forall n, P n.
Proof.
  intros step. fix IH 1. intros [t c i cs]. apply step.
  induction cs as [|child cs IHcs]; constructor; [apply IH|exact IHcs].
Qed.

(** Every node of a listing heads the listing of its own subtree: the
    subtree occupies the positions right after the node. *)
Lemma walk_subtree n0 :
  forall anc0 i anc n,
    walk anc0 n0 !! i = Some (anc, n) ->
    exists pre post,
      walk anc0 n0 = pre ++ walk anc n ++ post /\ length pre = i.
Proof.
  induction n0 as [t c id cs IH] using Node_children_ind.
  intros anc0 i anc n Hi.
  assert (Hcs : forall a j,
             flat_map (walk a) cs !! j = Some (anc, n) ->
             exists pre post,
               flat_map (walk a) cs = pre ++ walk anc n ++ post
               /\ length pre = j).
  { clear Hi. intros a.
    induction IH as [|child cs' Hchild _ IHcs]; intros j Hj; [discriminate|].
    cbn [flat_map] in *. apply lookup_app_Some in Hj as [Hj|[Hlen Hj]].
    - destruct (Hchild _ _ _ _ Hj) as (pre & post & E & Hpre).
      exists pre, (post ++ flat_map (walk a) cs').
      rewrite E, <- !app_assoc. auto.
    - destruct (IHcs _ Hj) as (pre & post & E & Hpre).
      exists (walk a child ++ pre), post.
      rewrite E, <- app_assoc, length_app. split; [reflexivity|lia]. }
  set (n0 := Element t c id cs) in *.
  change (walk anc0 n0) with ((anc0, n0) :: flat_map (walk (n0 :: anc0)) cs) in *.
  destruct i as [|i].
  - cbn in Hi. injection Hi as <- <-. exists [], []. rewrite app_nil_r. auto.
  - cbn in Hi. destruct (Hcs _ _ Hi) as (pre & post & E & Hpre).
    exists ((anc0, n0) :: pre), post. rewrite E. cbn. auto.
Qed.

Lemma lookup_middle_run {A} (pre mid post : list A) :
  map (fun i => (pre ++ mid ++ post) !! i) (seq (length pre) (length mid))
  = map Some mid.
Proof.
  revert pre. induction mid as [|x mid IH]; intros pre; [reflexivity|].
  cbn [length seq map]. f_equal.
  - apply list_lookup_middle. reflexivity.
  - specialize (IH (pre ++ [x])).
    rewrite length_app, Nat.add_1_r, <- app_assoc in IH. exact IH.
Qed.

(** The handles [descendants] returns denote, in order, the nodes below
    the element. *)
Lemma descendants_subtree root el anc n :
  treeOrder root !! el = Some (anc, n) ->
  map (fun i => treeOrder root !! i) (descendants (treeOrder root) el)
  = map Some (tail (walk anc n)).
Proof.
  intros Hel. unfold descendants. rewrite Hel.
  destruct (walk_subtree root [] el anc n Hel) as (pre & post & E & Hpre).
  fold (treeOrder root) in E. rewrite E. subst el.
  assert (Hw : exists rest, walk anc n = (anc, n) :: rest).
  { destruct n. cbn. eauto. }
  destruct Hw as [rest Hw]. rewrite Hw. cbn [length tail].
  replace (S (length rest) - 1)%nat with (length rest) by lia.
  pose proof (lookup_middle_run (pre ++ [(anc, n)]) rest post) as H.
  rewrite length_app, Nat.add_1_r, <- app_assoc in H. exact H.
Qed.

End DomProperties.

(** ** Chord-safe step extraction *)

Section ChordSafeProperties.
Import Dom ChordSafe.

(** The comparator orders handles by document position. *)
Lemma compareSteps_le a b : compareSteps a b <= 0 <-> (a <= b)%nat.
Proof.
  unfold compareSteps, following.
  destruct (Nat.eqb_spec a b), (Nat.ltb_spec a b); lia.
Qed.

Definition before (a b : Handle) : Prop := compareSteps a b <= 0.

#[local] Instance before_transitive : Transitive before.
Proof. intros a b c. unfold before. rewrite !compareSteps_le. lia. Qed.

#[local] Instance before_total : Total before.
Proof. intros a b. unfold before. rewrite !compareSteps_le. lia. Qed.

#[local] Instance before_antisymm : AntiSymm (=) before.
Proof. intros a b. unfold before. rewrite !compareSteps_le. lia. Qed.

Lemma seq_increasing start len : StronglySorted lt (seq start len).
Proof.
  revert start. induction len as [|len IH]; intros start; cbn; constructor; [apply IH|].
  apply Forall_forall. intros x Hx. apply elem_of_seq in Hx. lia.
Qed.

Lemma increasing_filter (P : Handle -> Prop) `{!forall x, Decision (P x)} l :
  StronglySorted lt l -> StronglySorted lt (filter P l).
Proof.
  induction 1 as [|x l Hs IH Hall]; [constructor|].
  rewrite filter_cons. case_decide; [|exact IH].
  constructor; [exact IH|]. apply Forall_forall. intros y Hy.
  apply list_elem_of_filter in Hy as [_ Hy].
  rewrite Forall_forall in Hall. auto.
Qed.

Lemma increasing_before l : StronglySorted lt l -> StronglySorted before l.
Proof.
  induction 1 as [|x l Hs IH Hall]; constructor; [exact IH|].
  eapply Forall_impl; [exact Hall|]. intros y Hy. apply compareSteps_le. lia.
Qed.

(** Two selections that exclude each other, concatenated, hold the same
    elements as the selection of their union. *)
Lemma filter_app_disjoint (P Q : Handle -> Prop)
      `{!forall x, Decision (P x)} `{!forall x, Decision (Q x)} l :
  (forall x, P x -> Q x -> False) ->
  filter P l ++ filter Q l ≡ₚ filter (fun x => P x \/ Q x) l.
Proof.
  intros Hdis. induction l as [|a l IH]; [reflexivity|].
  rewrite !filter_cons.
  destruct (decide (P a)) as [Hp|Hp], (decide (Q a)) as [Hq|Hq];
    try (exfalso; eauto; fail).
  - rewrite decide_True by tauto. cbn. rewrite IH. reflexivity.
  - rewrite decide_True by tauto. rewrite <- Permutation_middle, IH. reflexivity.
  - rewrite decide_False by tauto. exact IH.
Qed.

(** Sorting the concatenation with the document-position comparator gives
    the union in document order. *)
Lemma sortWith_merges (P Q : Handle -> Prop)
      `{!forall x, Decision (P x)} `{!forall x, Decision (Q x)} l :
  StronglySorted lt l ->
  (forall x, P x -> Q x -> False) ->
  sortWith compareSteps (filter P l ++ filter Q l) = filter (fun x => P x \/ Q x) l.
Proof.
  intros Hl Hdis. unfold sortWith.
  apply (StronglySorted_unique before).
  - apply (StronglySorted_merge_sort before).
  - apply increasing_before, increasing_filter, Hl.
  - rewrite (merge_sort_Permutation before). apply filter_app_disjoint, Hdis.
Qed.

Lemma foldl_push {A} (f : Handle -> list A) l acc :
  foldl (fun steps el => let nh := f el in
                         if (0 <? length nh)%nat then steps ++ [nh] else steps) acc l
  = acc ++ filter (fun step => step <> []) (map f l).
Proof.
  revert acc. induction l as [|a l IH]; intros acc; cbn [foldl map].
  - symmetry. apply app_nil_r.
  - rewrite IH, filter_cons. destruct (f a) eqn:E; cbn [length Nat.ltb Nat.leb].
    + rewrite decide_False by auto. reflexivity.
    + rewrite decide_True by discriminate. rewrite <- app_assoc. reflexivity.
Qed.

Lemma chord_has_closest doc el :
  matches doc (gWithClass "chord") el -> hasClosest doc "chord" el.
Proof.
  unfold matches, hasClosest. destruct (doc !! el) as [[anc n]|]; [|tauto].
  cbn. unfold gWithClass. intros H. apply orb_True. left. exact H.
Qed.

(** C3. Step partition: the extraction returns, in document order, the
    noteheads of exactly the [g.chord] groups and of the [g.note] groups that
    lie in no [g.chord]; a group without notehead is left out, so no step is
    empty, and the noteheads inside a step are in document order too.  The
    position in the tree decides the order; no coordinate is read. *)
Theorem extractStepsChordSafe_partition (root : Node) :
  let doc := treeOrder root in
  let groupings := filter (fun el => isGrouping doc el) (descendants doc 0%nat) in
  extractStepsChordSafe (Some root)
    = filter (fun step => step <> []) (map (noteheads doc) groupings)
  /\ StronglySorted lt groupings
  /\ Forall (fun step => step <> [] /\ StronglySorted lt step)
            (extractStepsChordSafe (Some root))
  /\ extractStepsChordSafe None = [].
Proof.
  intros doc groupings.
  assert (Hinc : forall el, StronglySorted lt (descendants doc el)).
  { intros el. unfold descendants. destruct (doc !! el) as [[anc n]|];
      [apply seq_increasing|constructor]. }
  assert (Heq : extractStepsChordSafe (Some root)
                = filter (fun step => step <> []) (map (noteheads doc) groupings)).
  { unfold extractStepsChordSafe. fold doc. cbn zeta.
    rewrite (foldl_push (noteheads doc)). cbn [app]. do 2 f_equal.
    unfold querySelectorAll at 2. rewrite list_filter_filter.
    unfold querySelectorAll. rewrite sortWith_merges.
    - subst groupings. apply list_filter_iff. intros el. unfold isGrouping.
      rewrite orb_True, andb_True, negb_True. tauto.
    - apply Hinc.
    - intros el Hc [Hn _]. apply negb_True in Hn. apply Hn, chord_has_closest, Hc. }
  split; [exact Heq|]. split; [apply increasing_filter, Hinc|].
  split; [|reflexivity].
  rewrite Heq. apply Forall_forall. intros step Hstep.
  apply list_elem_of_filter in Hstep as [Hne Hstep]. split; [exact Hne|].
  apply list_elem_of_fmap in Hstep as (el & -> & _).
  apply increasing_filter, Hinc.
Qed.

End ChordSafeProperties.

(** ** The cached baseline of the analysis overlay *)

Section BaselineProperties.
Import Baseline.

(** The baseline computed from a step's box: its lower edge in viewer
    coordinates plus 10 pixels. *)
Definition baselineFrom (bbox : BBox) (s : Viewer) : Q :=
  (maxY bbox - rTop (viewerRect (layout s)) + 10)%Q.

Lemma getStepScreenBBox_set_overlay index o s :
  getStepScreenBBox index (set_overlay o s) = getStepScreenBBox index s.
Proof. reflexivity. Qed.

Lemma getStepScreenBBox_set_globalBaselineY index y s :
  getStepScreenBBox index (set_globalBaselineY y s) = getStepScreenBBox index s.
Proof. reflexivity. Qed.

(** An overlay update for a step that has an analysis entry and a box:
    the cached baseline is used when there is one, otherwise it is computed
    from this step and stored. *)
Lemma updateOverlayForStep_shown index s a bbox :
  analysisEntry index s = Some a ->
  getStepScreenBBox index s = Some bbox ->
  let y := default (baselineFrom bbox s) (globalBaselineY s) in
  updateOverlayForStep index s =
    set_overlay {| ovHidden := false; ovStufe := stufe a; ovFunction := func a;
                   ovLeft := ((minX bbox + maxX bbox) / 2
                              - rLeft (viewerRect (layout s)))%Q;
                   ovTop := y |}
                (set_globalBaselineY (Some y) s).
Proof.
  intros Ha Hb. unfold updateOverlayForStep, positionOverlayAtStep, baselineFrom.
  rewrite Ha. cbn zeta.
  cbn [globalBaselineY set_overlay].
  destruct (globalBaselineY s) as [y0|] eqn:Hy.
  - rewrite getStepScreenBBox_set_overlay, Hb.
    destruct s; cbn in *; subst; reflexivity.
  - rewrite getStepScreenBBox_set_overlay, Hb.
    rewrite getStepScreenBBox_set_globalBaselineY, getStepScreenBBox_set_overlay, Hb.
    destruct s; cbn in *; subst; reflexivity.
Qed.

(** Without a box nothing is cached. *)
Lemma updateOverlayForStep_no_box index s a :
  analysisEntry index s = Some a ->
  getStepScreenBBox index s = None ->
  globalBaselineY (updateOverlayForStep index s) = globalBaselineY s.
Proof.
  intros Ha Hb. unfold updateOverlayForStep, positionOverlayAtStep.
  rewrite Ha. cbn zeta. cbn [globalBaselineY set_overlay].
  destruct (globalBaselineY s) as [y0|] eqn:Hy.
  - rewrite getStepScreenBBox_set_overlay, Hb. exact Hy.
  - rewrite getStepScreenBBox_set_overlay, Hb.
    rewrite getStepScreenBBox_set_overlay, Hb. exact Hy.
Qed.

(** A viewer showing a score of two steps: the note [3] and the chord
    [7], [10], with an analysis entry for each. *)
Definition demoScore (baseline : option Q) : Viewer :=
  {| CC_SELECT := 22; CC_COUNT := 23; CC_SLIDE := 24;
     steps := [[3%nat]; [7%nat; 10%nat]];
     currentStep := 0;
     analysisData := Some [ {| stufe := "I"; func := "T" |};
                            {| stufe := "V"; func := "D" |} ];
     midiOut := None; stepsReady := true; midiReady := false;
     globalBaselineY := baseline;
     layout := {| rectOf := fun u =>
                    {| rLeft := inject_Z (Z.of_nat u) * 10;
                       rRight := inject_Z (Z.of_nat u) * 10 + 8;
                       rTop := inject_Z (Z.of_nat u) * 5;
                       rBottom := inject_Z (Z.of_nat u) * 5 + 6 |}%Q;
                  viewerRect := {| rLeft := 2; rRight := 802; rTop := 4; rBottom := 304 |};
                  measuredHeight := 120 |};
     highlighted := [];
     overlay := {| ovHidden := true; ovStufe := ""; ovFunction := "";
                   ovLeft := 0%Q; ovTop := 0%Q |};
     sent := [];
     posted := [] |}.

(** The steps on display one after the other, starting from [s]. *)
Definition displayAll (js : list Z) (s : Viewer) : Viewer :=
  foldl (fun st j => updateOverlayForStep j st) s js.

(** A step that can be annotated: it has an analysis entry and a box. *)
Definition displayable (s : Viewer) (j : Z) : Prop :=
  is_Some (analysisEntry j s) /\ is_Some (getStepScreenBBox j s).

(** Displaying displayable steps with a known baseline keeps it and puts
    every overlay on it. *)
Lemma displayAll_keeps_baseline js s st y :
  steps st = steps s -> analysisData st = analysisData s -> layout st = layout s ->
  globalBaselineY st = Some y ->
  Forall (displayable s) js ->
  globalBaselineY (displayAll js st) = Some y
  /\ (js <> [] -> ovTop (overlay (displayAll js st)) = y
                  /\ ovHidden (overlay (displayAll js st)) = false).
Proof.
  intros Hsteps Hdata Hlay Hy Hjs. revert st Hsteps Hdata Hlay Hy.
  induction Hjs as [|j js [[b Hb] [bj Hbj]] _ IH]; intros st Hsteps Hdata Hlay Hy.
  - split; [exact Hy|]. intros []. reflexivity.
  - cbn [displayAll foldl]. fold (displayAll js (updateOverlayForStep j st)).
    assert (Hb' : analysisEntry j st = Some b).
    { unfold analysisEntry in *. rewrite Hdata. exact Hb. }
    assert (Hbj' : getStepScreenBBox j st = Some bj).
    { unfold getStepScreenBBox in *. rewrite Hsteps, Hlay. exact Hbj. }
    pose proof (updateOverlayForStep_shown j st b bj Hb' Hbj') as E.
    cbn zeta in E. rewrite Hy in E. cbn [default] in E.
    destruct (IH (updateOverlayForStep j st)) as [IH1 IH2];
      try (rewrite E; assumption); [rewrite E; reflexivity|].
    split; [exact IH1|]. intros _.
    destruct js as [|j' js]; [|apply IH2; discriminate].
    cbn [displayAll foldl]. rewrite E. split; reflexivity.
Qed.

(** C6. Baseline stability: the first overlay display fixes the baseline
    (the cached one, or the lower edge of the first displayed step plus 10
    pixels when the cache is unknown), and every step displayed after it, in
    any number and order, gets that same vertical position while the cache
    keeps its value; the resize listener forgets the cached value, and what
    the cache holds afterwards is recomputed in the new layout from the step
    on display, or unknown when no overlay is on display. *)
Theorem baseline_stable (s : Viewer) (i : Z) (js : list Z)
        (a : AnalysisEntry) (bi : BBox) :
  analysisEntry i s = Some a ->
  getStepScreenBBox i s = Some bi ->
  Forall (displayable s) js ->
  let y := default (baselineFrom bi s) (globalBaselineY s) in
  let s1 := updateOverlayForStep i s in
  let sN := displayAll js s1 in
  globalBaselineY s1 = Some y
  /\ ovTop (overlay s1) = y
  /\ ovHidden (overlay s1) = false
  /\ globalBaselineY sN = Some y
  /\ ovTop (overlay sN) = y
  /\ ovHidden (overlay sN) = false
  /\ (forall lay,
        globalBaselineY (onResize lay s) =
        if 0 <? currentStep s then
          match analysisEntry (currentStep s) s,
                getStepScreenBBox (currentStep s) (set_layout lay s) with
          | Some _, Some bbox => Some (baselineFrom bbox (set_layout lay s))
          | _, _ => None
          end
        else None).
Proof.
  intros Ha Hbi Hjs y s1 sN.
  pose proof (updateOverlayForStep_shown i s a bi Ha Hbi) as E1.
  cbn zeta in E1. fold y in E1. fold s1 in E1.
  assert (Hy1 : globalBaselineY s1 = Some y) by (rewrite E1; reflexivity).
  assert (Ht1 : ovTop (overlay s1) = y) by (rewrite E1; reflexivity).
  assert (Hh1 : ovHidden (overlay s1) = false) by (rewrite E1; reflexivity).
  destruct (displayAll_keeps_baseline js s s1 y) as [HyN HtN];
    try (rewrite E1; reflexivity); [exact Hjs|].
  fold sN in HyN, HtN.
  split; [exact Hy1|]. split; [exact Ht1|]. split; [exact Hh1|].
  split; [exact HyN|].
  assert (HN : ovTop (overlay sN) = y /\ ovHidden (overlay sN) = false).
  { destruct js as [|j js]; [split; assumption|apply HtN; discriminate]. }
  split; [apply HN|]. split; [apply HN|].
  clearbody s1 sN. clear.
  intros lay. unfold onResize, notifyParentOfHeight, repositionOverlayForCurrentStep.
  cbn [globalBaselineY set_posted currentStep set_layout set_globalBaselineY].
  destruct (0 <? currentStep s); [|reflexivity].
  set (r := set_layout lay (set_globalBaselineY None s)).
  change (analysisEntry (currentStep s) s) with (analysisEntry (currentStep s) r).
  change (getStepScreenBBox (currentStep s) (set_layout lay s))
    with (getStepScreenBBox (currentStep s) r).
  destruct (analysisEntry (currentStep s) r) as [e|] eqn:He.
  - destruct (getStepScreenBBox (currentStep s) r) as [bbox|] eqn:Hbox.
    + rewrite (updateOverlayForStep_shown _ r e bbox He Hbox). reflexivity.
    + rewrite (updateOverlayForStep_no_box _ r e He Hbox). reflexivity.
  - unfold updateOverlayForStep. rewrite He. reflexivity.
Qed.

Lemma baseline_stable_witness :
  ovTop (overlay (updateOverlayForStep 1 (demoScore None)))
  = ovTop (overlay (displayAll [2; 1; 2] (updateOverlayForStep 1 (demoScore None)))).
Proof.
  assert (Hjs : Forall (displayable (demoScore None)) [2; 1; 2]).
  { repeat constructor; eexists; reflexivity. }
  destruct (baseline_stable (demoScore None) 1 [2; 1; 2]
              {| stufe := "I"; func := "T" |}
              {| minX := 3 * 10; maxX := 3 * 10 + 8; maxY := 3 * 5 + 6 |}%Q
              eq_refl eq_refl Hjs)
    as (_ & E1 & _ & _ & EN & _).
  exact (eq_trans E1 (eq_sym EN)).
Defined.

(** In this viewer an index above the number of steps is not clamped to
    the last step: like an index below 1 it clears the selection. *)
Lemma overlay_viewer_resets_out_of_range n s :
  n <= 0 \/ Z.of_nat (length (steps s)) < n ->
  currentStep (highlightStep n s) = 0.
Proof.
  intros H. unfold highlightStep, clearHighlight. cbn zeta.
  cbn [steps set_highlighted].
  destruct (Z.leb_spec n 0), (Z.ltb_spec (Z.of_nat (length (steps s))) n);
    try reflexivity. lia.
Qed.

End BaselineProperties.

(** ** The MIDI input path *)

Lemma handleMIDIIn_frame data s :
  Z.land (default 0 (data !! 0%nat)) 0xf0 <> 0xb0
  \/ data !! 1%nat <> Some (Baseline.CC_SELECT s) ->
  Baseline.handleMIDIIn data s = s.
Proof.
  intros H. unfold Baseline.handleMIDIIn. cbn zeta.
  destruct (Z.eqb_spec (Z.land (default 0 (data !! 0%nat)) 0xf0) 0xb0);
    [|reflexivity].
  cbn [negb]. case_bool_decide; [tauto|reflexivity].
Qed.

(** C10. Frame property of the MIDI input: a message that is not a
    Control Change (status high nibble other than 0xB0), or whose controller
    number is not the step-select one, leaves the whole viewer as it was:
    current step, highlight, overlay, and everything sent or posted.  This
    holds for the gated viewer (controller 22 after masking to seven bits) and
    for the viewer with the configurable [CC_SELECT]. *)
Theorem midi_input_frame (data : MidiMsg) (g : Gated.Viewer) (b : Baseline.Viewer) :
  (Z.land (Gated.byteAt data 0) 0xf0 <> 0xb0
   \/ Z.land (Gated.byteAt data 1) 0x7f <> 22 ->
   Gated.handleMidiMessage data g = g)
  /\ (Z.land (default 0 (data !! 0%nat)) 0xf0 <> 0xb0
      \/ data !! 1%nat <> Some (Baseline.CC_SELECT b) ->
      Baseline.handleMIDIIn data b = b).
Proof. split; [apply handleMidiMessage_frame|apply handleMIDIIn_frame]. Qed.

Lemma midi_input_frame_witness :
  (Gated.handleMidiMessage [0x90; 60; 100] (demoViewer true true (Some demoPort))
   = demoViewer true true (Some demoPort)
   /\ Baseline.handleMIDIIn [0x90; 60; 100] (demoScore None) = demoScore None)
  /\ (Gated.handleMidiMessage [0xb0; 7; 100] (demoViewer true true (Some demoPort))
      = demoViewer true true (Some demoPort)
      /\ Baseline.handleMIDIIn [0xb0; 7; 100] (demoScore None) = demoScore None).
Proof.
  split.
  - destruct (midi_input_frame [0x90; 60; 100]
                (demoViewer true true (Some demoPort)) (demoScore None)) as [Hg Hb].
    split; [apply Hg|apply Hb]; left; discriminate.
  - destruct (midi_input_frame [0xb0; 7; 100]
                (demoViewer true true (Some demoPort)) (demoScore None)) as [Hg Hb].
    split; [apply Hg|apply Hb]; right; discriminate.
Defined.

(** ** The Reveal plugin *)

Section DeckProperties.
Import Deck.

(** What the loop makes of one frame; the set of marked sections plays no
    part in it. *)
Definition notified (ev : Navigation) (f : Frame) : Frame :=
  snd (notifyFrame ev ∅ f).

Lemma notifyFrame_snd ev slides f : snd (notifyFrame ev slides f) = notified ev f.
Proof.
  unfold notified, notifyFrame. destruct (contentWindow f); [|reflexivity].
  cbn zeta. destruct (sections f); reflexivity.
Qed.

Lemma activateCurrentIframe_frames ev h :
  frames (activateCurrentIframe ev h) = map (notified ev) (frames h).
Proof.
  unfold activateCurrentIframe.
  assert (G : forall fs slides done,
             snd (foldl (fun '(slides, done) f =>
                           let '(slides', f') := notifyFrame ev slides f in
                           (slides', done ++ [f']))
                        (slides, done) fs)
             = done ++ map (notified ev) fs).
  { induction fs as [|f fs IH]; intros slides done; cbn [foldl map].
    - symmetry. apply app_nil_r.
    - pose proof (notifyFrame_snd ev slides f) as E.
      destruct (notifyFrame ev slides f) as [slides' f']. cbn in E. subst f'.
      rewrite IH, <- app_assoc. reflexivity. }
  specialize (G (frames h) (harmonySlides h) []).
  destruct (foldl _ _ _) as [slides fs]. exact G.
Qed.

(** After a round a loaded viewer is active exactly when its frame is in
    the current slide; a frame without window stays as it was. *)
Lemma notified_active ev f :
  isActiveFrame (notified ev f) =
  match contentWindow f with
  | Some _ => inCurrentSlide ev f
  | None => false
  end.
Proof.
  unfold notified, notifyFrame, isActiveFrame.
  destruct (contentWindow f) as [v|] eqn:E; cbn; [|rewrite E; reflexivity].
  destruct (sections f); cbn [snd contentWindow];
    rewrite onMessage_isActiveViewer; destruct (inCurrentSlide ev f); reflexivity.
Qed.

Lemma notified_static ev f :
  sections (notified ev f) = sections f
  /\ (is_Some (contentWindow (notified ev f)) <-> is_Some (contentWindow f)).
Proof.
  unfold notified, notifyFrame.
  destruct (contentWindow f) as [v|] eqn:E; cbn.
  - destruct (sections f); cbn; split; try reflexivity; split; eauto.
  - rewrite E. split; reflexivity.
Qed.

Lemma activeCount_round ev h :
  activeCount (activateCurrentIframe ev h) = viewersInCurrentSlide ev h.
Proof.
  unfold activeCount, viewersInCurrentSlide. rewrite activateCurrentIframe_frames.
  induction (frames h) as [|f fs IH]; [reflexivity|].
  cbn [map]. rewrite !filter_cons, notified_active.
  destruct (contentWindow f) as [v|] eqn:E.
  - destruct (inCurrentSlide ev f) eqn:Hin.
    + rewrite !decide_True; [cbn; rewrite IH; reflexivity| |]; [split; eauto|exact I].
    + rewrite !decide_False; [exact IH| |]; [intros [_ []]|intros []].
  - rewrite !decide_False; [exact IH| |]; [intros [[? ?] _]; discriminate|intros []].
Qed.

Lemma viewersInCurrentSlide_round ev ev' h :
  viewersInCurrentSlide ev (activateCurrentIframe ev' h) = viewersInCurrentSlide ev h.
Proof.
  unfold viewersInCurrentSlide. rewrite activateCurrentIframe_frames.
  induction (frames h) as [|f fs IH]; [reflexivity|].
  cbn [map]. rewrite !filter_cons.
  destruct (notified_static ev' f) as [Hs Hw].
  assert (Hin : inCurrentSlide ev (notified ev' f) = inCurrentSlide ev f).
  { unfold inCurrentSlide. rewrite Hs. reflexivity. }
  rewrite Hin.
  destruct (decide (is_Some (contentWindow f) /\ inCurrentSlide ev f)) as [Hd|Hd].
  - rewrite decide_True by tauto. cbn. rewrite IH. reflexivity.
  - rewrite decide_False by tauto. exact IH.
Qed.

Lemma viewersInCurrentSlide_navigate ev evs h :
  viewersInCurrentSlide ev (navigate evs h) = viewersInCurrentSlide ev h.
Proof.
  revert h. induction evs as [|e evs IH]; intros h; [reflexivity|].
  change (navigate (e :: evs) h) with (navigate evs (activateCurrentIframe e h)).
  rewrite IH. apply viewersInCurrentSlide_round.
Qed.

(** C1, as the code has it.  After every navigation event, whatever came
    before and however many viewers the slides hold, a loaded viewer is active
    if and only if its iframe lies in the current slide; so the number of
    active viewers is the number of loaded viewers in the current slide.  At
    most one viewer is active when the current slide holds at most one, and a
    slide that holds several viewers has them all active at once. *)
Theorem activation_follows_current_slide
        (evs : list Navigation) (ev : Navigation) (h : Host) :
  let after := navigate (evs ++ [ev]) h in
  Forall (fun f => is_Some (contentWindow f) ->
                   isActiveFrame f = inCurrentSlide ev f)
         (frames after)
  /\ Forall (fun f => contentWindow f = None -> isActiveFrame f = false) (frames after)
  /\ activeCount after = viewersInCurrentSlide ev h
  /\ viewersInCurrentSlide ev after = viewersInCurrentSlide ev h
  /\ ((viewersInCurrentSlide ev h <= 1)%nat -> (activeCount after <= 1)%nat)
  /\ ((1 < viewersInCurrentSlide ev h)%nat -> (1 < activeCount after)%nat).
Proof.
  intros after.
  assert (Hcount : activeCount after = viewersInCurrentSlide ev h).
  { subst after. unfold navigate. rewrite foldl_app. cbn [foldl].
    fold (navigate evs h). rewrite activeCount_round.
    apply viewersInCurrentSlide_navigate. }
  split.
  { subst after. unfold navigate. rewrite foldl_app. cbn [foldl].
    fold (navigate evs h).
    rewrite activateCurrentIframe_frames. apply Forall_forall. intros f' Hf'.
    apply list_elem_of_fmap in Hf' as (f & -> & _). intros Hw.
    destruct (notified_static ev f) as [Hs Hw'].
    rewrite notified_active. apply Hw' in Hw as [v Hv]. rewrite Hv.
    unfold inCurrentSlide. rewrite Hs. reflexivity. }
  split.
  { apply Forall_forall. intros f _ Hnone. unfold isActiveFrame. rewrite Hnone.
    reflexivity. }
  split; [exact Hcount|].
  split; [apply viewersInCurrentSlide_navigate|].
  rewrite Hcount. auto.
Qed.

(** A deck of three slides; the first slide holds one viewer, the second
    slide holds two, the third none. *)
Definition demoHost : Host :=
  {| frames := [ {| sections := [1%nat];
                    contentWindow := Some (demoViewer true false (Some demoPort)) |};
                 {| sections := [2%nat];
                    contentWindow := Some (demoViewer true false (Some demoPort)) |};
                 {| sections := [2%nat];
                    contentWindow := Some (demoViewer true false (Some demoPort)) |} ];
     harmonySlides := ∅ |}.

Definition showSlide (slide : nat) (h : Z) : Navigation :=
  {| indexh := Some h; indexv := Some 0; currentSlide := Some slide;
     deckIndices := (Some h, Some 0) |}.

Lemma activation_follows_current_slide_witness :
  activeCount (navigate ([showSlide 2 1; showSlide 3 2] ++ [showSlide 1 0]) demoHost)
  = 1%nat
  /\ activeCount (navigate ([showSlide 1 0; showSlide 3 2] ++ [showSlide 2 1]) demoHost)
     = 2%nat
  /\ activeCount (navigate ([showSlide 1 0; showSlide 2 1] ++ [showSlide 3 2]) demoHost)
     = 0%nat.
Proof.
  split; [|split].
  - exact (proj1 (proj2 (proj2 (activation_follows_current_slide
                                  [showSlide 2 1; showSlide 3 2] (showSlide 1 0) demoHost)))).
  - exact (proj1 (proj2 (proj2 (activation_follows_current_slide
                                  [showSlide 1 0; showSlide 3 2] (showSlide 2 1) demoHost)))).
  - exact (proj1 (proj2 (proj2 (activation_follows_current_slide
                                  [showSlide 1 0; showSlide 2 1] (showSlide 3 2) demoHost)))).
Defined.

(** C1 as stated fails: when the visible slide holds two viewers, the
    plugin activates both, and two viewers are active after the round. *)
Lemma two_viewers_active_on_one_slide :
  activeCount demoHost = 0%nat
  /\ activeCount (navigate [showSlide 2 1] demoHost) = 2%nat.
Proof. split; vm_compute; reflexivity. Qed.

End DeckProperties.

(** * Further properties of the scripts *)

(** ** The gated viewer as a transition system *)

Section GatedBehaviour.
Import Gated.

(** What a step selection puts on the wire, and the timer it arms. *)
Definition stepOutput (c : Z) (s : Viewer) : list MidiMsg :=
  match midiOut s with
  | None => []
  | Some _ =>
    if isActiveViewer s && (0 <? c)
    then map noteOn (default [] (at1 (stepPitches s) c))
    else [allNotesOff]
  end.

Definition stepTimers (c : Z) (s : Viewer) : list Z :=
  match midiOut s with
  | None => []
  | Some _ => if isActiveViewer s && (0 <? c) then [0] else []
  end.

Definition heightReport (s : Viewer) : list ParentMsg :=
  if IS_EMBEDDED s then [ViewerHeight (offsetHeight (layout s))] else [].

(** A step selection in full: every variable it writes and everything it
    emits. *)
Lemma highlightStep_effect n s :
  let c := clampInt n 0 (stepCount s) in
  highlightStep n s =
    set_posted (posted s ++ heightReport s)
      (set_timers (timers s ++ stepTimers c s)
        (set_sent (sent s ++ stepOutput c s)
          (set_overlay (overlayOf c s)
            (set_highlighted (highlightOf c s) (set_highlightedStep c s))))).
Proof.
  cbn zeta. rewrite highlightStep_shape. cbn zeta.
  unfold notifyParentOfHeight, stepOutput, stepTimers, heightReport.
  rewrite sendStepNotesAsMidi_sent, sendAllNotesOff_sent.
  set (c := clampInt n 0 (stepCount s)). set (h := highlightOf c s).
  set (o := overlayOf c s). clearbody c h o.
  destruct s as [emb ? ? ? ? ? [p|] ? act ? ? ? ? ? ?];
    cbn [midiOut IS_EMBEDDED isActiveViewer set_overlay set_highlighted
         set_highlightedStep];
    destruct (act && (0 <? c)); destruct emb; cbn; rewrite ?app_nil_r; reflexivity.
Qed.

(** *** What goes out is MIDI *)

(** A three-byte channel message as this viewer sends them: Note-On on
    channel 0 or a Control Change on any channel, both data bytes in
    0..127. *)
Definition wellFormed (m : MidiMsg) : Prop :=
  match m with
  | [status; d1; d2] =>
    (status = 0x90 \/ 0xb0 <= status <= 0xbf) /\ 0 <= d1 <= 127 /\ 0 <= d2 <= 127
  | _ => False
  end.

Lemma clampInt_range n lo hi : lo <= hi -> lo <= clampInt n lo hi <= hi.
Proof. intros H. destruct n; cbn; lia. Qed.

Lemma land_7f_range a : 0 <= Z.land a 0x7f <= 127.
Proof.
  change (Z.land a 0x7f) with (Z.land a (Z.ones 7)). rewrite Z.land_ones by lia.
  change (2 ^ 7) with 128.
  pose proof (Z.mod_pos_bound a 128 ltac:(lia)). lia.
Qed.

Lemma control_status_range ch : 0xb0 <= Z.lor 0xb0 (Z.land ch 0x0f) <= 0xbf.
Proof.
  change (Z.land ch 0x0f) with (Z.land ch (Z.ones 4)). rewrite Z.land_ones by lia.
  change (2 ^ 4) with 16.
  pose proof (Z.mod_pos_bound ch 16 ltac:(lia)) as H.
  generalize dependent (ch mod 16). intros x H.
  assert (Hx : x = 0 \/ x = 1 \/ x = 2 \/ x = 3 \/ x = 4 \/ x = 5 \/ x = 6 \/ x = 7
               \/ x = 8 \/ x = 9 \/ x = 10 \/ x = 11 \/ x = 12 \/ x = 13 \/ x = 14
               \/ x = 15) by lia.
  repeat (destruct Hx as [->|Hx]; [split; vm_compute; discriminate|]).
  rewrite Hx. split; vm_compute; discriminate.
Qed.

(** [s'] comes from [s] by sending well-formed messages only. *)
Definition sendsMidi (s s' : Viewer) : Prop :=
  exists more, sent s' = sent s ++ more /\ Forall wellFormed more.

Lemma sendsMidi_refl s s' : sent s' = sent s -> sendsMidi s s'.
Proof. intros E. exists []. rewrite app_nil_r. split; [exact E|constructor]. Qed.

Lemma sendsMidi_trans s1 s2 s3 : sendsMidi s1 s2 -> sendsMidi s2 s3 -> sendsMidi s1 s3.
Proof.
  intros (m1 & E1 & H1) (m2 & E2 & H2). exists (m1 ++ m2).
  rewrite E2, E1, <- app_assoc. split; [reflexivity|]. apply Forall_app; auto.
Qed.

Lemma sendCC_effect cc v ch s :
  sendCC cc v ch s =
  set_sent (sent s ++ match midiOut s with
                      | None => []
                      | Some _ => [[Z.lor 0xb0 (Z.land ch 0x0f); Z.land cc 0x7f;
                                    clampInt v 0 127]]
                      end) s.
Proof.
  unfold sendCC. destruct s as [? ? ? ? ? ? [p|] ? ? ? ? ? ? ? ?]; cbn;
    rewrite ?app_nil_r; reflexivity.
Qed.

Lemma sendCC_sendsMidi cc v ch s : sendsMidi s (sendCC cc v ch s).
Proof.
  rewrite sendCC_effect. eexists. split; [reflexivity|].
  destruct (midiOut s); [|constructor]. constructor; [|constructor].
  split; [right; apply control_status_range|].
  split; [apply land_7f_range|apply clampInt_range; lia].
Qed.

Lemma sendAllNotesOff_sendsMidi ch s : sendsMidi s (sendAllNotesOff ch s).
Proof.
  unfold sendAllNotesOff. destruct (midiOut s);
    [apply sendCC_sendsMidi|apply sendsMidi_refl; reflexivity].
Qed.

Lemma sendStepCountCc_sendsMidi s : sendsMidi s (sendStepCountCc s).
Proof.
  unfold sendStepCountCc. destruct (negb _);
    [apply sendsMidi_refl; reflexivity|apply sendCC_sendsMidi].
Qed.

Lemma sendSlideIndexCc_sendsMidi i s : sendsMidi s (sendSlideIndexCc i s).
Proof.
  unfold sendSlideIndexCc. destruct (negb _);
    [apply sendsMidi_refl; reflexivity|apply sendCC_sendsMidi].
Qed.

Lemma stepOutput_wellFormed c s : Forall wellFormed (stepOutput c s).
Proof.
  unfold stepOutput. destruct (midiOut s); [|constructor].
  destruct (_ && _).
  - apply Forall_forall. intros m Hm. apply list_elem_of_fmap in Hm as (q & -> & _).
    pose proof (clampInt_range (Int q) 0 127 ltac:(lia)).
    split; [left; reflexivity|]. split; [assumption|lia].
  - constructor; [|constructor]. split; [right; lia|]. lia.
Qed.

Lemma highlightStep_sendsMidi n s : sendsMidi s (highlightStep n s).
Proof.
  rewrite highlightStep_effect. eexists. split; [reflexivity|].
  apply stepOutput_wellFormed.
Qed.

Lemma notifyParentOfHeight_sendsMidi s : sendsMidi s (notifyParentOfHeight s).
Proof.
  apply sendsMidi_refl. unfold notifyParentOfHeight.
  destruct (negb (IS_EMBEDDED s)); reflexivity.
Qed.

Lemma handle_sendsMidi e s : sendsMidi s (handle e s).
Proof.
  destruct e as [[slideIndex| | |]|data| |]; cbn [handle onMessage].
  - eapply sendsMidi_trans; [|apply notifyParentOfHeight_sendsMidi].
    eapply sendsMidi_trans; [|apply highlightStep_sendsMidi].
    eapply sendsMidi_trans; [|apply sendSlideIndexCc_sendsMidi].
    eapply sendsMidi_trans; [|apply sendStepCountCc_sendsMidi].
    apply sendsMidi_refl. reflexivity.
  - eapply sendsMidi_trans; [|apply sendAllNotesOff_sendsMidi].
    apply sendsMidi_refl. reflexivity.
  - apply sendStepCountCc_sendsMidi.
  - apply sendsMidi_refl. reflexivity.
  - unfold handleMidiMessage. repeat case_match;
      try (apply sendsMidi_refl; reflexivity). apply highlightStep_sendsMidi.
  - apply highlightStep_sendsMidi.
  - unfold fireTimer. destruct (timers s); [apply sendsMidi_refl; reflexivity|].
    eapply sendsMidi_trans; [|apply sendAllNotesOff_sendsMidi].
    apply sendsMidi_refl. reflexivity.
Qed.

(** X1. Whatever happens to the viewer (host messages, MIDI input of any
    content, button clicks, timers), in any order and from any state, the
    send log only grows, and every message added is a well-formed three-byte
    MIDI message: Note-On on channel 0 or a Control Change, with both data
    bytes in 0..127. *)
Theorem viewer_sends_only_midi (es : list Event) (s : Viewer) :
  exists more, sent (run es s) = sent s ++ more /\ Forall wellFormed more.
Proof.
  revert s. induction es as [|e es IH]; intros s.
  - apply sendsMidi_refl. reflexivity.
  - change (run (e :: es) s) with (run es (handle e s)).
    exact (sendsMidi_trans _ _ _ (handle_sendsMidi e s) (IH (handle e s))).
Qed.

(** *** The score and the selection *)

(** What is fixed once the score is loaded and the ports are bound. *)
Definition sameScore (s s' : Viewer) : Prop :=
  IS_EMBEDDED s' = IS_EMBEDDED s
  /\ harmonicSteps s' = harmonicSteps s
  /\ stepPitches s' = stepPitches s
  /\ analysis s' = analysis s
  /\ globalAnalysisBaselineY s' = globalAnalysisBaselineY s
  /\ layout s' = layout s
  /\ midiOut s' = midiOut s.

(** The selection is in range and the highlight shows it. *)
Definition settled (s : Viewer) : Prop :=
  0 <= highlightedStep s <= stepCount s
  /\ highlighted s = highlightOf (highlightedStep s) s.

Definition keepsSelection (s s' : Viewer) : Prop :=
  sameScore s s'
  /\ highlightedStep s' = highlightedStep s
  /\ highlighted s' = highlighted s
  /\ overlay s' = overlay s.

Lemma keepsSelection_trans s1 s2 s3 :
  keepsSelection s1 s2 -> keepsSelection s2 s3 -> keepsSelection s1 s3.
Proof. unfold keepsSelection, sameScore. intros H1 H2. intuition congruence. Qed.

Lemma highlightOf_ext c s s' :
  harmonicSteps s' = harmonicSteps s -> layout s' = layout s ->
  highlightOf c s' = highlightOf c s.
Proof.
  intros Hs Hl. unfold highlightOf, applySvgHighlight.
  destruct (c <=? 0); cbn; [reflexivity|]. rewrite Hs, Hl. reflexivity.
Qed.

Lemma settled_keeps s s' : settled s -> keepsSelection s s' -> settled s'.
Proof.
  unfold settled, keepsSelection, sameScore, stepCount.
  intros [Hr Hh] ((_ & Hs & _ & _ & _ & Hl & _) & Hk & Hh' & _).
  rewrite Hk, Hh', Hs. split; [exact Hr|].
  rewrite (highlightOf_ext _ s s') by assumption. exact Hh.
Qed.

Ltac keeps_by_cases s :=
  destruct s as [? ? ? ? ? ? [?|] ? ? ? ? ? ? ? ?];
  cbn; repeat case_match; repeat split; reflexivity.

Lemma sendCC_keeps cc v ch s : keepsSelection s (sendCC cc v ch s).
Proof. rewrite sendCC_effect. keeps_by_cases s. Qed.

Lemma sendAllNotesOff_keeps ch s : keepsSelection s (sendAllNotesOff ch s).
Proof. rewrite sendAllNotesOff_sent. keeps_by_cases s. Qed.

Lemma sendStepCountCc_keeps s : keepsSelection s (sendStepCountCc s).
Proof.
  unfold sendStepCountCc. destruct (negb _); [keeps_by_cases s|apply sendCC_keeps].
Qed.

Lemma sendSlideIndexCc_keeps i s : keepsSelection s (sendSlideIndexCc i s).
Proof.
  unfold sendSlideIndexCc. destruct (negb _); [keeps_by_cases s|apply sendCC_keeps].
Qed.

Lemma notifyParentOfHeight_keeps s : keepsSelection s (notifyParentOfHeight s).
Proof. unfold notifyParentOfHeight. keeps_by_cases s. Qed.

Lemma highlightStep_settles n s :
  sameScore s (highlightStep n s) /\ settled (highlightStep n s).
Proof.
  rewrite highlightStep_effect. cbn zeta. unfold settled, sameScore, stepCount.
  cbn [IS_EMBEDDED harmonicSteps stepPitches analysis globalAnalysisBaselineY
       layout midiOut highlightedStep highlighted
       set_posted set_timers set_sent set_overlay set_highlighted
       set_highlightedStep].
  repeat split; try reflexivity.
  - apply clampInt_range. lia.
  - apply clampInt_range. lia.
  - symmetry. apply highlightOf_ext; reflexivity.
Qed.

(** Every handler either leaves the selection alone or performs one step
    selection between two quiet stretches. *)
Lemma handle_cases e s :
  keepsSelection s (handle e s)
  \/ exists n s1, keepsSelection s s1
                  /\ keepsSelection (highlightStep n s1) (handle e s).
Proof.
  assert (Hrefl : forall s0, keepsSelection s0 s0) by (intros s0; keeps_by_cases s0).
  destruct e as [[slideIndex| | |]|data| |]; cbn [handle onMessage].
  - right. eexists _, _. split; [|apply notifyParentOfHeight_keeps].
    eapply keepsSelection_trans; [|apply sendSlideIndexCc_keeps].
    eapply keepsSelection_trans; [|apply sendStepCountCc_keeps].
    keeps_by_cases s.
  - left. eapply keepsSelection_trans; [|apply sendAllNotesOff_keeps].
    keeps_by_cases s.
  - left. apply sendStepCountCc_keeps.
  - left. apply Hrefl.
  - unfold handleMidiMessage. repeat case_match; try (left; apply Hrefl).
    right. eexists _, _. split; apply Hrefl.
  - right. eexists _, _. split; apply Hrefl.
  - left. unfold fireTimer. destruct (timers s) as [|ch rest] eqn:E;
      [apply Hrefl|].
    eapply keepsSelection_trans; [|apply sendAllNotesOff_keeps].
    clear. keeps_by_cases s.
Qed.

Lemma sameScore_trans s1 s2 s3 : sameScore s1 s2 -> sameScore s2 s3 -> sameScore s1 s3.
Proof. unfold sameScore. intuition congruence. Qed.

Lemma handle_sameScore e s : sameScore s (handle e s).
Proof.
  destruct (handle_cases e s) as [Hk|(n & s1 & H1 & H2)]; [apply Hk|].
  eapply sameScore_trans; [apply H1|].
  eapply sameScore_trans; [apply highlightStep_settles|apply H2].
Qed.

Lemma handle_settled e s :
  settled s -> sameScore s (handle e s) /\ settled (handle e s).
Proof.
  intros Hs. split; [apply handle_sameScore|].
  destruct (handle_cases e s) as [Hk|(n & s1 & H1 & H2)].
  - apply (settled_keeps s); assumption.
  - apply (settled_keeps (highlightStep n s1)); [apply highlightStep_settles|exact H2].
Qed.

(** X2. Once the selection is in range and the highlight shows it (as it
    is after the initial [highlightStep(0)]), that stays so through every
    sequence of host messages, MIDI input, button clicks and timers: the
    selected index lies in [0, step count], the highlighted groups are those
    of the selected step, and the steps, their pitches, the analysis, the
    baseline and the bound output are never rewritten. *)
Theorem selection_stays_settled (es : list Event) (s : Viewer) :
  settled s ->
  settled (run es s) /\ sameScore s (run es s).
Proof.
  revert s. induction es as [|e es IH]; intros s Hs.
  - split; [exact Hs|]. unfold sameScore. repeat split; reflexivity.
  - change (run (e :: es) s) with (run es (handle e s)).
    destruct (handle_settled e s Hs) as [Hsc Hst].
    destruct (IH _ Hst) as [IH1 IH2]. split; [exact IH1|].
    unfold sameScore in *. intuition congruence.
Qed.

Lemma selection_stays_settled_witness :
  highlightedStep
    (run [Message (HarmonyActivate (Some (Int 1))); Midi [0xb0; 22; 9]; NextClick;
          Message HarmonyDeactivate; TimerFires]
         (demoViewer true false (Some demoPort))) = 0
  /\ settled (run [Message (HarmonyActivate (Some (Int 1))); Midi [0xb0; 22; 9];
                   NextClick; Message HarmonyDeactivate; TimerFires]
                  (demoViewer true false (Some demoPort))).
Proof.
  split; [reflexivity|].
  apply (selection_stays_settled _ (demoViewer true false (Some demoPort))).
  split; [split; discriminate|reflexivity].
Defined.

(** *** Sounding a step *)

(** The pitches cached for a step. *)
Definition pitchesOf (k : Z) (s : Viewer) : list Z :=
  default [] (at1 (stepPitches s) k).

(** X3. An active viewer with a bound output that selects a step [k] in
    1..count sends one Note-On (channel 0, velocity 100) per cached pitch of
    that step, each pitch clamped into 0..127, and arms exactly one 80 ms
    timer; when that timer fires an all-notes-off follows, so the notes of a
    selection are always released. *)
Theorem active_selection_sounds_step (k : Z) (s : Viewer) (p : Port) :
  isActiveViewer s = true ->
  midiOut s = Some p ->
  0 < k <= stepCount s ->
  emitted s (selectStep k s) = map noteOn (pitchesOf k s)
  /\ timers (selectStep k s) = timers s ++ [0]
  /\ (timers s = [] ->
      emitted s (fireTimer (selectStep k s))
        = map noteOn (pitchesOf k s) ++ [allNotesOff]
      /\ timers (fireTimer (selectStep k s)) = []).
Proof.
  intros Hact Hout Hk. unfold selectStep.
  assert (Hc : clampInt (Int k) 0 (stepCount s) = k) by (cbn; lia).
  assert (Hpos : (0 <? k) = true) by (apply Z.ltb_lt; lia).
  pose proof (highlightStep_effect (Int k) s) as E. cbn zeta in E.
  rewrite Hc in E. unfold stepOutput, stepTimers in E.
  rewrite Hout, Hact, Hpos in E. cbn [andb] in E. fold (pitchesOf k s) in E.
  rewrite E. split; [apply emitted_app; reflexivity|]. split; [reflexivity|].
  intros Ht. unfold fireTimer.
  cbn [timers set_posted set_timers]. rewrite Ht. cbn [app].
  rewrite sendAllNotesOff_sent.
  cbn [midiOut set_timers set_posted set_sent set_overlay set_highlighted
       set_highlightedStep].
  rewrite Hout. split; [|reflexivity].
  apply emitted_app. cbn [sent set_sent set_timers set_posted].
  rewrite <- app_assoc. reflexivity.
Qed.

Lemma active_selection_sounds_step_witness :
  emitted (demoViewer true true (Some demoPort))
          (fireTimer (selectStep 2 (demoViewer true true (Some demoPort))))
  = [[0x90; 62; 100]; [0x90; 65; 100]; allNotesOff].
Proof.
  assert (H : 0 < 2 <= stepCount (demoViewer true true (Some demoPort)))
    by (split; [reflexivity|discriminate]).
  exact (proj1 (proj2 (proj2 (active_selection_sounds_step
                                2 (demoViewer true true (Some demoPort)) demoPort
                                eq_refl eq_refl H)) eq_refl)).
Defined.

(** *** Activation *)

(** X4. With a bound output, [harmony-activate] makes the viewer active,
    stores the slide index clamped into 0..127 (0 when the message carries
    none or a non-finite one) and sends, in this order: Control Change 23 with
    the step count capped at 127, Control Change 24 with the stored slide
    index, then the output of the current selection (its notes, or an
    all-notes-off when nothing is selected).  An embedded viewer reports its
    height twice. *)
Theorem activate_reports_and_resounds (slideIndex : option num) (s : Viewer) (p : Port) :
  midiOut s = Some p ->
  let s' := onMessage (HarmonyActivate slideIndex) s in
  let c := clampInt (Int (highlightedStep s)) 0 (stepCount s) in
  isActiveViewer s' = true
  /\ currentSlideIndex s' = clampInt (default (Int 0) slideIndex) 0 127
  /\ emitted s s'
     = [0xb0; 23; Z.min 127 (stepCount s)]
       :: [0xb0; 24; currentSlideIndex s']
       :: (if 0 <? c then map noteOn (pitchesOf c s) else [allNotesOff])
  /\ posted s' = posted s ++ heightReport s ++ heightReport s.
Proof.
  intros Hout s' c. subst s'. cbn [onMessage].
  set (v := clampInt (default (Int 0) slideIndex) 0 127).
  unfold sendStepCountCc, sendSlideIndexCc, notifyParentOfHeight.
  cbn [isActiveViewer set_currentSlideIndex set_isActiveViewer negb currentSlideIndex].
  rewrite !sendCC_effect.
  cbn [isActiveViewer set_sent set_currentSlideIndex set_isActiveViewer negb
       midiOut currentSlideIndex harmonicSteps sent].
  rewrite Hout. rewrite highlightStep_effect. cbn zeta.
  unfold stepOutput, stepTimers, heightReport, stepCount, pitchesOf.
  cbn [isActiveViewer set_sent set_currentSlideIndex set_isActiveViewer
       midiOut currentSlideIndex harmonicSteps sent highlightedStep stepPitches
       IS_EMBEDDED layout posted set_posted set_timers set_overlay
       set_highlighted set_highlightedStep andb].
  rewrite Hout. fold (stepCount s). fold c.
  assert (Hcount : clampInt (Int (stepCount s)) 0 127 = Z.min 127 (stepCount s)).
  { unfold stepCount. cbn. lia. }
  rewrite Hcount.
  change (Z.lor 176 (Z.land 0 15)) with 176.
  change (Z.land 23 127) with 23. change (Z.land 24 127) with 24.
  assert (Hv : clampInt (Int v) 0 127 = v).
  { subst v. pose proof (clampInt_range (default (Int 0) slideIndex) 0 127 ltac:(lia)).
    cbn. lia. }
  rewrite Hv.
  destruct (IS_EMBEDDED s) eqn:Hemb;
    cbn [isActiveViewer currentSlideIndex set_posted set_timers set_sent set_overlay
         set_highlighted set_highlightedStep set_currentSlideIndex
         set_isActiveViewer posted sent IS_EMBEDDED layout app];
    rewrite ?Hemb;
    (split; [reflexivity|]); (split; [reflexivity|]);
    (split; [apply emitted_app; cbn [sent set_posted set_timers set_sent];
             rewrite <- !app_assoc; reflexivity|]);
    cbn [posted set_posted]; rewrite <- ?app_assoc, ?app_nil_r; reflexivity.
Qed.

Lemma activate_reports_and_resounds_witness :
  emitted (demoViewer true false (Some demoPort))
          (activate 205 (demoViewer true false (Some demoPort)))
  = [[0xb0; 23; 2]; [0xb0; 24; 127]; allNotesOff].
Proof.
  exact (proj1 (proj2 (proj2 (activate_reports_and_resounds
                                (Some (Int 205)) (demoViewer true false (Some demoPort))
                                demoPort eq_refl)))).
Defined.

(** *** The debug button and the controller *)

(** X6. The debug button steps through 0, 1, ..., count and back to 0:
    from a selection in range the next selection is the successor modulo
    count + 1, so after the last step the highlight is cleared, not wrapped
    to the first step. *)
Theorem next_click_cycles (s : Viewer) :
  0 <= highlightedStep s <= stepCount s ->
  highlightedStep (onNextClick s) = (highlightedStep s + 1) mod (stepCount s + 1).
Proof.
  intros Hr. unfold onNextClick. rewrite highlightStep_effect. cbn zeta.
  cbn [highlightedStep set_posted set_timers set_sent set_overlay set_highlighted
       set_highlightedStep].
  fold (stepCount s).
  destruct (Z.ltb_spec (stepCount s) (highlightedStep s + 1)) as [Hlt|Hge].
  - assert (highlightedStep s + 1 = stepCount s + 1) as -> by lia.
    rewrite Z.mod_same by lia. cbn. lia.
  - rewrite Z.mod_small by lia. cbn. lia.
Qed.

Lemma next_click_cycles_witness :
  highlightedStep (onNextClick (onNextClick (onNextClick
                     (demoViewer false true None)))) = 0.
Proof.
  pose proof (next_click_cycles
                (onNextClick (onNextClick (demoViewer false true None)))) as H.
  apply H. split; vm_compute; discriminate.
Defined.

(** X7. For a viewer that listens (active, or not embedded), a Control
    Change 22 on any of the sixteen channels selects the step named by the low
    seven bits of its value, exactly as [selectStep] does: clamping the value
    before the call changes nothing, and a value above the step count selects
    the last step. *)
Theorem step_select_on_any_channel (status cc value : Z) (s : Viewer) :
  isActiveViewer s = true \/ IS_EMBEDDED s = false ->
  Z.land status 0xf0 = 0xb0 ->
  Z.land cc 0x7f = 22 ->
  handleMidiMessage [status; cc; value] s = selectStep (Z.land value 0x7f) s
  /\ highlightedStep (handleMidiMessage [status; cc; value] s)
     = Z.min (Z.land value 0x7f) (stepCount s).
Proof.
  intros Hlisten Hst Hcc. unfold handleMidiMessage, selectStep.
  assert (Hgate : negb (isActiveViewer s) && IS_EMBEDDED s = false).
  { destruct Hlisten as [-> | ->]; [reflexivity|apply andb_false_r]. }
  rewrite Hgate. cbn zeta.
  change (byteAt [status; cc; value] 0) with status.
  change (byteAt [status; cc; value] 1) with cc.
  change (byteAt [status; cc; value] 2) with value.
  rewrite Hst, Hcc. cbn [Z.eqb Pos.eqb].
  fold (stepCount s).
  pose proof (land_7f_range value) as Hv.
  assert (Hidem : clampInt (Int (clampInt (Int (Z.land value 0x7f)) 0 (stepCount s)))
                           0 (stepCount s)
                  = clampInt (Int (Z.land value 0x7f)) 0 (stepCount s)).
  { unfold stepCount. cbn. lia. }
  rewrite !highlightStep_effect. cbn zeta. rewrite Hidem.
  split; [reflexivity|].
  cbn [highlightedStep set_posted set_timers set_sent set_overlay set_highlighted
       set_highlightedStep].
  unfold stepCount in *. cbn. lia.
Qed.

Lemma step_select_on_any_channel_witness :
  highlightedStep (handleMidiMessage [0xb5; 22; 100] (demoViewer true true None)) = 2.
Proof.
  exact (proj2 (step_select_on_any_channel 0xb5 22 100 (demoViewer true true None)
                  (or_introl eq_refl) eq_refl eq_refl)).
Defined.

(** *** Pitches of a step *)

(** X8. The pitches of a step depend only on which note ids the step holds:
    two id lists with the same members, in whatever order and with whatever
    repetitions, resolve to the same pitch list. *)
Theorem resolvePitches_ignores_order (tk : Toolkit) (ids ids' : list string) :
  (forall noteId, noteId ∈ ids <-> noteId ∈ ids') ->
  resolvePitches tk ids = resolvePitches tk ids'.
Proof.
  intros Hsame.
  pose proof (resolvePitches_spec tk ids) as H.
  pose proof (resolvePitches_spec tk ids') as H'.
  destruct (resolvePitches tk ids) as [l|], (resolvePitches tk ids') as [l'|].
  - destruct H as (Hs & Hm & _), H' as (Hs' & Hm' & _). f_equal.
    assert (Hnd : forall l, StronglySorted Z.lt l -> NoDup l).
    { induction 1 as [|x l0 _ IH Hall]; constructor; [|exact IH].
      intros Hx. rewrite Forall_forall in Hall. specialize (Hall x Hx). lia. }
    assert (Hanti : AntiSymm (=) Z.lt) by (intros a b; lia).
    apply (StronglySorted_unique Z.lt); [exact Hs|exact Hs'|].
    apply NoDup_Permutation; [auto|auto|].
    intros x. rewrite Hm, Hm'. split; intros (n & Hn & E); exists n;
      (split; [apply Hsame, Hn|exact E]).
  - destruct H as (_ & _ & Hu), H' as (n & Hn & E).
    exfalso. apply (Hu n); [apply Hsame, Hn|exact E].
  - destruct H as (n & Hn & E), H' as (_ & _ & Hu).
    exfalso. apply (Hu n); [apply Hsame, Hn|exact E].
  - reflexivity.
Qed.

Lemma resolvePitches_ignores_order_witness :
  resolvePitches (fun _ => Attr {| pname := Some "e"%string; oct := Some "4"%string;
                                   pitch := None |})
                 ["a"%string; "b"%string; "a"%string]
  = resolvePitches (fun _ => Attr {| pname := Some "e"%string; oct := Some "4"%string;
                                     pitch := None |})
                   ["b"%string; "a"%string].
Proof.
  apply resolvePitches_ignores_order. intros noteId.
  rewrite !elem_of_cons, !elem_of_nil. tauto.
Defined.

(** *** The overlay of the gated viewer *)

(** A visible overlay sits 6 pixels below the shared baseline, in viewer
    coordinates. *)
Definition onBaseline (s : Viewer) (o : Overlay) : Prop :=
  ovHidden o = false ->
  exists y, truthyBaseline (globalAnalysisBaselineY s) = Some y
            /\ ovTop o = (y - rTop (viewerRect (layout s)) + 6)%Q.

Lemma overlayOf_onBaseline c s : onBaseline s (overlayOf c s).
Proof.
  unfold onBaseline, overlayOf, updateAnalysisOverlay.
  repeat case_match; cbn; intros Hvis; try discriminate; eauto.
Qed.

Lemma onBaseline_ext s s' o :
  sameScore s s' -> onBaseline s o -> onBaseline s' o.
Proof.
  unfold onBaseline, sameScore. intros (_ & _ & _ & _ & Hb & Hl & _) H Hv.
  rewrite Hb, Hl. auto.
Qed.

(** X9. In the gated viewer all visible overlays share one vertical
    position: starting with a hidden overlay, after any sequence of events a
    visible overlay stands at the baseline computed at load time minus the top
    of the viewer plus 6 pixels, whichever step it annotates; and an overlay
    is never shown while that baseline is unknown or zero. *)
Theorem visible_overlay_on_baseline (es : list Event) (s : Viewer) :
  ovHidden (overlay s) = true ->
  ovHidden (overlay (run es s)) = false ->
  exists y, truthyBaseline (globalAnalysisBaselineY s) = Some y
            /\ ovTop (overlay (run es s)) = (y - rTop (viewerRect (layout s)) + 6)%Q.
Proof.
  intros Hhid.
  assert (H0 : onBaseline s (overlay s)) by (intros H; congruence).
  clear Hhid.
  assert (G : forall es s', sameScore s s' -> onBaseline s (overlay s') ->
                            onBaseline s (overlay (run es s'))).
  { clear es H0. induction es as [|e es IH]; intros s' Hsc H; [exact H|].
    change (run (e :: es) s') with (run es (handle e s')).
    pose proof (handle_sameScore e s') as Hsc'.
    apply IH; [eapply sameScore_trans; eassumption|].
    destruct (handle_cases e s') as [Hk|(n & s1 & H1 & H2)].
    - destruct Hk as (_ & _ & _ & ->). exact H.
    - destruct H2 as (_ & _ & _ & ->). rewrite highlightStep_effect. cbn zeta.
      cbn [overlay set_posted set_timers set_sent set_overlay].
      assert (Hs1 : sameScore s s1) by (eapply sameScore_trans; [exact Hsc|apply H1]).
      assert (Hback : sameScore s1 s) by (unfold sameScore in *; intuition congruence).
      apply (onBaseline_ext s1 s); [exact Hback|]. apply overlayOf_onBaseline. }
  apply (G es s); [unfold sameScore; repeat split; reflexivity|exact H0].
Qed.

Lemma visible_overlay_on_baseline_witness :
  exists y, truthyBaseline (globalAnalysisBaselineY (demoViewer true true None)) = Some y
            /\ ovTop (overlay (run [Midi [0xb0; 22; 1]; Midi [0xb0; 22; 2]]
                                   (demoViewer true true None)))
               = (y - rTop (viewerRect (layout (demoViewer true true None))) + 6)%Q.
Proof.
  exact (visible_overlay_on_baseline [Midi [0xb0; 22; 1]; Midi [0xb0; 22; 2]]
           (demoViewer true true None) eq_refl eq_refl).
Defined.

(** X10. The shared baseline lies 10 pixels below the lowest element: it is
    unknown exactly when there is no SVG or no notehead or note element, and
    otherwise it is the bottom of one of the elements plus 10 and no element
    reaches lower. *)
Theorem baseline_below_every_element (rs : list Rect) :
  match computeGlobalAnalysisBaselineY (Some rs) with
  | None => rs = []
  | Some y =>
    (exists r, r ∈ rs /\ y = (rBottom r + 10)%Q)
    /\ forall r, r ∈ rs -> (rBottom r + 10 <= y)%Q
  end
  /\ computeGlobalAnalysisBaselineY None = None.
Proof.
  split; [|reflexivity].
  unfold computeGlobalAnalysisBaselineY.
  set (f := fun (m : option Q) (r : Rect) =>
              match m with
              | None => Some (rBottom r)
              | Some b => if Qlt_le_dec b (rBottom r) then Some (rBottom r) else Some b
              end).
  assert (G : forall rs seen m,
             match m with
             | None => seen = []
             | Some b => (exists r, r ∈ seen /\ b = rBottom r)
                         /\ forall r, r ∈ seen -> (rBottom r <= b)%Q
             end ->
             match foldl f m rs with
             | None => seen ++ rs = []
             | Some b => (exists r, r ∈ seen ++ rs /\ b = rBottom r)
                         /\ forall r, r ∈ seen ++ rs -> (rBottom r <= b)%Q
             end).
  { clear rs. induction rs as [|r rs IH]; intros seen m Hm.
    - cbn. rewrite app_nil_r. exact Hm.
    - cbn [foldl]. replace (seen ++ r :: rs) with ((seen ++ [r]) ++ rs)
        by (rewrite <- app_assoc; reflexivity).
      apply IH. destruct m as [b|]; cbn.
      + destruct Hm as [(r0 & Hr0 & Eb) Hmax].
        destruct (Qlt_le_dec b (rBottom r)) as [Hlt|Hle].
        * split; [exists r; split; [apply elem_of_app; right; apply list_elem_of_here|reflexivity]|].
          intros r' Hr'. apply elem_of_app in Hr' as [Hr'|Hr'].
          -- apply Qle_trans with b; [auto|apply Qlt_le_weak, Hlt].
          -- apply list_elem_of_singleton in Hr'. subst. apply Qle_refl.
        * split; [exists r0; split; [apply elem_of_app; left; exact Hr0|exact Eb]|].
          intros r' Hr'. apply elem_of_app in Hr' as [Hr'|Hr']; [auto|].
          apply list_elem_of_singleton in Hr'. subst. exact Hle.
      + subst seen. split; [exists r; split; [apply list_elem_of_here|reflexivity]|].
        intros r' Hr'. apply list_elem_of_singleton in Hr'. subst. apply Qle_refl. }
  specialize (G rs [] None eq_refl). cbn [app] in G.
  destruct (foldl f None rs) as [b|]; [|exact G].
  destruct G as [(r & Hr & ->) Hmax]. split; [eauto|].
  intros r' Hr'. apply Qplus_le_l, Hmax, Hr'.
Qed.

(** *** Geometric step detection *)

Definition byKey (a b : Z * list string) : Prop := fst a <= fst b.

#[local] Instance byKey_transitive : Transitive byKey.
Proof. intros a b c. unfold byKey. lia. Qed.

#[local] Instance byKey_total : Total byKey.
Proof. intros a b. unfold byKey. lia. Qed.

(** What the [Map] holds after some entries: distinct keys, no empty
    bucket, every processed id in exactly one place, and every id under the
    key of one of its entries. *)
Definition bucketsOf (done : list (string * Q)) (b : list (Z * list string)) : Prop :=
  NoDup (map fst b)
  /\ Forall (fun kb => snd kb <> []) b
  /\ concat (map snd b) ≡ₚ map fst done
  /\ Forall (fun kb => forall id, id ∈ snd kb ->
                                  exists x, (id, x) ∈ done /\ bucketOf (id, x) = fst kb) b.

Lemma bucketPush_keys k id b :
  forall k', k' ∈ map fst (bucketPush k id b) <-> k' = k \/ k' ∈ map fst b.
Proof.
  induction b as [|[k0 ids] b IH]; intros k'; cbn.
  - rewrite list_elem_of_singleton, elem_of_nil. tauto.
  - destruct (Z.eqb_spec k k0) as [->|Hne]; cbn.
    + rewrite elem_of_cons. tauto.
    + rewrite !elem_of_cons, IH. tauto.
Qed.

Lemma bucketPush_spec e done b :
  bucketsOf done b ->
  bucketsOf (done ++ [e]) (bucketPush (bucketOf e) (fst e) b).
Proof.
  destruct e as [id x]. cbn [fst]. remember (bucketOf (id, x)) as k eqn:Hkdef.
  unfold bucketsOf. intros (Hnd & Hne & Hperm & Hin).
  assert (Hweak : forall kb : Z * list string,
             (forall i, i ∈ snd kb -> exists y, (i, y) ∈ done /\ bucketOf (i, y) = fst kb) ->
             forall i, i ∈ snd kb ->
                       exists y, (i, y) ∈ done ++ [(id, x)] /\ bucketOf (i, y) = fst kb).
  { intros kb H i Hi. destruct (H i Hi) as (y & Hy & E). exists y.
    split; [apply elem_of_app; left; exact Hy|exact E]. }
  rewrite map_app. cbn [map fst]. rewrite <- Hperm. clear Hperm.
  induction b as [|[k0 ids] b IH]; cbn.
  - repeat split.
    + repeat constructor. apply not_elem_of_nil.
    + repeat constructor. discriminate.
    + reflexivity.
    + repeat constructor. cbn. intros i Hi. apply list_elem_of_singleton in Hi as ->.
      exists x. split; [apply elem_of_app; right; apply list_elem_of_here|].
      symmetry. exact Hkdef.
  - cbn in Hnd. apply NoDup_cons in Hnd as [Hk0 Hnd].
    apply Forall_cons in Hne as [Hne0 Hne]. apply Forall_cons in Hin as [Hin0 Hin].
    destruct (Z.eqb_spec k k0) as [Ek|Hk]; simpl.
    + repeat split.
      * constructor; assumption.
      * constructor; [|exact Hne]. cbn. destruct ids; discriminate.
      * rewrite <- !app_assoc. apply Permutation_app_head.
        cbn. rewrite <- Permutation_cons_append. reflexivity. 
      * constructor; [|eapply Forall_impl; [exact Hin|exact Hweak]].
        cbn in *. intros i Hi. apply elem_of_app in Hi as [Hi|Hi].
        -- apply (Hweak (k0, ids)); assumption.
        -- apply list_elem_of_singleton in Hi as ->. exists x.
           split; [apply elem_of_app; right; apply list_elem_of_here|].
           rewrite <- Hkdef. exact Ek.
    + destruct (IH Hnd Hne Hin) as (IH1 & IH2 & IH3 & IH4). repeat split.
      * constructor; [|exact IH1]. rewrite bucketPush_keys. intros [E|E]; [|auto].
        apply Hk. symmetry. exact E.
      * constructor; assumption.
      * rewrite IH3, <- !app_assoc. reflexivity.
      * constructor; [apply (Hweak (k0, ids)); exact Hin0|exact IH4].
Qed.

Lemma fillBuckets_spec entries : bucketsOf entries (fillBuckets entries).
Proof.
  unfold fillBuckets.
  assert (G : forall es done b,
             bucketsOf done b ->
             bucketsOf (done ++ es)
                       (foldl (fun buckets e => bucketPush (bucketOf e) (fst e) buckets)
                              b es)).
  { induction es as [|e es IH]; intros done b Hb; cbn [foldl].
    - rewrite app_nil_r. exact Hb.
    - replace (done ++ e :: es) with ((done ++ [e]) ++ es)
        by (rewrite <- app_assoc; reflexivity).
      apply IH, bucketPush_spec, Hb. }
  apply (G entries [] []). unfold bucketsOf. cbn.
  repeat split; constructor.
Qed.

Lemma bucketsOf_Permutation done done' b b' :
  done ≡ₚ done' -> b ≡ₚ b' -> bucketsOf done b -> bucketsOf done' b'.
Proof.
  unfold bucketsOf. intros Hd Hb (H1 & H2 & H3 & H4).
  repeat split.
  - rewrite <- Hb. exact H1.
  - rewrite <- Hb. exact H2.
  - rewrite <- Hb, <- Hd. exact H3.
  - rewrite <- Hb. eapply Forall_impl; [exact H4|].
    intros kb H id Hid. destruct (H id Hid) as (x & Hx & E). exists x.
    split; [rewrite <- Hd; exact Hx|exact E].
Qed.

(** X11. The geometric step detection of the gated viewer partitions the
    notes by the bucket of their x coordinate ([Math.round(x / 3)]): every
    step is non-empty, every collected note id lands in exactly one step (the
    steps together are a rearrangement of the ids), the steps come in strictly
    increasing bucket order, and every id of a step belongs to an entry whose
    x falls in that step's bucket.  Without entries there are no steps. *)
Theorem buildHarmonicSteps_partitions (entries : list (string * Q)) :
  let buckets := sortBuckets (fillBuckets (sortEntries entries)) in
  buildHarmonicSteps entries = map snd buckets
  /\ StronglySorted Z.lt (map fst buckets)
  /\ Forall (fun step => step <> []) (buildHarmonicSteps entries)
  /\ concat (buildHarmonicSteps entries) ≡ₚ map fst entries
  /\ Forall (fun kb => forall id, id ∈ snd kb ->
                                  exists x, (id, x) ∈ entries
                                            /\ bucketOf (id, x) = fst kb) buckets
  /\ buildHarmonicSteps [] = [].
Proof.
  intros buckets.
  assert (Hb : bucketsOf entries buckets).
  { apply (bucketsOf_Permutation (sortEntries entries) entries
                                 (fillBuckets (sortEntries entries)) buckets).
    - apply merge_sort_Permutation.
    - symmetry. apply merge_sort_Permutation.
    - apply fillBuckets_spec. }
  destruct Hb as (Hnd & Hne & Hperm & Hin).
  split; [reflexivity|]. split.
  { apply ascending_nodup_strict; [|exact Hnd].
    assert (Hs : StronglySorted byKey buckets)
      by (apply (StronglySorted_merge_sort byKey)).
    clear -Hs. induction Hs as [|kb l _ IH Hall]; cbn; constructor; [exact IH|].
    apply Forall_fmap. exact Hall. }
  split.
  { unfold buildHarmonicSteps. fold buckets. apply Forall_fmap. exact Hne. }
  split; [exact Hperm|]. split; [exact Hin|reflexivity].
Qed.

End GatedBehaviour.

(** ** The overlay viewer as a transition system *)

Section BaselineBehaviour.
Import Baseline.

(** *** The box of a step *)

(** X12. The box of a step encloses every notehead of the step and touches
    one on each measured side: its left edge is the smallest left, its right
    edge the largest right, its lower edge the largest bottom.  There is a box
    exactly for an existing, non-empty step. *)
Theorem step_box_encloses_noteheads (index : Z) (s : Viewer) :
  match getStepScreenBBox index s with
  | None => at1 (steps s) index = None \/ at1 (steps s) index = Some []
  | Some bbox =>
    exists step,
      at1 (steps s) index = Some step
      /\ (forall u, u ∈ step ->
            (minX bbox <= rLeft (rectOf (layout s) u))%Q
            /\ (rRight (rectOf (layout s) u) <= maxX bbox)%Q
            /\ (rBottom (rectOf (layout s) u) <= maxY bbox)%Q)
      /\ (exists u, u ∈ step /\ minX bbox = rLeft (rectOf (layout s) u))
      /\ (exists u, u ∈ step /\ maxX bbox = rRight (rectOf (layout s) u))
      /\ (exists u, u ∈ step /\ maxY bbox = rBottom (rectOf (layout s) u))
  end.
Proof.
  unfold getStepScreenBBox.
  destruct (at1 (steps s) index) as [[|u0 rest]|]; [right; reflexivity| |left; reflexivity].
  exists (u0 :: rest). split; [reflexivity|].
  set (rect := rectOf (layout s)).
  set (f := fun (b : BBox) (v : Dom.Handle) =>
              {| minX := Qmin (minX b) (rLeft (rect v));
                 maxX := Qmax (maxX b) (rRight (rect v));
                 maxY := Qmax (maxY b) (rBottom (rect v)) |}).
  assert (G : forall rest seen b,
             ((forall u, u ∈ seen ->
                 (minX b <= rLeft (rect u))%Q /\ (rRight (rect u) <= maxX b)%Q
                 /\ (rBottom (rect u) <= maxY b)%Q)
              /\ (exists u, u ∈ seen /\ minX b = rLeft (rect u))
              /\ (exists u, u ∈ seen /\ maxX b = rRight (rect u))
              /\ (exists u, u ∈ seen /\ maxY b = rBottom (rect u))) ->
             let b' := foldl f b rest in
             (forall u, u ∈ seen ++ rest ->
                 (minX b' <= rLeft (rect u))%Q /\ (rRight (rect u) <= maxX b')%Q
                 /\ (rBottom (rect u) <= maxY b')%Q)
             /\ (exists u, u ∈ seen ++ rest /\ minX b' = rLeft (rect u))
             /\ (exists u, u ∈ seen ++ rest /\ maxX b' = rRight (rect u))
             /\ (exists u, u ∈ seen ++ rest /\ maxY b' = rBottom (rect u))).
  { clear. induction rest as [|v rest IH]; intros seen b Hb; cbn zeta.
    - cbn [foldl]. rewrite app_nil_r. exact Hb.
    - cbn [foldl]. replace (seen ++ v :: rest) with ((seen ++ [v]) ++ rest)
        by (rewrite <- app_assoc; reflexivity).
      apply IH. destruct Hb as (Hall & (ul & Hul & El) & (ur & Hur & Er) & (ub & Hub & Eb)).
      unfold f; cbn [minX maxX maxY]. repeat split.
      + apply elem_of_app in H as [H|H].
        * apply Qle_trans with (minX b); [apply Q.le_min_l|apply Hall, H].
        * apply list_elem_of_singleton in H as ->. apply Q.le_min_r.
      + apply elem_of_app in H as [H|H].
        * apply Qle_trans with (maxX b); [apply Hall, H|apply Q.le_max_l].
        * apply list_elem_of_singleton in H as ->. apply Q.le_max_r.
      + apply elem_of_app in H as [H|H].
        * apply Qle_trans with (maxY b); [apply Hall, H|apply Q.le_max_l].
        * apply list_elem_of_singleton in H as ->. apply Q.le_max_r.
      + unfold Qmin, GenericMinMax.gmin. destruct (_ ?= _)%Q.
        * exists ul. split; [apply elem_of_app; left; assumption|exact El].
        * exists ul. split; [apply elem_of_app; left; assumption|exact El].
        * exists v. split; [apply elem_of_app; right; apply list_elem_of_here|reflexivity].
      + unfold Qmax, GenericMinMax.gmax. destruct (_ ?= _)%Q.
        * exists ur. split; [apply elem_of_app; left; assumption|exact Er].
        * exists v. split; [apply elem_of_app; right; apply list_elem_of_here|reflexivity].
        * exists ur. split; [apply elem_of_app; left; assumption|exact Er].
      + unfold Qmax, GenericMinMax.gmax. destruct (_ ?= _)%Q.
        * exists ub. split; [apply elem_of_app; left; assumption|exact Eb].
        * exists v. split; [apply elem_of_app; right; apply list_elem_of_here|reflexivity].
        * exists ub. split; [apply elem_of_app; left; assumption|exact Eb]. }
  apply (G rest [u0]). cbn [minX maxX maxY]. repeat split.
  1-3: apply list_elem_of_singleton in H as ->; apply Qle_refl.
  all: exists u0; split; [apply list_elem_of_here|reflexivity].
Qed.

(** *** Selection, highlight and overlay *)

Definition stepTotal (s : Viewer) : Z := Z.of_nat (length (steps s)).

(** The highlight shows the current step, which is in range, and no
    overlay is visible while no step is selected. *)
Definition shows (s : Viewer) : Prop :=
  0 <= currentStep s <= stepTotal s
  /\ highlighted s = default [] (at1 (steps s) (currentStep s))
  /\ (currentStep s = 0 -> ovHidden (overlay s) = true).

(** The handlers that select nothing keep these four. *)
Definition sameSelection (s s' : Viewer) : Prop :=
  steps s' = steps s /\ currentStep s' = currentStep s
  /\ highlighted s' = highlighted s /\ overlay s' = overlay s.

Lemma shows_same s s' : shows s -> sameSelection s s' -> shows s'.
Proof.
  unfold shows, sameSelection, stepTotal. intros (H1 & H2 & H3) (E1 & E2 & E3 & E4).
  rewrite E1, E2, E3, E4. auto.
Qed.

Lemma updateOverlayForStep_frame index s :
  steps (updateOverlayForStep index s) = steps s
  /\ currentStep (updateOverlayForStep index s) = currentStep s
  /\ highlighted (updateOverlayForStep index s) = highlighted s
  /\ analysisData (updateOverlayForStep index s) = analysisData s
  /\ layout (updateOverlayForStep index s) = layout s
  /\ sent (updateOverlayForStep index s) = sent s
  /\ posted (updateOverlayForStep index s) = posted s.
Proof.
  unfold updateOverlayForStep, positionOverlayAtStep, hide.
  repeat case_match; repeat split; reflexivity.
Qed.

Lemma highlightStep_shows n s :
  shows (highlightStep n s) /\ steps (highlightStep n s) = steps s.
Proof.
  unfold highlightStep, clearHighlight, shows, stepTotal. cbn zeta.
  cbn [steps set_highlighted].
  destruct (Z.leb_spec n 0) as [Hle|Hgt]; cbn [orb].
  - unfold hide. cbn. repeat split; try reflexivity; lia.
  - destruct (Z.ltb_spec (Z.of_nat (length (steps s))) n) as [Hlt|Hge].
    + unfold hide. cbn. repeat split; try reflexivity; lia.
    + destruct (updateOverlayForStep_frame n
                  (set_currentStep n (set_highlighted (default [] (at1 (steps s) n))
                                        (set_highlighted [] s))))
        as (E1 & E2 & E3 & _).
      rewrite E1, E2, E3. cbn. repeat split; try reflexivity; lia.
Qed.

Ltac same_by_cases s :=
  destruct s as [? ? ? ? ? ? [?|] ? ? ? ? ? ? ? ?];
  cbn; repeat case_match; repeat split; reflexivity.

Lemma sendStepCount_same s : sameSelection s (sendStepCount s).
Proof. unfold sendStepCount. same_by_cases s. Qed.

Lemma maybeSendStepCount_same s : sameSelection s (maybeSendStepCount s).
Proof.
  unfold maybeSendStepCount. destruct (_ || _); [same_by_cases s|apply sendStepCount_same].
Qed.

Lemma sendSlideIndex_same i s : sameSelection s (sendSlideIndex i s).
Proof. unfold sendSlideIndex. same_by_cases s. Qed.

Lemma onResize_shows lay s : shows s -> shows (onResize lay s).
Proof.
  intros (H1 & H2 & H3).
  unfold onResize, notifyParentOfHeight, repositionOverlayForCurrentStep.
  cbn [currentStep set_layout set_globalBaselineY].
  unfold shows, stepTotal.
  destruct (Z.ltb_spec 0 (currentStep s)) as [Hpos|Hzero].
  - destruct (updateOverlayForStep_frame (currentStep s)
                (set_layout lay (set_globalBaselineY None s))) as (E1 & E2 & E3 & _).
    cbn [steps currentStep highlighted overlay set_posted].
    rewrite E1, E2, E3. cbn [steps currentStep highlighted set_layout set_globalBaselineY].
    repeat split; try assumption; try apply H1. intros E. lia.
  - cbn. repeat split; try assumption; apply H1.
Qed.

Lemma handle_shows e s :
  (forall data, e = Midi data -> (3 <= length data)%nat) ->
  shows s -> shows (handle e s) /\ steps (handle e s) = steps s.
Proof.
  intros Hfull Hs. destruct e as [data|lay|slideIndex lay|]; cbn [handle].
  - specialize (Hfull data eq_refl). unfold handleMIDIIn. cbn zeta.
    destruct (negb _); [auto|]. case_bool_decide; [|auto].
    destruct data as [|b0 [|b1 [|b2 data]]]; cbn in Hfull; try lia.
    cbn [lookup list_lookup]. apply highlightStep_shows.
  - split; [apply onResize_shows, Hs|].
    unfold onResize, notifyParentOfHeight, repositionOverlayForCurrentStep.
    cbn [steps set_posted currentStep set_layout set_globalBaselineY].
    destruct (0 <? currentStep s); [|reflexivity].
    rewrite (proj1 (updateOverlayForStep_frame _ _)). reflexivity.
  - unfold onRevealSlideVisible, notifyParentOfHeight.
    set (s1 := match slideIndex with Some i => sendSlideIndex i s | None => s end).
    assert (H1 : sameSelection s s1).
    { subst s1. destruct slideIndex; [apply sendSlideIndex_same|].
      unfold sameSelection. repeat split; reflexivity. }
    pose proof (maybeSendStepCount_same s1) as H2.
    destruct (highlightStep_shows 0 (maybeSendStepCount s1)) as [H3 H4].
    split.
    + eapply shows_same; [exact H3|]. unfold sameSelection. repeat split; reflexivity.
    + cbn [steps set_posted set_layout set_globalBaselineY].
      rewrite H4. destruct H2 as [-> _]. apply H1.
  - apply highlightStep_shows.
Qed.

(** X13. In the overlay viewer the highlight always shows the current
    step: through any sequence of complete MIDI messages, resizes, slide
    entries and button clicks the current step stays in [0, step count], the
    highlighted noteheads are exactly those of the current step (none for step
    0), no overlay is visible while no step is selected, and the step list is
    never rewritten. *)
Theorem highlight_shows_current_step (es : list Event) (s : Viewer) :
  shows s ->
  Forall (fun e => forall data, e = Midi data -> (3 <= length data)%nat) es ->
  shows (run es s) /\ steps (run es s) = steps s.
Proof.
  intros Hs Hes. revert s Hs.
  induction Hes as [|e es He _ IH]; intros s Hs; [auto|].
  change (run (e :: es) s) with (run es (handle e s)).
  destruct (handle_shows e s He Hs) as [Hs' Hsteps].
  destruct (IH _ Hs') as [IH1 IH2]. split; [exact IH1|congruence].
Qed.

Lemma highlight_shows_current_step_witness :
  highlighted (run [Midi [0xb0; 22; 2]; Resize (layout (demoScore None)); NextClick;
                    NextClick]
                   (demoScore None)) = [7%nat; 10%nat]
  /\ shows (run [Midi [0xb0; 22; 2]; Resize (layout (demoScore None)); NextClick;
                 NextClick]
                (demoScore None)).
Proof.
  split; [reflexivity|].
  apply (highlight_shows_current_step _ (demoScore None)).
  - split; [split; discriminate|]. split; reflexivity.
  - repeat constructor; intros data E; inversion E; subst; cbn; lia.
Defined.

(** X14. A [reveal-slide-visible] message resets the viewer whatever it
    showed before: no step selected, nothing highlighted, overlay hidden,
    baseline forgotten.  What it sends is, in this order, the slide index
    clamped into 0..127 on [CC_SLIDE] (only when the message carries a number
    and an output is bound) and the step count capped at 127 on [CC_COUNT]
    (only when steps and MIDI are ready and an output is bound); it then
    reports the height once. *)
Theorem slide_entry_resets (slideIndex : option Z) (lay : Layout) (s : Viewer) :
  let s' := onRevealSlideVisible slideIndex lay s in
  currentStep s' = 0
  /\ highlighted s' = []
  /\ ovHidden (overlay s') = true
  /\ globalBaselineY s' = None
  /\ layout s' = lay
  /\ sent s' = sent s
       ++ match slideIndex, midiOut s with
          | Some i, Some _ => [[0xb0; CC_SLIDE s; Z.max 0 (Z.min 127 i)]]
          | _, _ => []
          end
       ++ (if stepsReady s && midiReady s && bool_decide (is_Some (midiOut s))
           then [[0xb0; CC_COUNT s; Z.min 127 (stepTotal s)]] else [])
  /\ posted s' = posted s ++ [HarmonyResize (measuredHeight lay + 60)].
Proof.
  unfold onRevealSlideVisible, notifyParentOfHeight, maybeSendStepCount,
    sendStepCount, sendSlideIndex, highlightStep, clearHighlight, hide, stepTotal.
  destruct s as [? ? ? ? ? ? [p|] ready mready ? ? ? ? ? ?];
    destruct slideIndex as [i|], ready, mready; cbn;
    rewrite ?app_nil_r, <- ?app_assoc; repeat split; reflexivity.
Qed.

(** X15. The debug button of the overlay viewer cycles through the steps
    1, ..., count and never clears the selection: from a current step in range
    the next one is (current mod count) + 1.  With no steps it selects
    nothing. *)
Theorem overlay_next_click_cycles (s : Viewer) :
  0 <= currentStep s <= stepTotal s ->
  currentStep (onNextClick s)
  = if stepTotal s =? 0 then 0 else currentStep s mod stepTotal s + 1.
Proof.
  intros Hr. unfold onNextClick. cbn zeta. fold (stepTotal s).
  set (next := if stepTotal s <? currentStep s + 1 then 1 else currentStep s + 1).
  assert (Hnext : next = if stepTotal s =? 0 then 1
                         else currentStep s mod stepTotal s + 1).
  { subst next. destruct (Z.eqb_spec (stepTotal s) 0) as [E|E].
    - rewrite E in *. destruct (Z.ltb_spec 0 (currentStep s + 1)); lia.
    - destruct (Z.ltb_spec (stepTotal s) (currentStep s + 1)).
      + assert (currentStep s = stepTotal s) as -> by lia.
        rewrite Z.mod_same by lia. lia.
      + rewrite Z.mod_small by lia. lia. }
  clearbody next. subst next.
  unfold highlightStep, clearHighlight. cbn zeta. cbn [steps set_highlighted].
  fold (stepTotal s).
  destruct (Z.eqb_spec (stepTotal s) 0) as [E|E].
  - rewrite E. cbn. reflexivity.
  - pose proof (Z.mod_pos_bound (currentStep s) (stepTotal s) ltac:(lia)) as Hm.
    destruct (Z.leb_spec (currentStep s mod stepTotal s + 1) 0); [lia|].
    destruct (Z.ltb_spec (stepTotal s) (currentStep s mod stepTotal s + 1)); [lia|].
    cbn [orb].
    destruct (updateOverlayForStep_frame (currentStep s mod stepTotal s + 1)
                (set_currentStep (currentStep s mod stepTotal s + 1)
                   (set_highlighted
                      (default [] (at1 (steps s) (currentStep s mod stepTotal s + 1)))
                      (set_highlighted [] s)))) as (_ & E2 & _).
    rewrite E2. reflexivity.
Qed.

Lemma overlay_next_click_cycles_witness :
  currentStep (onNextClick (onNextClick (onNextClick (demoScore None)))) = 1.
Proof.
  pose proof (overlay_next_click_cycles (onNextClick (onNextClick (demoScore None)))) as H.
  apply H. split; discriminate.
Defined.

(** *** MIDI start-up *)

Definition countMessage (s : Viewer) : MidiMsg :=
  [0xb0; CC_COUNT s; Z.min 127 (stepTotal s)].

(** The loop of [initMIDI] over the outputs. *)
Definition bindLoop (name : string) (outputs : list Port) (s : Viewer) : Viewer :=
  foldl (fun s output =>
           if nameIncludes name output
           then maybeSendStepCount (bindOutput output s)
           else s)
        s outputs.

Lemma bind_and_send o s :
  stepsReady s = true ->
  maybeSendStepCount (bindOutput o s)
  = set_sent (sent s ++ [countMessage s]) (bindOutput o s).
Proof.
  intros Hr. unfold maybeSendStepCount, sendStepCount, countMessage, stepTotal.
  cbn [stepsReady midiReady bindOutput midiOut]. rewrite Hr. reflexivity.
Qed.

Lemma bindLoop_spec name outputs :
  forall s,
    stepsReady s = true ->
    let matching := filter (fun o => nameIncludes name o) outputs in
    let r := bindLoop name outputs s in
    stepsReady r = true /\ countMessage r = countMessage s
    /\ (matching = [] -> r = s)
    /\ (matching <> [] ->
        midiOut r = last matching /\ midiReady r = true
        /\ sent r = sent s ++ replicate (length matching) (countMessage s)).
Proof.
  induction outputs as [|o outputs IH]; intros s Hr; cbn zeta.
  - cbn. split; [exact Hr|]. split; [reflexivity|]. split; [reflexivity|].
    intros Hne. contradiction.
  - change (bindLoop name (o :: outputs) s)
      with (bindLoop name outputs
              (if nameIncludes name o then maybeSendStepCount (bindOutput o s) else s)).
    rewrite filter_cons.
    destruct (nameIncludes name o) eqn:Hm.
    + rewrite decide_True by exact I. rewrite (bind_and_send o s Hr).
      set (s1 := set_sent (sent s ++ [countMessage s]) (bindOutput o s)).
      destruct (IH s1 Hr) as (H1 & H2 & H3 & H4).
      split; [exact H1|]. split; [rewrite H2; reflexivity|].
      split; [discriminate|]. intros _.
      destruct (filter (fun o => nameIncludes name o) outputs) as [|o' rest] eqn:Hf.
      * rewrite (H3 eq_refl). repeat split; reflexivity.
      * destruct H4 as (E1 & E2 & E3); [discriminate|].
        split; [rewrite E1; reflexivity|]. split; [exact E2|].
        rewrite E3. subst s1. cbn [sent set_sent].
        change (countMessage (set_sent _ (bindOutput o s))) with (countMessage s).
        rewrite <- app_assoc. reflexivity.
    + rewrite decide_False by (intros []). apply IH, Hr.
Qed.

(** X16. MIDI start-up of the overlay viewer (steps ready): the output is
    bound by plain substring match on the port name, and the last matching
    output wins; without a match only the closing [maybeSendStepCount()]
    runs, which leaves a viewer whose MIDI was not ready exactly as it was.
    With k > 0 matching outputs the step count goes out k + 1 times, once per
    match and once more at the end. *)
Theorem initMIDI_binds_last_match (outputs : list Port) (name : string) (s : Viewer) :
  stepsReady s = true ->
  let matching := filter (fun o => nameIncludes name o) outputs in
  (matching = [] ->
   initMIDI outputs name s = maybeSendStepCount s
   /\ (midiReady s = false -> initMIDI outputs name s = s))
  /\ (matching <> [] ->
      midiOut (initMIDI outputs name s) = last matching
      /\ sent (initMIDI outputs name s)
         = sent s ++ replicate (length matching + 1) (countMessage s)).
Proof.
  intros Hr matching. unfold initMIDI. fold (bindLoop name outputs s).
  destruct (bindLoop_spec name outputs s Hr) as (H1 & H2 & H3 & H4).
  fold matching in H3, H4. split.
  - intros Hnone. rewrite (H3 Hnone). split; [reflexivity|].
    intros Hm. unfold maybeSendStepCount. rewrite Hm, orb_true_r. reflexivity.
  - intros Hsome. destruct (H4 Hsome) as (E1 & E2 & E3).
    destruct matching as [|m0 rest]; [contradiction|].
    assert (Hout : is_Some (midiOut (bindLoop name outputs s))).
    { rewrite E1. destruct (last_is_Some (m0 :: rest)) as [_ H]. apply H. discriminate. }
    destruct Hout as [p Hp].
    unfold maybeSendStepCount, sendStepCount. rewrite H1, E2, Hp.
    cbn [negb orb midiOut sent set_sent].
    split; [rewrite <- E1; reflexivity|].
    fold (stepTotal (bindLoop name outputs s)).
    change [176; CC_COUNT (bindLoop name outputs s);
            Z.min 127 (stepTotal (bindLoop name outputs s))]
      with (countMessage (bindLoop name outputs s)).
    rewrite H2, E3, <- app_assoc. f_equal.
    rewrite Nat.add_1_r. cbn [length]. 
    change (replicate (S (length rest)) (countMessage s) ++ [countMessage s])
      with (replicate (S (length rest)) (countMessage s) ++ replicate 1 (countMessage s)).
    rewrite <- replicate_add. f_equal. lia.
Qed.

Lemma initMIDI_binds_last_match_witness :
  midiOut (initMIDI [ {| portName := "IAC Browser→Max"; portId := 1 |};
                      {| portName := "Other"; portId := 2 |};
                      {| portName := "Loop Browser→Max 2"; portId := 3 |} ]
                    "Browser→Max" (demoScore None))
  = Some {| portName := "Loop Browser→Max 2"; portId := 3 |}
  /\ length (sent (initMIDI [ {| portName := "IAC Browser→Max"; portId := 1 |};
                              {| portName := "Other"; portId := 2 |};
                              {| portName := "Loop Browser→Max 2"; portId := 3 |} ]
                            "Browser→Max" (demoScore None))) = 3%nat.
Proof.
  destruct (initMIDI_binds_last_match
              [ {| portName := "IAC Browser→Max"; portId := 1 |};
                {| portName := "Other"; portId := 2 |};
                {| portName := "Loop Browser→Max 2"; portId := 3 |} ]
              "Browser→Max" (demoScore None) eq_refl) as [_ H].
  destruct H as [E1 E2]; [discriminate|].
  split; [exact E1|]. rewrite E2. reflexivity.
Defined.

End BaselineBehaviour.

(** ** The plugin and its viewers *)

Section DeckBehaviour.
Import Deck.

Lemma activate_currentSlideIndex slideIndex s :
  Gated.currentSlideIndex (Gated.onMessage (Gated.HarmonyActivate slideIndex) s)
  = Gated.clampInt (default (Int 0) slideIndex) 0 127.
Proof.
  cbn [Gated.onMessage].
  unfold Gated.notifyParentOfHeight, Gated.sendSlideIndexCc, Gated.sendStepCountCc.
  rewrite highlightStep_effect. cbn zeta. rewrite !sendCC_effect.
  repeat case_match; reflexivity.
Qed.

(** X5. The slide index an activated viewer stores and reports on
    Control Change 24 is the plugin's h * 100 + v clamped into 0..127.  The
    third horizontal slide and every later one (h >= 2) therefore all report
    127, whatever their vertical index. *)
Theorem activated_viewer_slide_index (ev : Navigation) (f : Frame) (v : Gated.Viewer) :
  contentWindow f = Some v ->
  inCurrentSlide ev f = true ->
  exists v',
    contentWindow (notified ev f) = Some v'
    /\ Gated.currentSlideIndex v' = Z.max 0 (Z.min 127 (computeSlideIndex ev))
    /\ (forall h, indexh ev = Some h -> 2 <= h -> 0 <= default 0 (indexv ev) ->
                  Gated.currentSlideIndex v' = 127).
Proof.
  intros Hw Hin. unfold notified, notifyFrame. rewrite Hw, Hin. cbn zeta.
  eexists. split; [destruct (sections f); reflexivity|].
  rewrite activate_currentSlideIndex. cbn [default Gated.clampInt].
  split; [reflexivity|].
  intros h Hh Hge Hv. unfold computeSlideIndex. rewrite Hh.
  destruct (indexv ev); cbn [default from_option] in *; unfold id in *;
    cbn [Gated.clampInt]; lia.
Qed.

Lemma activated_viewer_slide_index_witness :
  exists v',
    contentWindow (notified (showSlide 2 3)
                            {| sections := [2%nat];
                               contentWindow := Some (demoViewer true false None) |})
    = Some v'
    /\ Gated.currentSlideIndex v' = 127.
Proof.
  destruct (activated_viewer_slide_index (showSlide 2 3)
              {| sections := [2%nat];
                 contentWindow := Some (demoViewer true false None) |}
              (demoViewer true false None) eq_refl eq_refl) as (v' & Hw & _ & H).
  exists v'. split; [exact Hw|]. apply (H 3); [reflexivity|lia|cbn; lia].
Defined.

(** X17. The host listener resizes only for [harmony-resize] reports with
    a positive height from a loaded harmony iframe: then that iframe and its
    nearest section get the reported height, no other iframe is touched, and
    the deck is laid out once more.  Every height report of the gated viewer
    (type [viewer-height]) is dropped, as is any report with a height of 0 or
    less, without a numeric height, or from another window. *)
Theorem height_reports_relayed (h : Host) (z : Sizes) :
  (forall m source, onHeightMessage (gatedReport m) source h z = z)
  /\ (forall msg, onHeightMessage msg None h z = z)
  /\ (forall msg source height,
        msgHeight msg = Some height -> height <= 0 ->
        onHeightMessage msg source h z = z)
  /\ (forall msg source, msgHeight msg = None -> onHeightMessage msg source h z = z)
  /\ (forall i f v height,
        frames h !! i = Some f -> contentWindow f = Some v -> 0 < height ->
        let z' := onHeightMessage (overlayReport (Baseline.HarmonyResize height))
                                  (Some i) h z in
        frameHeight z' !! i = Some height
        /\ (forall j, j <> i -> frameHeight z' !! j = frameHeight z !! j)
        /\ (forall section, head (sections f) = Some section ->
                            sectionHeight z' !! section = Some height)
        /\ layouts z' = S (layouts z)).
Proof.
  split; [intros [height] source; reflexivity|].
  split; [intros msg; unfold onHeightMessage; repeat case_match; reflexivity|].
  split.
  { intros msg source height Hh Hle. unfold onHeightMessage. rewrite Hh.
    destruct (Z.leb_spec height 0); [|lia]. repeat case_match; reflexivity. }
  split.
  { intros msg source Hh. unfold onHeightMessage. rewrite Hh.
    repeat case_match; reflexivity. }
  intros i f v height Hf Hw Hpos z'. subst z'. unfold onHeightMessage.
  cbn [overlayReport msgType msgHeight String.eqb Ascii.eqb Bool.eqb negb andb].
  change (String.eqb "harmony-resize" "harmony-resize") with true. cbn [negb].
  rewrite Hf, Hw. rewrite bool_decide_true by eauto. cbn [negb].
  destruct (Z.leb_spec height 0); [lia|].
  cbn [frameHeight sectionHeight layouts]. repeat split.
  - apply lookup_insert_eq.
  - intros j Hj. apply lookup_insert_ne. auto.
  - intros section Hs. destruct (sections f) as [|s0 rest]; [discriminate|].
    cbn in Hs. injection Hs as ->. apply lookup_insert_eq.
Qed.

End DeckBehaviour.

(** ** Steps of a score without nested groups *)

Section ChordSafeBehaviour.
Import Dom ChordSafe.

Lemma descendants_run doc el :
  exists n, descendants doc el = seq (S el) n.
Proof.
  unfold descendants. destruct (doc !! el) as [[anc n]|]; [eauto|].
  exists 0%nat. reflexivity.
Qed.

Lemma extractSteps_groupings root :
  extractStepsChordSafe (Some root)
  = filter (fun step => step <> [])
           (map (noteheads (treeOrder root))
                (filter (fun el => isGrouping (treeOrder root) el)
                        (descendants (treeOrder root) 0%nat))).
Proof.
  set (doc := treeOrder root).
  assert (Hinc : StronglySorted lt (descendants doc 0%nat)).
  { destruct (descendants_run doc 0%nat) as [n ->]. apply seq_increasing. }
  unfold extractStepsChordSafe. fold doc. cbn zeta.
  rewrite (foldl_push (noteheads doc)). cbn [app]. do 2 f_equal.
  unfold querySelectorAll at 2. rewrite list_filter_filter.
  unfold querySelectorAll. rewrite sortWith_merges.
  - apply list_filter_iff. intros el. unfold isGrouping.
    rewrite orb_True, andb_True, negb_True. tauto.
  - exact Hinc.
  - intros el Hc [Hn _]. apply negb_True in Hn. apply Hn, chord_has_closest, Hc.
Qed.

Lemma concat_filter_nonempty {A} (ls : list (list A)) :
  concat (filter (fun l => l <> []) ls) = concat ls.
Proof.
  induction ls as [|l ls IH]; [reflexivity|].
  rewrite filter_cons. destruct l as [|x l].
  - rewrite decide_False by auto. exact IH.
  - rewrite decide_True by discriminate. cbn. rewrite IH. reflexivity.
Qed.

Lemma increasing_app (l1 l2 : list nat) :
  StronglySorted lt l1 -> StronglySorted lt l2 ->
  (forall x y, x ∈ l1 -> y ∈ l2 -> (x < y)%nat) ->
  StronglySorted lt (l1 ++ l2).
Proof.
  intros H1 H2 Hlt. induction H1 as [|x l1 _ IH Hall]; [exact H2|].
  cbn. constructor.
  - apply IH. intros a b Ha Hb. apply Hlt; [right; exact Ha|exact Hb].
  - apply Forall_app. split; [exact Hall|].
    apply Forall_forall. intros y Hy. apply Hlt; [left|exact Hy].
Qed.

Lemma noteheads_increasing doc (G : list nat) :
  StronglySorted lt G ->
  (forall a b, a ∈ G -> b ∈ G -> b ∉ descendants doc a) ->
  StronglySorted lt (concat (map (noteheads doc) G)).
Proof.
  intros HGs. induction HGs as [|a G _ IH Hall]; intros Hflat; [constructor|].
  cbn [map concat]. apply increasing_app.
  - unfold noteheads, querySelectorAll. apply increasing_filter.
    destruct (descendants_run doc a) as [n ->]. apply seq_increasing.
  - apply IH. intros g g' Hg Hg'. apply Hflat; right; assumption.
  - intros x y Hx Hy.
    apply list_elem_of_In, in_concat in Hy as (l & Hl & Hy).
    apply in_map_iff in Hl as (b & <- & Hb).
    apply list_elem_of_In in Hb, Hy.
    rewrite Forall_forall in Hall. specialize (Hall b Hb).
    assert (Hnot : b ∉ descendants doc a).
    { apply Hflat; [left|right; exact Hb]. }
    unfold noteheads, querySelectorAll in Hx, Hy.
    apply list_elem_of_filter in Hx as [_ Hx].
    apply list_elem_of_filter in Hy as [_ Hy].
    destruct (descendants_run doc a) as [na Ea].
    destruct (descendants_run doc b) as [nb Eb].
    rewrite Ea in Hx, Hnot. rewrite Eb in Hy.
    rewrite elem_of_seq in Hx, Hy, Hnot. lia.
Qed.

(** X19. When no grouping lies inside another (as in scores where chords
    do not nest and notes of a chord are not steps of their own), the steps
    are pairwise disjoint and follow each other in document order: reading the
    noteheads step after step gives a strictly increasing sequence of document
    positions, so every notehead belongs to at most one step. *)
Theorem steps_in_document_order (root : Node) :
  let doc := treeOrder root in
  let groupings := filter (fun el => isGrouping doc el) (descendants doc 0%nat) in
  (forall a b, a ∈ groupings -> b ∈ groupings -> b ∉ descendants doc a) ->
  StronglySorted lt (concat (extractStepsChordSafe (Some root)))
  /\ NoDup (concat (extractStepsChordSafe (Some root))).
Proof.
  intros doc groupings Hflat.
  assert (Hsorted : StronglySorted lt (concat (extractStepsChordSafe (Some root)))).
  { rewrite extractSteps_groupings. fold doc. fold groupings.
    rewrite concat_filter_nonempty.
    assert (HG : StronglySorted lt groupings).
    { apply increasing_filter. destruct (descendants_run doc 0%nat) as [n ->].
      apply seq_increasing. }
    apply noteheads_increasing; [exact HG|exact Hflat]. }
  split; [exact Hsorted|].
  clear -Hsorted. induction Hsorted as [|x l _ IH Hall]; constructor; [|exact IH].
  intros Hx. rewrite Forall_forall in Hall. specialize (Hall x Hx). lia.
Qed.

Definition twoStepScore : Node :=
  Element "svg" [] None
    [ Element "g" ["note"%string] (Some "n1"%string)
        [Element "g" ["notehead"%string] None [Element "use" [] None []]];
      Element "g" ["chord"%string] (Some "c1"%string)
        [ Element "g" ["note"%string] (Some "n2"%string)
            [Element "g" ["notehead"%string] None [Element "use" [] None []]];
          Element "g" ["note"%string] (Some "n3"%string)
            [Element "g" ["notehead"%string] None [Element "use" [] None []]] ] ].

Lemma steps_in_document_order_witness :
  extractStepsChordSafe (Some twoStepScore) = [[3%nat]; [7%nat; 10%nat]]
  /\ NoDup (concat (extractStepsChordSafe (Some twoStepScore))).
Proof.
  split; [reflexivity|].
  apply (steps_in_document_order twoStepScore).
  intros a b Ha Hb.
  assert (Hg : forall g,
             g ∈ filter (fun el => isGrouping (treeOrder twoStepScore) el)
                        (descendants (treeOrder twoStepScore) 0%nat) ->
             g = 1%nat \/ g = 4%nat).
  { intros g Hg. vm_compute in Hg.
    apply elem_of_cons in Hg as [->|Hg]; [left; reflexivity|].
    apply elem_of_cons in Hg as [->|Hg]; [right; reflexivity|].
    apply elem_of_nil in Hg. contradiction. }
  destruct (Hg a Ha) as [-> | ->], (Hg b Hb) as [-> | ->]; vm_compute;
    intros Hin;
    repeat (apply elem_of_cons in Hin as [Hin|Hin]; [discriminate|]);
    apply elem_of_nil in Hin; contradiction.
Defined.

End ChordSafeBehaviour.

(** ** Notes of the gated viewer are released *)

Section GatedRelease.
Import Gated.

(** Reading the output log from the start: a Note-On leaves a note sounding,
    an all-notes-off (Control Change 123 on channel 0) releases everything,
    any other message changes nothing. *)
Definition soundingAfter (b : bool) (m : MidiMsg) : bool :=
  if isNoteOn m then true
  else if bool_decide (m = allNotesOff) then false
  else b.

Definition sounding (log : list MidiMsg) : bool := foldl soundingAfter false log.

(** Pending timers belong to a bound output and to channel 0, and a
    sounding note has a timer pending that will release it. *)
Definition covered (s : Viewer) : Prop :=
  (timers s <> [] -> midiOut s <> None)
  /\ Forall (eq 0) (timers s)
  /\ (sounding (sent s) = true -> timers s <> []).

Lemma sounding_app l more :
  sounding (l ++ more) = foldl soundingAfter (sounding l) more.
Proof. unfold sounding. apply foldl_app. Qed.

Lemma control_is_no_note_on ch d1 d2 :
  isNoteOn [Z.lor 0xb0 (Z.land ch 0x0f); d1; d2] = false.
Proof.
  cbn [isNoteOn]. rewrite Z.land_lor_distr_l, <- Z.land_assoc.
  change (Z.land 0x0f 0xf0) with 0. rewrite Z.land_0_r. reflexivity.
Qed.

Lemma soundingAfter_control b ch d1 d2 :
  soundingAfter b [Z.lor 0xb0 (Z.land ch 0x0f); d1; d2] = true -> b = true.
Proof.
  unfold soundingAfter. rewrite control_is_no_note_on.
  case_bool_decide; [discriminate|auto].
Qed.

Lemma covered_sendCC cc v ch s : covered s -> covered (sendCC cc v ch s).
Proof.
  intros (Hb & Hz & Hs). rewrite sendCC_effect.
  unfold covered. cbn [timers midiOut sent set_sent].
  split; [exact Hb|]. split; [exact Hz|].
  destruct (midiOut s); [|rewrite app_nil_r; exact Hs].
  rewrite sounding_app. cbn [foldl]. intros H.
  apply Hs. exact (soundingAfter_control _ _ _ _ H).
Qed.

Lemma covered_highlightStep n s : covered s -> covered (highlightStep n s).
Proof.
  intros (Hb & Hz & Hs). pose proof (highlightStep_effect n s) as E.
  cbn zeta in E. rewrite E. clear E.
  set (c := clampInt n 0 (stepCount s)). clearbody c.
  unfold covered, stepOutput, stepTimers.
  cbn [timers midiOut sent set_sent set_posted set_timers set_overlay
       set_highlighted set_highlightedStep isActiveViewer].
  destruct (midiOut s) as [p|] eqn:Hout.
  - destruct (isActiveViewer s && (0 <? c)).
    + split; [discriminate|]. split.
      * apply Forall_app. split; [exact Hz|]. constructor; [reflexivity|constructor].
      * intros _ Hnil. apply app_eq_nil in Hnil as [_ Hnil]. discriminate.
    + rewrite app_nil_r. split; [discriminate|]. split; [exact Hz|].
      rewrite sounding_app. cbn. discriminate.
  - rewrite !app_nil_r. auto.
Qed.

Lemma covered_frame s s' :
  midiOut s' = midiOut s -> sent s' = sent s -> timers s' = timers s ->
  covered s -> covered s'.
Proof. unfold covered. intros -> -> ->. auto. Qed.

Lemma covered_fireTimer s : covered s -> covered (fireTimer s).
Proof.
  intros (Hb & Hz & Hs). unfold fireTimer.
  destruct (timers s) as [|ch rest] eqn:Ht; [unfold covered; rewrite Ht; auto|].
  apply Forall_cons in Hz as [<- Hz].
  rewrite sendAllNotesOff_sent. cbn [midiOut set_timers].
  destruct (midiOut s) as [p|] eqn:Hout; [|exfalso; apply Hb; [discriminate|reflexivity]].
  unfold covered. cbn [timers midiOut sent set_sent set_timers].
  rewrite Hout. split; [discriminate|]. split; [exact Hz|].
  rewrite sounding_app. cbn. discriminate.
Qed.

Lemma covered_sendStepCountCc s : covered s -> covered (sendStepCountCc s).
Proof.
  intros H. unfold sendStepCountCc.
  destruct (negb (isActiveViewer s)); [exact H|apply covered_sendCC, H].
Qed.

Lemma covered_sendSlideIndexCc i s : covered s -> covered (sendSlideIndexCc i s).
Proof.
  intros H. unfold sendSlideIndexCc.
  destruct (negb (isActiveViewer s)); [exact H|apply covered_sendCC, H].
Qed.

Lemma covered_sendAllNotesOff ch s : covered s -> covered (sendAllNotesOff ch s).
Proof.
  intros H. unfold sendAllNotesOff.
  destruct (midiOut s); [apply covered_sendCC, H|exact H].
Qed.

Lemma covered_notifyParentOfHeight s : covered s -> covered (notifyParentOfHeight s).
Proof.
  intros H. unfold notifyParentOfHeight.
  destruct (negb (IS_EMBEDDED s)); [exact H|].
  exact (covered_frame s _ eq_refl eq_refl eq_refl H).
Qed.

Lemma handle_covered e s : covered s -> covered (handle e s).
Proof.
  intros H. destruct e as [[slideIndex| | |]|data| |]; cbn [handle onMessage].
  - apply covered_notifyParentOfHeight, covered_highlightStep,
      covered_sendSlideIndexCc, covered_sendStepCountCc.
    exact (covered_frame s _ eq_refl eq_refl eq_refl H).
  - apply covered_sendAllNotesOff.
    exact (covered_frame s _ eq_refl eq_refl eq_refl H).
  - apply covered_sendStepCountCc, H.
  - exact H.
  - unfold handleMidiMessage.
    destruct (negb (isActiveViewer s) && IS_EMBEDDED s); [exact H|].
    cbn zeta. destruct (_ =? 0xb0); [|exact H].
    destruct (_ =? 22); [|exact H].
    apply covered_highlightStep, H.
  - apply covered_highlightStep, H.
  - apply covered_fireTimer, H.
Qed.

Lemma run_covered es s : covered s -> covered (run es s).
Proof.
  revert s. induction es as [|e es IH]; intros s H; [exact H|].
  change (run (e :: es) s) with (run es (handle e s)).
  apply IH, handle_covered, H.
Qed.

Lemma fireTimer_timers s : timers (fireTimer s) = tail (timers s).
Proof.
  unfold fireTimer. destruct (timers s) as [|ch rest] eqn:Ht; [rewrite Ht; reflexivity|].
  rewrite sendAllNotesOff_sent. cbn [midiOut set_timers].
  destruct (midiOut s); reflexivity.
Qed.

Lemma fire_all s n :
  length (timers s) = n -> timers (run (replicate n TimerFires) s) = [].
Proof.
  revert s. induction n as [|n IH]; intros s Hn.
  - cbn. destruct (timers s); [reflexivity|discriminate].
  - change (run (replicate (S n) TimerFires) s)
      with (run (replicate n TimerFires) (fireTimer s)).
    apply IH. rewrite fireTimer_timers. destruct (timers s); [discriminate|].
    cbn in *. lia.
Qed.

(** X18. No note is left sounding.  Start with no timer pending and no
    note sounding; after any sequence of host messages, MIDI input, button
    clicks and timer expiries, let the timers still pending fire: then every
    Note-On in the output log is followed by an all-notes-off on channel 0,
    and no timer is left. *)
Theorem no_note_left_sounding (es : list Event) (s : Viewer) :
  timers s = [] ->
  sounding (sent s) = false ->
  let s1 := run es s in
  let s2 := run (replicate (length (timers s1)) TimerFires) s1 in
  timers s2 = [] /\ sounding (sent s2) = false.
Proof.
  intros Ht Hs s1 s2.
  assert (H0 : covered s).
  { unfold covered. rewrite Ht, Hs. split; [congruence|]. split; [constructor|discriminate]. }
  assert (H2 : covered s2) by (apply run_covered, run_covered, H0).
  assert (Hnil : timers s2 = []) by (apply fire_all; reflexivity).
  split; [exact Hnil|].
  destruct H2 as (_ & _ & H2). destruct (sounding (sent s2)); [|reflexivity].
  exfalso. apply H2; [reflexivity|exact Hnil].
Qed.

Lemma no_note_left_sounding_witness :
  sounding (sent (run [NextClick; NextClick] (demoViewer true true (Some demoPort)))) = true
  /\ sounding (sent (run (replicate 2 TimerFires)
                         (run [NextClick; NextClick]
                              (demoViewer true true (Some demoPort))))) = false.
Proof.
  split; [vm_compute; reflexivity|].
  pose proof (no_note_left_sounding [NextClick; NextClick]
                (demoViewer true true (Some demoPort)) eq_refl eq_refl) as H.
  cbv zeta in H. destruct H as [_ H].
  assert (E : length (timers (run [NextClick; NextClick]
                                  (demoViewer true true (Some demoPort)))) = 2%nat)
    by (vm_compute; reflexivity).
  rewrite E in H. exact H.
Defined.

End GatedRelease.
